(** * AI Beat Maker: the sequencing and rendering core of [main.js]

  A shallow embedding of the browser script [src/main.js]: the script's
  variables and the parts of the page and platform it touches form one
  [state] record, every function of the script is a computation in a small
  state-and-exception monad, and the platform calls the script makes
  (regular-expression match, [JSON.parse], [DataView], timers, the offline
  audio context) are modelled next to it.

  JavaScript numbers are IEEE binary64 values: they are the kernel's
  primitive floats here, so every arithmetic step evaluates exactly as in
  the browser.  Counters that only ever hold small integers ([bpm],
  [currentBeat], byte positions) are [Z] or [nat]. *)

From Stdlib Require Import ZArith List Bool Ascii String Lia.
From Stdlib Require Import Floats.PrimFloat Floats.FloatOps Floats.SpecFloat
  Floats.FloatAxioms.
From stdpp Require Import gmap strings list pretty.

Set Warnings "-register-all".
Local Open Scope Z_scope.

(** ** JavaScript numbers *)

Module JsNum.

(** The Number nearest to an integer (exact below 2^53). *)
Definition of_Z (z : Z) : float :=
  SF2Prim (binary_normalize prec emax z 0 false).

(** IntegerPart: the value truncated toward zero; NaN and the infinities
    give 0, which is what ToInt32, ToUint32 and the WebIDL integer
    conversions make of them. *)
Definition trunc (f : float) : Z :=
  match Prim2SF f with
  | S754_finite s m e =>
      let a := Z.shiftl (Z.pos m) e in
      if s then - a else a
  | _ => 0
  end.

Definition ToUint32 (f : float) : Z := trunc f mod 2 ^ 32.

Definition ToInt32 (f : float) : Z :=
  (trunc f + 2 ^ 31) mod 2 ^ 32 - 2 ^ 31.

Definition is_neg_zero (f : float) : bool :=
  is_zero f && get_sign f.

(** [Math.min(a, b)] and [Math.max(a, b)]: NaN if either is NaN, and
    -0 counts as smaller than +0. *)
Definition Math_min (a b : float) : float :=
  if is_nan a || is_nan b then nan
  else if (a <? b)%float then a
  else if (b <? a)%float then b
  else if is_neg_zero a then a else b.

Definition Math_max (a b : float) : float :=
  if is_nan a || is_nan b then nan
  else if (a <? b)%float then b
  else if (b <? a)%float then a
  else if is_neg_zero a then b else a.

(** A Number is truthy unless it is +0, -0 or NaN. *)
Definition truthy (f : float) : bool :=
  negb (is_zero f || is_nan f).

(** The exact integer a Number holds, if it holds one. *)
Definition to_integer (f : float) : option Z :=
  let z := trunc f in
  if is_finite f && (of_Z z =? f)%float then Some z else None.

End JsNum.

(** ** Strings

  JavaScript strings are modelled as byte strings; case conversion is
  the ASCII one. *)

Module JsString.

Definition lower_ascii (c : ascii) : ascii :=
  let n := nat_of_ascii c in
  if (65 <=? n)%nat && (n <=? 90)%nat then ascii_of_nat (n + 32) else c.

Fixpoint toLowerCase (s : string) : string :=
  match s with
  | EmptyString => EmptyString
  | String c s' => String (lower_ascii c) (toLowerCase s')
  end.

Fixpoint startsWith (p s : string) : bool :=
  match p, s with
  | EmptyString, _ => true
  | String a p', String b s' => Ascii.eqb a b && startsWith p' s'
  | String _ _, EmptyString => false
  end.

(** [s.includes(p)] *)
Fixpoint includes (s p : string) : bool :=
  startsWith p s ||
  match s with
  | EmptyString => false
  | String _ s' => includes s' p
  end.

(** [s.split(sep)] for a one-character separator: never the empty list. *)
Fixpoint split (sep : ascii) (s : string) : list string :=
  match s with
  | EmptyString => [EmptyString]
  | String c s' =>
      if Ascii.eqb c sep then EmptyString :: split sep s'
      else match split sep s' with
           | [] => [String c EmptyString]
           | w :: ws => String c w :: ws
           end
  end.

Fixpoint take (n : nat) (s : string) : string :=
  match n, s with
  | S n', String c s' => String c (take n' s')
  | _, _ => EmptyString
  end.

(** [s.length]: the UTF-16 code units of the text whose bytes [s] holds.
    A character of one to three bytes is one unit, one of four bytes is
    two. *)
Fixpoint length (s : string) : nat :=
  match s with
  | EmptyString => 0
  | String c s' =>
      let n := nat_of_ascii c in
      ((if (n <? 128)%nat then 1
        else if (n <? 192)%nat then 0
        else if (n <? 240)%nat then 1
        else 2) + length s')%nat
  end.

End JsString.

(** ** Values

    What [JSON.parse] can return, plus [undefined]: the values the script's
    variables and the generator's answer range over.  An object is its list
    of own properties, each key once. *)

Inductive value : Type :=
| VUndefined
| VNull
| VBool (b : bool)
| VNum (n : float)
| VStr (s : string)
| VArr (elems : list value)
| VObj (props : list (string * value)).

Inductive error : Type :=
| TypeError
| RangeError
| SyntaxError
| NotSupportedError
| Error (message : string)
| Rejected (reason : string).

Inductive completion (A : Type) : Type :=
| Normal (a : A)
| Throw (e : error).
Arguments Normal {A} a.
Arguments Throw {A} e.

Module Js.

(** ToBoolean *)
Definition truthy (v : value) : bool :=
  match v with
  | VUndefined | VNull => false
  | VBool b => b
  | VNum n => JsNum.truthy n
  | VStr s => negb (String.eqb s EmptyString)
  | VArr _ | VObj _ => true
  end.

Definition isArray (v : value) : bool :=
  match v with VArr _ => true | _ => false end.

Fixpoint lookup_prop (k : string) (props : list (string * value)) : value :=
  match props with
  | [] => VUndefined
  | (k', v) :: rest => if String.eqb k k' then v else lookup_prop k rest
  end.

(** [v.k] for a key that is not an array index.  Reading a property of
    [undefined] or [null] throws; the only inherited property the script
    reads as data is [length]. *)
Definition get (v : value) (k : string) : completion value :=
  match v with
  | VUndefined | VNull => Throw TypeError
  | VObj props => Normal (lookup_prop k props)
  | VArr elems =>
      if String.eqb k "length"
      then Normal (VNum (JsNum.of_Z (Z.of_nat (length elems))))
      else Normal VUndefined
  | VStr s =>
      if String.eqb k "length"
      then Normal (VNum (JsNum.of_Z (Z.of_nat (JsString.length s))))
      else Normal VUndefined
  | VBool _ | VNum _ => Normal VUndefined
  end.

(** [v === n] against a Number. *)
Definition strict_eq_num (v : value) (n : float) : bool :=
  match v with
  | VNum m => (m =? n)%float
  | _ => false
  end.

(** Definition of a property on an object under construction: a repeated
    key keeps its place and takes the new value. *)
Fixpoint set_prop (k : string) (v : value) (props : list (string * value))
  : list (string * value) :=
  match props with
  | [] => [(k, v)]
  | (k', v') :: rest =>
      if String.eqb k k' then (k, v) :: rest else (k', v') :: set_prop k v rest
  end.

End Js.

(** ** Regular expressions

    A backtracking matcher for the fragment the script's one regular
    expression uses: a character class, a greedy starred class, and
    sequencing.  The continuation [k] decides about the rest of the input,
    so a greedy star gives characters back one at a time until the rest of
    the pattern matches. *)

Module Regex.

Inductive regex : Type :=
| Class (p : ascii -> bool)
| StarClass (p : ascii -> bool)
| Seq (r1 r2 : regex).

Fixpoint star (p : ascii -> bool) (s : string)
  (k : string -> option string) : option string :=
  match s with
  | String c s' =>
      if p c
      then match star p s' k with
           | Some rest => Some rest
           | None => k s
           end
      else k s
  | EmptyString => k s
  end.

(** [run r s k]: match [r] at the start of [s]; the result is what is left
    of [s] after the whole match. *)
Fixpoint run (r : regex) (s : string)
  (k : string -> option string) : option string :=
  match r with
  | Class p =>
      match s with
      | String c s' => if p c then k s' else None
      | EmptyString => None
      end
  | StarClass p => star p s k
  | Seq r1 r2 => run r1 s (fun s' => run r2 s' k)
  end.

Definition match_here (r : regex) (s : string) : option string :=
  match run r s Some with
  | Some rest => Some (JsString.take (String.length s - String.length rest) s)
  | None => None
  end.

(** [s.match(r)] for a pattern without the global flag: the match at the
    leftmost position that has one, [match[0]]. *)
Fixpoint String_match (r : regex) (s : string) : option string :=
  match match_here r s with
  | Some m => Some m
  | None =>
      match s with
      | String _ s' => String_match r s'
      | EmptyString => None
      end
  end.

End Regex.

(** ** JSON.parse

    The platform's parser, as a lexer followed by a stack machine over the
    tokens; both are total.  [\u] escapes are stored as UTF-8 bytes. *)

Module Json.

Inductive token : Type :=
| TLBrace | TRBrace | TLBracket | TRBracket | TColon | TComma
| TString (s : string)
| TNumber (n : float)
| TTrue | TFalse | TNull.

Definition dquote : ascii := "034"%char.
Definition backslash : ascii := "092"%char.

Definition is_ws (c : ascii) : bool :=
  let n := nat_of_ascii c in
  (n =? 32)%nat || (n =? 9)%nat || (n =? 10)%nat || (n =? 13)%nat.

Definition digit_of (c : ascii) : option Z :=
  let n := Z.of_nat (nat_of_ascii c) in
  if (48 <=? n) && (n <=? 57) then Some (n - 48) else None.

Definition hex_of (c : ascii) : option Z :=
  let n := Z.of_nat (nat_of_ascii c) in
  if (48 <=? n) && (n <=? 57) then Some (n - 48)
  else if (65 <=? n) && (n <=? 70) then Some (n - 55)
  else if (97 <=? n) && (n <=? 102) then Some (n - 87)
  else None.

Definition is_word_char (c : ascii) : bool :=
  let n := Z.of_nat (nat_of_ascii c) in
  ((48 <=? n) && (n <=? 57)) || ((97 <=? n) && (n <=? 122))
  || (n =? 45) || (n =? 43) || (n =? 46) || (n =? 69).

(** *** Number literals *)

(** The Number nearest to [m * 10 ^ e10], for [0 <= m].  A negative power
    of ten is divided out with enough extra bits and a sticky bit, so the
    final rounding is the correct one. *)
Definition decimal_to_float (neg : bool) (m e10 : Z) : float :=
  if m =? 0 then (if neg then neg_zero else zero)
  else
    let sf :=
      if 0 <=? e10
      then binary_normalize prec emax (m * 10 ^ e10) 0 false
      else
        let d := 10 ^ (- e10) in
        let s := Z.max 0 (Z.log2 d - Z.log2 m + 64) in
        let n := m * 2 ^ s in
        let q := n / d in
        let q' := if n mod d =? 0 then q else Z.lor q 1 in
        binary_normalize prec emax q' (- s) false in
    let f := SF2Prim sf in
    if neg then (- f)%float else f.

(** Leading decimal digits of [s]: their value, their number, the rest. *)
Fixpoint digits (s : string) (acc : Z) (n : Z) : Z * Z * string :=
  match s with
  | String c s' =>
      match digit_of c with
      | Some d => digits s' (acc * 10 + d) (n + 1)
      | None => (acc, n, s)
      end
  | EmptyString => (acc, n, s)
  end.

Definition leading_zero (s : string) : bool :=
  match s with
  | String "0" (String c _) =>
      match digit_of c with Some _ => true | None => false end
  | _ => false
  end.

(** [-? int frac? exp?] with nothing after it. *)
Definition number_of_lexeme (s : string) : option float :=
  let '(neg, s1) :=
    match s with
    | String "-" r => (true, r)
    | _ => (false, s)
    end in
  if leading_zero s1 then None else
  let '(ip, ni, s2) := digits s1 0 0 in
  if ni =? 0 then None else
  let frac :=
    match s2 with
    | String "." r =>
        let '(m, nf, s3) := digits r ip 0 in
        if nf =? 0 then None else Some (m, nf, s3)
    | _ => Some (ip, 0, s2)
    end in
  match frac with
  | None => None
  | Some (m, nf, s3) =>
      let finish (esign : bool) (r : string) :=
        let '(e, ne, s4) := digits r 0 0 in
        if (ne =? 0) || negb (String.eqb s4 EmptyString) then None
        else Some (decimal_to_float neg m ((if esign then - e else e) - nf)) in
      match s3 with
      | EmptyString => Some (decimal_to_float neg m (- nf))
      | String c r =>
          if Ascii.eqb c "e" || Ascii.eqb c "E" then
            match r with
            | String "+" r' => finish false r'
            | String "-" r' => finish true r'
            | _ => finish false r
            end
          else None
      end
  end.

Definition token_of_word (w : string) : option token :=
  if String.eqb w "true" then Some TTrue
  else if String.eqb w "false" then Some TFalse
  else if String.eqb w "null" then Some TNull
  else match number_of_lexeme w with
       | Some n => Some (TNumber n)
       | None => None
       end.

(** *** Lexer *)

Definition string_of_rev (r : list ascii) : string :=
  fold_left (fun s c => String c s) r EmptyString.

(** The bytes of the character [u].  A surrogate on its own is given the
    three bytes its number would have. *)
Definition utf8 (u : Z) : list ascii :=
  let b (z : Z) := ascii_of_nat (Z.to_nat z) in
  if u <? 128 then [b u]
  else if u <? 2048 then [b (192 + u / 64); b (128 + u mod 64)]
  else if u <? 65536
  then [b (224 + u / 4096); b (128 + (u / 64) mod 64); b (128 + u mod 64)]
  else [b (240 + u / 262144); b (128 + (u / 4096) mod 64);
        b (128 + (u / 64) mod 64); b (128 + u mod 64)].

(** The code unit [u] of a [\u] escape after the text [acc], latest byte
    first: a low surrogate right after a high one is one character with
    it, as in the UTF-16 string the escapes denote. *)
Definition push_code_unit (u : Z) (acc : list ascii) : list ascii :=
  let n (c : ascii) := Z.of_nat (nat_of_ascii c) in
  match acc with
  | b3 :: b2 :: b1 :: rest =>
      if (56320 <=? u) && (u <=? 57343)
         && (n b1 =? 237) && (160 <=? n b2) && (n b2 <=? 175)
      then
        let high := 55296 + (n b2 - 160) * 64 + (n b3 - 128) in
        rev (utf8 (65536 + (high - 55296) * 1024 + (u - 56320))) ++ rest
      else rev (utf8 u) ++ acc
  | _ => rev (utf8 u) ++ acc
  end.

Inductive lexmode : Type :=
| LDefault
| LWord (rev_acc : list ascii)
| LString (rev_acc : list ascii)
| LEscape (rev_acc : list ascii)
| LUnicode (rev_acc : list ascii) (hex : list Z).

Definition lex_default (c : ascii) : option (list token * lexmode) :=
  if is_ws c then Some ([], LDefault)
  else if Ascii.eqb c "{" then Some ([TLBrace], LDefault)
  else if Ascii.eqb c "}" then Some ([TRBrace], LDefault)
  else if Ascii.eqb c "[" then Some ([TLBracket], LDefault)
  else if Ascii.eqb c "]" then Some ([TRBracket], LDefault)
  else if Ascii.eqb c ":" then Some ([TColon], LDefault)
  else if Ascii.eqb c "," then Some ([TComma], LDefault)
  else if Ascii.eqb c dquote then Some ([], LString [])
  else if is_word_char c then Some ([], LWord [c])
  else None.

Definition lex_escape (acc : list ascii) (c : ascii) : option lexmode :=
  let plain (x : ascii) := Some (LString (x :: acc)) in
  if Ascii.eqb c dquote then plain dquote
  else if Ascii.eqb c backslash then plain backslash
  else if Ascii.eqb c "/" then plain "/"%char
  else if Ascii.eqb c "b" then plain "008"%char
  else if Ascii.eqb c "f" then plain "012"%char
  else if Ascii.eqb c "n" then plain "010"%char
  else if Ascii.eqb c "r" then plain "013"%char
  else if Ascii.eqb c "t" then plain "009"%char
  else if Ascii.eqb c "u" then Some (LUnicode acc [])
  else None.

(** One character: the tokens it completes (latest first) and the mode
    after it. *)
Definition lex_step (m : lexmode) (c : ascii) : option (list token * lexmode) :=
  match m with
  | LDefault => lex_default c
  | LWord acc =>
      if is_word_char c then Some ([], LWord (c :: acc))
      else
        match token_of_word (string_of_rev acc), lex_default c with
        | Some t, Some (ts, m') => Some (ts ++ [t], m')
        | _, _ => None
        end
  | LString acc =>
      if Ascii.eqb c dquote then Some ([TString (string_of_rev acc)], LDefault)
      else if Ascii.eqb c backslash then Some ([], LEscape acc)
      else if (nat_of_ascii c <? 32)%nat then None
      else Some ([], LString (c :: acc))
  | LEscape acc =>
      match lex_escape acc c with
      | Some m' => Some ([], m')
      | None => None
      end
  | LUnicode acc hex =>
      match hex_of c with
      | None => None
      | Some h =>
          match hex with
          | [h2; h1; h0] =>
              let u := ((h0 * 16 + h1) * 16 + h2) * 16 + h in
              Some ([], LString (push_code_unit u acc))
          | _ => Some ([], LUnicode acc (h :: hex))
          end
      end
  end.

(** [out] holds the tokens so far, latest first. *)
Fixpoint lex (s : string) (m : lexmode) (out : list token)
  : option (list token) :=
  match s with
  | String c s' =>
      match lex_step m c with
      | Some (ts, m') => lex s' m' (ts ++ out)
      | None => None
      end
  | EmptyString =>
      match m with
      | LDefault => Some (rev out)
      | LWord acc =>
          match token_of_word (string_of_rev acc) with
          | Some t => Some (rev (t :: out))
          | None => None
          end
      | _ => None
      end
  end.

(** *** Parser *)

Inductive frame : Type :=
| FArr (rev_elems : list value)
| FObj (props : list (string * value)) (key : option string).

Inductive expect : Type :=
| XValue
| XValueOrClose
| XKeyOrClose
| XKey
| XColon (k : string)
| XCommaOrClose
| XEnd (v : value).

Definition pstate : Type := (expect * list frame)%type.

(** A value is complete: it is the result, or goes into the innermost
    open array or object. *)
Definition complete (v : value) (stack : list frame) : option pstate :=
  match stack with
  | [] => Some (XEnd v, [])
  | FArr es :: st => Some (XCommaOrClose, FArr (v :: es) :: st)
  | FObj props (Some k) :: st =>
      Some (XCommaOrClose, FObj (Js.set_prop k v props) None :: st)
  | FObj _ None :: _ => None
  end.

Definition begin_value (t : token) (stack : list frame) : option pstate :=
  match t with
  | TLBrace => Some (XKeyOrClose, FObj [] None :: stack)
  | TLBracket => Some (XValueOrClose, FArr [] :: stack)
  | TString s => complete (VStr s) stack
  | TNumber n => complete (VNum n) stack
  | TTrue => complete (VBool true) stack
  | TFalse => complete (VBool false) stack
  | TNull => complete VNull stack
  | TRBrace | TRBracket | TColon | TComma => None
  end.

Definition close (t : token) (stack : list frame) : option pstate :=
  match t, stack with
  | TRBracket, FArr es :: st => complete (VArr (rev es)) st
  | TRBrace, FObj props None :: st => complete (VObj props) st
  | _, _ => None
  end.

Definition parse_step (ps : pstate) (t : token) : option pstate :=
  let '(x, stack) := ps in
  match x with
  | XValue => begin_value t stack
  | XValueOrClose =>
      match t with
      | TRBracket => close t stack
      | _ => begin_value t stack
      end
  | XKeyOrClose =>
      match t with
      | TRBrace => close t stack
      | TString k => Some (XColon k, stack)
      | _ => None
      end
  | XKey =>
      match t with
      | TString k => Some (XColon k, stack)
      | _ => None
      end
  | XColon k =>
      match t, stack with
      | TColon, FObj props None :: st => Some (XValue, FObj props (Some k) :: st)
      | _, _ => None
      end
  | XCommaOrClose =>
      match t, stack with
      | TComma, FArr _ :: _ => Some (XValue, stack)
      | TComma, FObj _ None :: _ => Some (XKey, stack)
      | TRBracket, _ | TRBrace, _ => close t stack
      | _, _ => None
      end
  | XEnd _ => None
  end.

Fixpoint parse_tokens (ts : list token) (ps : pstate) : option value :=
  match ts with
  | [] => match ps with (XEnd v, []) => Some v | _ => None end
  | t :: ts' =>
      match parse_step ps t with
      | Some ps' => parse_tokens ts' ps'
      | None => None
      end
  end.

Definition parse (text : string) : completion value :=
  match lex text LDefault [] with
  | Some ts =>
      match parse_tokens ts (XValue, []) with
      | Some v => Normal v
      | None => Throw SyntaxError
      end
  | None => Throw SyntaxError
  end.

End Json.


(** ** Conversions of values *)

Module Conv.

(** *** Number::toString: the shortest digits that read back as the
    same Number. *)

(** The decimal exponent [n] with [10^(n-1) <= num/den < 10^n]. *)
Fixpoint magnitude_down (fuel : nat) (num den n : Z) : Z :=
  match fuel with
  | O => n
  | S fuel' =>
      if num * 10 ^ (1 - n) <? den then magnitude_down fuel' num den (n - 1)
      else n
  end.

Definition magnitude (num den : Z) : Z :=
  if den <=? num
  then Z.of_nat (String.length (pretty (num / den)))
  else magnitude_down 400 num den 0.

(** Digits [s] and exponent [n] of the shortest decimal [s * 10^(n-k)]
    that rounds to [f], trying [k] = 1, 2, ... significant digits. *)
Fixpoint shortest (fuel : nat) (f : float) (num den n0 k : Z) : Z * Z :=
  let p := n0 - k in
  let scaled_num := if 0 <=? p then num else num * 10 ^ (- p) in
  let scaled_den := if 0 <=? p then den * 10 ^ p else den in
  let lo := scaled_num / scaled_den in
  let hi := lo + 1 in
  let back (s : Z) := (Json.decimal_to_float false s p =? f)%float in
  let nearer_hi := scaled_den <? 2 * (scaled_num mod scaled_den) in
  let tie := scaled_den =? 2 * (scaled_num mod scaled_den) in
  let pick :=
    match back lo, back hi with
    | true, true => Some (if nearer_hi || (tie && Z.odd lo) then hi else lo)
    | true, false => Some lo
    | false, true => Some hi
    | false, false => None
    end in
  match pick, fuel with
  | Some s, _ => if s =? 10 ^ k then (1, n0 + 1) else (s, n0)
  | None, S fuel' => shortest fuel' f num den n0 (k + 1)
  | None, O => (lo, n0)
  end.

Fixpoint strip_zeros (fuel : nat) (s : Z) : Z :=
  match fuel with
  | S fuel' => if (s mod 10 =? 0) && negb (s =? 0) then strip_zeros fuel' (s / 10) else s
  | O => s
  end.

Definition zeros (n : Z) : string :=
  string_of_list_ascii (repeat "0"%char (Z.to_nat n)).

Definition drop_string (n : nat) (s : string) : string :=
  string_of_list_ascii (skipn n (list_ascii_of_string s)).

Definition Number_toString (f : float) : string :=
  if is_nan f then "NaN"
  else if is_zero f then "0"
  else if is_infinity f then (if get_sign f then "-Infinity" else "Infinity")
  else
    match Prim2SF (abs f) with
    | S754_finite _ m e =>
        let num := if 0 <=? e then Z.pos m * 2 ^ e else Z.pos m in
        let den := if 0 <=? e then 1 else 2 ^ (- e) in
        let '(s0, n) := shortest 17 (abs f) num den (magnitude num den) 1 in
        let s := strip_zeros 20 s0 in
        let ds := pretty s in
        let k := Z.of_nat (String.length ds) in
        let body :=
          if (k <=? n) && (n <=? 21) then ds +:+ zeros (n - k)
          else if (0 <? n) && (n <=? 21)
          then JsString.take (Z.to_nat n) ds +:+ "." +:+ drop_string (Z.to_nat n) ds
          else if (-6 <? n) && (n <=? 0) then "0." +:+ zeros (- n) +:+ ds
          else
            let e10 := n - 1 in
            let exp := (if e10 <? 0 then "e-" else "e+") +:+ pretty (Z.abs e10) in
            if k =? 1 then ds +:+ exp
            else JsString.take 1 ds +:+ "." +:+ drop_string 1 ds +:+ exp in
        if get_sign f then "-" +:+ body else body
    | _ => "NaN"
    end.

(** *** ToString

    The conversion of a value to text, as a template literal, a property
    key and a text attribute of the page make it.  The values are those
    [JSON.parse] builds: an object is converted by the [toString] it
    inherits unless it has a property of that name of its own, which no
    parsed value can call, and then the conversion throws; an array is
    converted by joining the conversions of its elements. *)

Definition has_own (k : string) (props : list (string * value)) : bool :=
  existsb (fun p => String.eqb k (fst p)) props.

Fixpoint ToString (v : value) : completion string :=
  match v with
  | VUndefined => Normal "undefined"
  | VNull => Normal "null"
  | VBool true => Normal "true"
  | VBool false => Normal "false"
  | VNum n => Normal (Number_toString n)
  | VStr s => Normal s
  | VObj props =>
      if has_own "toString" props then Throw TypeError
      else Normal "[object Object]"
  | VArr elems =>
      (fix join (l : list value) : completion string :=
         match l with
         | [] => Normal ""
         | x :: rest =>
             match match x with
                   | VUndefined | VNull => Normal ""
                   | _ => ToString x
                   end with
             | Throw e => Throw e
             | Normal sx =>
                 match rest with
                 | [] => Normal sx
                 | _ =>
                     match join rest with
                     | Normal sr => Normal (sx +:+ "," +:+ sr)
                     | Throw e => Throw e
                     end
                 end
             end
         end) elems
  end.

(** *** ToNumber *)

Definition is_js_space (c : ascii) : bool :=
  let n := nat_of_ascii c in
  (n =? 32)%nat || ((9 <=? n)%nat && (n <=? 13)%nat).

Fixpoint trim_left (s : string) : string :=
  match s with
  | String c s' => if is_js_space c then trim_left s' else s
  | EmptyString => s
  end.

Definition rev_string (s : string) : string :=
  string_of_list_ascii (rev (list_ascii_of_string s)).

Definition trim (s : string) : string :=
  rev_string (trim_left (rev_string (trim_left s))).

(** Digits of a radix literal ([0x], [0o], [0b]). *)
Fixpoint radix_digits (radix : Z) (s : string) (acc : Z) : option Z :=
  match s with
  | EmptyString => Some acc
  | String c s' =>
      match Json.hex_of c with
      | Some d => if d <? radix then radix_digits radix s' (acc * radix + d) else None
      | None => None
      end
  end.

(** An unsigned decimal literal: [digits [. digits?] exp?] or
    [. digits exp?]. *)
Definition unsigned_decimal (neg : bool) (s : string) : option float :=
  let '(ip, ni, s2) := Json.digits s 0 0 in
  let '(m, nf, s3) :=
    match s2 with
    | String "." r => Json.digits r ip 0
    | _ => (ip, 0, s2)
    end in
  let has_dot := match s2 with String "." _ => true | _ => false end in
  if (ni =? 0) && ((nf =? 0) || negb has_dot) then None
  else
    let finish (esign : bool) (r : string) :=
      let '(e, ne, s4) := Json.digits r 0 0 in
      if (ne =? 0) || negb (String.eqb s4 EmptyString) then None
      else Some (Json.decimal_to_float neg m ((if esign then - e else e) - nf)) in
    match s3 with
    | EmptyString => Some (Json.decimal_to_float neg m (- nf))
    | String c r =>
        if Ascii.eqb c "e" || Ascii.eqb c "E" then
          match r with
          | String "+" r' => finish false r'
          | String "-" r' => finish true r'
          | _ => finish false r
          end
        else None
    end.

Definition StringToNumber (str : string) : float :=
  let s := trim str in
  let radix (r : Z) (ds : string) :=
    match ds with
    | EmptyString => nan
    | _ => match radix_digits r ds 0 with
           | Some z => JsNum.of_Z z
           | None => nan
           end
    end in
  let signed (neg : bool) (r : string) :=
    if String.eqb r "Infinity" then (if neg then neg_infinity else infinity)
    else match unsigned_decimal neg r with
         | Some f => f
         | None => nan
         end in
  match s with
  | EmptyString => zero
  | String "0" (String "x" ds) | String "0" (String "X" ds) => radix 16 ds
  | String "0" (String "o" ds) | String "0" (String "O" ds) => radix 8 ds
  | String "0" (String "b" ds) | String "0" (String "B" ds) => radix 2 ds
  | String "+" r => signed false r
  | String "-" r => signed true r
  | _ => signed false s
  end.

(** An array or an object is converted to text first: the [valueOf] it
    inherits returns the object itself. *)
Definition ToNumber (v : value) : completion float :=
  match v with
  | VUndefined => Normal nan
  | VNull => Normal zero
  | VBool true => Normal one
  | VBool false => Normal zero
  | VNum n => Normal n
  | VStr s => Normal (StringToNumber s)
  | VArr _ | VObj _ =>
      match ToString v with
      | Normal s => Normal (StringToNumber s)
      | Throw e => Throw e
      end
  end.

(** SameValueZero, the equality of [Set]: arrays and objects are equal only
    to themselves, and the arrays and objects of one parsed answer are all
    distinct. *)
Definition same_value_zero (a b : value) : bool :=
  match a, b with
  | VUndefined, VUndefined => true
  | VNull, VNull => true
  | VBool x, VBool y => Bool.eqb x y
  | VNum x, VNum y => (x =? y)%float || (is_nan x && is_nan y)
  | VStr x, VStr y => String.eqb x y
  | _, _ => false
  end.

End Conv.

(** ** The script's state

    [window.addEventListener('load', ...)] gives the script one scope whose
    variables live as long as the page.  The record holds these variables,
    the page elements the script writes, and the platform objects whose
    behaviour the script depends on: the timer table, the live audio
    context, and logs of the requests sent and the files offered for
    download. *)

(** A row of [sample_database.csv]; [None] is a column the row does not
    have ([undefined]). *)
Record sample : Type := mkSample {
  filename : string;
  category : option string;
  pack : option string
}.

(** An [AudioBuffer]: [buf_length] frames in each of its channels. *)
Record AudioBuffer : Type := mkAudioBuffer {
  buf_sampleRate : Z;
  buf_length : nat;
  buf_channels : list (list float)
}.

Definition numberOfChannels (b : AudioBuffer) : nat := length (buf_channels b).

(** An audio context: whether it is suspended, and the buffer sources
    started on it so far, each the cache key of its sample and its start
    time; [ctx_render] is the shape of an offline context (channels,
    frames, sample rate) and [None] for the live one. *)
Record AudioContext : Type := mkAudioContext {
  ctx_suspended : bool;
  ctx_started : list (string * float);
  ctx_render : option (nat * Z * Z)
}.

(** The closure of the [setInterval] callback: its own [currentBeat], and
    the delay the timer was created with. *)
Record interval : Type := mkInterval {
  currentBeat : Z;
  delay : float
}.

(** What the generator is sent: the parts the prompt template
    interpolates. *)
Record prompt : Type := mkPrompt {
  userPrompt : string;
  kicks : list string;
  snares : list string;
  hats : list string
}.

Inductive request : Type :=
| GetDatabase
| GetSample (path : string)
| PostGenerate (p : prompt).

(** [recipe-output]: untouched, emptied, the table of tracks (name, then
    beat and file of each step), or the answer that caused an error. *)
Inductive recipe : Type :=
| RecipeInitial
| RecipeEmpty
| RecipeTable (rows : list (value * list (value * value)))
| RecipeError (rawAIResponse : value).

Record state : Type := mkState {
  bpm : Z;
  isPlaying : bool;
  sequencerInterval : option nat;
  sampleDatabase : list sample;
  loadedSamples : gmap string AudioBuffer;
  currentSequence : value;
  statusText : string;
  playButtonText : string;
  bpmValueText : string;
  aiButtonDisabled : bool;
  downloadButtonDisabled : bool;
  recipeOutput : recipe;
  timers : gmap nat interval;
  nextTimerId : nat;
  audioContext : AudioContext;
  requests : list request;
  downloads : list (string * list Z);
  console : list string
}.

Definition set_bpm (x : Z) (st : state) : state :=
  let '(mkState a b c d e f g h i j k l m n o p q r) := st in
  mkState x b c d e f g h i j k l m n o p q r.
Definition set_isPlaying (x : bool) (st : state) : state :=
  let '(mkState a b c d e f g h i j k l m n o p q r) := st in
  mkState a x c d e f g h i j k l m n o p q r.
Definition set_sequencerInterval (x : option nat) (st : state) : state :=
  let '(mkState a b c d e f g h i j k l m n o p q r) := st in
  mkState a b x d e f g h i j k l m n o p q r.
Definition set_sampleDatabase (x : list sample) (st : state) : state :=
  let '(mkState a b c d e f g h i j k l m n o p q r) := st in
  mkState a b c x e f g h i j k l m n o p q r.
Definition set_loadedSamples (x : gmap string AudioBuffer) (st : state) : state :=
  let '(mkState a b c d e f g h i j k l m n o p q r) := st in
  mkState a b c d x f g h i j k l m n o p q r.
Definition set_currentSequence (x : value) (st : state) : state :=
  let '(mkState a b c d e f g h i j k l m n o p q r) := st in
  mkState a b c d e x g h i j k l m n o p q r.
Definition set_statusText (x : string) (st : state) : state :=
  let '(mkState a b c d e f g h i j k l m n o p q r) := st in
  mkState a b c d e f x h i j k l m n o p q r.
Definition set_playButtonText (x : string) (st : state) : state :=
  let '(mkState a b c d e f g h i j k l m n o p q r) := st in
  mkState a b c d e f g x i j k l m n o p q r.
Definition set_bpmValueText (x : string) (st : state) : state :=
  let '(mkState a b c d e f g h i j k l m n o p q r) := st in
  mkState a b c d e f g h x j k l m n o p q r.
Definition set_aiButtonDisabled (x : bool) (st : state) : state :=
  let '(mkState a b c d e f g h i j k l m n o p q r) := st in
  mkState a b c d e f g h i x k l m n o p q r.
Definition set_downloadButtonDisabled (x : bool) (st : state) : state :=
  let '(mkState a b c d e f g h i j k l m n o p q r) := st in
  mkState a b c d e f g h i j x l m n o p q r.
Definition set_recipeOutput (x : recipe) (st : state) : state :=
  let '(mkState a b c d e f g h i j k l m n o p q r) := st in
  mkState a b c d e f g h i j k x m n o p q r.
Definition set_timers (x : gmap nat interval) (st : state) : state :=
  let '(mkState a b c d e f g h i j k l m n o p q r) := st in
  mkState a b c d e f g h i j k l x n o p q r.
Definition set_nextTimerId (x : nat) (st : state) : state :=
  let '(mkState a b c d e f g h i j k l m n o p q r) := st in
  mkState a b c d e f g h i j k l m x o p q r.
Definition set_audioContext (x : AudioContext) (st : state) : state :=
  let '(mkState a b c d e f g h i j k l m n o p q r) := st in
  mkState a b c d e f g h i j k l m n x p q r.
Definition set_requests (x : list request) (st : state) : state :=
  let '(mkState a b c d e f g h i j k l m n o p q r) := st in
  mkState a b c d e f g h i j k l m n o x q r.
Definition set_downloads (x : list (string * list Z)) (st : state) : state :=
  let '(mkState a b c d e f g h i j k l m n o p q r) := st in
  mkState a b c d e f g h i j k l m n o p x r.
Definition set_console (x : list string) (st : state) : state :=
  let '(mkState a b c d e f g h i j k l m n o p q r) := st in
  mkState a b c d e f g h i j k l m n o p q x.

(** The state when the script starts: lines 10 to 15, a page nobody has
    touched, and an audio context that waits for a user gesture. *)
Definition initial : state :=
  {| bpm := 120;
     isPlaying := false;
     sequencerInterval := None;
     sampleDatabase := [];
     loadedSamples := ∅;
     currentSequence := VArr [];
     statusText := "";
     playButtonText := "Play";
     bpmValueText := "120";
     aiButtonDisabled := true;
     downloadButtonDisabled := true;
     recipeOutput := RecipeInitial;
     timers := ∅;
     nextTimerId := 1;
     audioContext := mkAudioContext true [] None;
     requests := [];
     downloads := [];
     console := [] |}.

(** ** Computations

    A statement of the script is a function from the state before it to
    its completion and the state after it.  What a statement wrote before
    it threw stays written.  [Unfinished] is not a JavaScript completion:
    it is what a loop of the model returns when its fuel runs out. *)

Inductive outcome (A : Type) : Type :=
| Done (c : completion A)
| Unfinished.
Arguments Done {A} c.
Arguments Unfinished {A}.

Definition M (S A : Type) : Type := S -> outcome A * S.

Definition ret {S A : Type} (a : A) : M S A :=
  fun s => (Done (Normal a), s).

Definition throw {S A : Type} (e : error) : M S A :=
  fun s => (Done (Throw e), s).

Definition lift {S A : Type} (c : completion A) : M S A :=
  fun s => (Done c, s).

Definition bind {S A B : Type} (m : M S A) (k : A -> M S B) : M S B :=
  fun s =>
    match m s with
    | (Done (Normal a), s') => k a s'
    | (Done (Throw e), s') => (Done (Throw e), s')
    | (Unfinished, s') => (Unfinished, s')
    end.

Definition gets {S A : Type} (f : S -> A) : M S A :=
  fun s => (Done (Normal (f s)), s).

Definition modify {S : Type} (f : S -> S) : M S unit :=
  fun s => (Done (Normal tt), f s).

(** [try { m } catch (error) { h error }] *)
Definition try_catch {S A : Type} (m : M S A) (h : error -> M S A) : M S A :=
  fun s =>
    match m s with
    | (Done (Throw e), s') => h e s'
    | r => r
    end.

(** [try { x = m; k x } catch (error) { ... }] where the handler of the
    first part is [h] and [k] handles what it throws itself. *)
Definition try_then {S A B : Type} (m : M S A) (h : error -> M S B)
  (k : A -> M S B) : M S B :=
  fun s =>
    match m s with
    | (Done (Normal a), s') => k a s'
    | (Done (Throw e), s') => h e s'
    | (Unfinished, s') => (Unfinished, s')
    end.

(** [try { m } finally { f }], for an [f] that completes normally. *)
Definition try_finally {S A : Type} (m : M S A) (f : S -> S) : M S A :=
  fun s => let '(r, s') := m s in (r, f s').

Declare Scope js_scope.
Delimit Scope js_scope with js.
Notation "x <- m ;; k" := (bind m (fun x => k))
  (at level 100, m at next level, right associativity) : js_scope.
Notation "m ;; k" := (bind m (fun _ => k))
  (at level 100, right associativity) : js_scope.
Local Open Scope js_scope.

Definition when {S : Type} (b : bool) (m : M S unit) : M S unit :=
  if b then m else ret tt.

(** [l.forEach(f)] *)
Fixpoint forEach {S A : Type} (l : list A) (f : A -> M S unit) : M S unit :=
  match l with
  | [] => ret tt
  | x :: rest => f x ;; forEach rest f
  end.

(** [l.forEach(f)] for an [f] that updates an object handed from call to
    call. *)
Fixpoint foldM {S A B : Type} (f : B -> A -> M S B) (l : list A) (acc : B)
  : M S B :=
  match l with
  | [] => ret acc
  | x :: rest => acc' <- f acc x ;; foldM f rest acc'
  end.

(** [l.map(f)] and [l.flatMap(f)] for callbacks that may throw. *)
Fixpoint mapM {S A B : Type} (f : A -> M S B) (l : list A) : M S (list B) :=
  match l with
  | [] => ret []
  | x :: rest => y <- f x ;; ys <- mapM f rest ;; ret (y :: ys)
  end.

Definition flatMapM {S A B : Type} (f : A -> M S (list B)) (l : list A)
  : M S (list B) :=
  yss <- mapM f l ;; ret (concat yss).

(** [l.find(p)]: the first element [p] accepts, else [undefined]. *)
Fixpoint findM {S : Type} (p : value -> M S bool) (l : list value) : M S value :=
  match l with
  | [] => ret VUndefined
  | x :: rest => b <- p x ;; if b then ret x else findM p rest
  end.

(** A loop left by its guard; one unit of fuel per iteration. *)
Fixpoint while {S : Type} (fuel : nat) (cond : S -> bool) (body : M S unit)
  : M S unit :=
  fun s =>
    if cond s then
      match fuel with
      | O => (Unfinished, s)
      | S fuel' => (body ;; while fuel' cond body) s
      end
    else (Done (Normal tt), s).

(** A method only arrays have ([forEach], [flatMap], [map], [find]),
    called on [v]. *)
Definition array_method {S : Type} (v : value) : M S (list value) :=
  match v with
  | VArr elems => ret elems
  | _ => throw TypeError
  end.

Definition js (A : Type) : Type := M state A.

Definition log_request (r : request) (st : state) : state :=
  set_requests (requests st ++ [r]) st.

Definition console_error (message : string) (st : state) : state :=
  set_console (console st ++ [message]) st.

(** ** 2. Load the sample database *)

Definition parse_row (row : string) : sample :=
  let columns := JsString.split "," row in
  {| filename := nth 0 columns "";
     category := nth_error columns 1;
     pack := nth_error columns 2 |}.

Definition nonempty (s : option string) : bool :=
  match s with
  | Some (String _ _) => true
  | _ => false
  end.

(** [response] is the text of [sample_database.csv], or [None] when the
    request fails. *)
Definition loadDatabase (response : option string) : js unit :=
  modify (log_request GetDatabase) ;;
  match response with
  | Some text =>
      let rows := tl (JsString.split "010" text) in
      let db :=
        filter (fun s => nonempty (Some (filename s)) && nonempty (category s))
               (map parse_row rows) in
      modify (set_sampleDatabase db) ;;
      modify (set_statusText
                ("Database loaded with " +:+ pretty (length db)
                 +:+ " samples. Ready to generate!")) ;;
      modify (set_aiButtonDisabled false)
  | None =>
      modify (set_statusText "Error: Could not load sample_database.csv.") ;;
      modify (console_error "Error loading database:")
  end.

(** ** 4. Sequencer engine *)

(** [context.resume()]: an offline context does not leave [suspended]
    before it renders. *)
Definition resume (context : AudioContext) : AudioContext :=
  match ctx_render context with
  | None => mkAudioContext false (ctx_started context) None
  | Some _ => context
  end.

(** [loadedSamples] is a plain object: a name it has no entry for is
    looked up in [Object.prototype], whose properties are these. *)
Definition Object_prototype : list string :=
  ["constructor"; "hasOwnProperty"; "isPrototypeOf"; "propertyIsEnumerable";
   "toLocaleString"; "toString"; "valueOf"; "__proto__";
   "__defineGetter__"; "__defineSetter__"; "__lookupGetter__";
   "__lookupSetter__"].

Definition inherited (key : string) : bool :=
  existsb (String.eqb key) Object_prototype.

(** [loadedSamples[key]]: a decoded sample, a function or object every
    object inherits, which is truthy and is no [AudioBuffer], or
    [undefined]. *)
Inductive slot : Type :=
| Own (buffer : AudioBuffer)
| Inherited
| Missing.

Definition loaded_get (loaded : gmap string AudioBuffer) (key : string) : slot :=
  match loaded !! key with
  | Some buffer => Own buffer
  | None => if inherited key then Inherited else Missing
  end.

(** A computation on an audio context, the object it mutates being the
    state. *)
Definition audio (A : Type) : Type := M AudioContext A.

(** [source.start(time)] on a source of the context playing the sample
    cached under [key]. *)
Definition start (key : string) (time : float) : audio unit :=
  if is_nan time || is_infinity time then throw TypeError
  else if (time <? 0)%float then throw RangeError
  else
    modify (fun context =>
              mkAudioContext (ctx_suspended context)
                             (ctx_started context ++ [(key, time)])
                             (ctx_render context)).

(** [playSample(filename, time, context)], [loaded] being [loadedSamples]
    when it is called.  The property key is the text of [filename];
    assigning what is not an [AudioBuffer] to [source.buffer] throws. *)
Definition playSample (loaded : gmap string AudioBuffer) (filename : value)
  (time : float) : audio unit :=
  modify (fun context => if ctx_suspended context then resume context else context) ;;
  key <- lift (Conv.ToString filename) ;;
  match loaded_get loaded key with
  | Missing => ret tt
  | Inherited => throw TypeError
  | Own _ => start key time
  end.

(** A computation on the live context, [audioContext]: what it did to
    the context stays done when it throws. *)
Definition live {A : Type} (m : audio A) : js A :=
  fun st =>
    let '(r, context) := m (audioContext st) in
    (r, set_audioContext context st).

(** A computation on a context of its own, which is handed back when the
    computation completes. *)
Definition on_context (context : AudioContext) (m : audio unit) : js AudioContext :=
  fun st =>
    match m context with
    | (Done (Normal _), context') => (Done (Normal context'), st)
    | (Done (Throw e), _) => (Done (Throw e), st)
    | (Unfinished, _) => (Unfinished, st)
    end.

Definition setInterval (callback : interval) : js nat :=
  id <- gets nextTimerId ;;
  modify (fun st => set_timers (<[id := callback]> (timers st)) st) ;;
  modify (set_nextTimerId (S id)) ;;
  ret id.

Definition clearInterval (id : option nat) : js unit :=
  match id with
  | Some i => modify (fun st => set_timers (delete i (timers st)) st)
  | None => ret tt
  end.

Definition totalBeats : Z := 16.

Definition togglePlayback : js unit :=
  cs <- gets currentSequence ;;
  len <- lift (Js.get cs "length") ;;
  if negb (Js.truthy len) then ret tt
  else
    modify (fun st =>
              if ctx_suspended (audioContext st)
              then set_audioContext (resume (audioContext st)) st
              else st) ;;
    playing <- gets isPlaying ;;
    if playing then
      id <- gets sequencerInterval ;;
      clearInterval id ;;
      modify (set_sequencerInterval None) ;;
      modify (set_isPlaying false) ;;
      modify (set_playButtonText "Play")
    else
      modify (set_isPlaying true) ;;
      modify (set_playButtonText "Stop") ;;
      b <- gets bpm ;;
      let timePerBeat := (60 / JsNum.of_Z b)%float in
      id <- setInterval {| currentBeat := 0; delay := (timePerBeat * 1000)%float |} ;;
      modify (set_sequencerInterval (Some id)).

(** What one track does on a tick at [beat]: lines 97 to 102. *)
Definition tick_track (beat : Z) (currentTime : float) (track : value) : js unit :=
  steps <- lift (Js.get track "steps") ;;
  arr <- array_method steps ;;
  step <- findM (fun s => b <- lift (Js.get s "beat") ;;
                          ret (Js.strict_eq_num b (JsNum.of_Z beat))) arr ;;
  if Js.truthy step then
    file <- lift (Js.get step "file") ;;
    if Js.truthy file then
      loaded <- gets loadedSamples ;;
      live (playSample loaded file currentTime)
    else ret tt
  else ret tt.

(** The callback of timer [id] runs once, [audioContext.currentTime] being
    [currentTime].  A cleared timer does not fire. *)
Definition tick (id : nat) (currentTime : float) : js unit :=
  ts <- gets timers ;;
  match ts !! id with
  | None => ret tt
  | Some t =>
      cs <- gets currentSequence ;;
      tracks <- array_method cs ;;
      forEach tracks (tick_track (currentBeat t) currentTime) ;;
      modify (fun st =>
                set_timers
                  (<[id := mkInterval ((currentBeat t + 1) mod totalBeats) (delay t)]>
                     (timers st)) st)
  end.

(** ** 5. AI integration *)

(** [l.sort(compare)], as insertion under a comparator that answers
    whether its first argument goes first. *)
Fixpoint insert_by {A : Type} (first : A -> A -> bool) (x : A) (l : list A) : list A :=
  match l with
  | [] => [x]
  | y :: rest => if first x y then x :: y :: rest else y :: insert_by first x rest
  end.

Definition sort_by {A : Type} (first : A -> A -> bool) (l : list A) : list A :=
  fold_right (insert_by first) [] l.

Definition in_category (term : string) (s : sample) : bool :=
  match category s with
  | Some c =>
      negb (String.eqb c "")
      && JsString.includes (JsString.toLowerCase c) (JsString.toLowerCase term)
  | None => false
  end.

(** [random] stands for the comparator [() => 0.5 - Math.random()] of this
    call. *)
Definition findSamples (random : sample -> sample -> bool)
  (term : string) (count : nat) : js (list string) :=
  db <- gets sampleDatabase ;;
  ret (map filename (firstn count (sort_by random (filter (in_category term) db)))).

Definition is_open (c : ascii) : bool := Ascii.eqb c "{" || Ascii.eqb c "[".
Definition is_close (c : ascii) : bool := Ascii.eqb c "}" || Ascii.eqb c "]".

(** [/[{\[]{1}[\s\S]*[}\]]{1}/] *)
Definition jsonRegex : Regex.regex :=
  Regex.Seq (Regex.Class is_open)
            (Regex.Seq (Regex.StarClass (fun _ => true)) (Regex.Class is_close)).

Definition NoJsonFound : error :=
  Error "No valid JSON object or array found in the AI response.".

Definition extractJson (text : value) : completion value :=
  match text with
  | VStr s =>
      match Regex.String_match jsonRegex s with
      | Some m => Json.parse m
      | None => Throw NoJsonFound
      end
  | _ => Throw TypeError
  end.

(** Lines 157 to 159: the sequence in the parsed answer. *)
Definition sequenceData (parsedData : value) : completion value :=
  match (if Js.isArray parsedData then Normal parsedData
         else Js.get parsedData "tracks") with
  | Normal data =>
      if negb (Js.truthy data)
      then Throw (Error "JSON response did not contain a 'tracks' array.")
      else Normal data
  | Throw e => Throw e
  end.

(** ** 3. Dynamic sample loading *)

(** [[...new Set(l)]] *)
Fixpoint unique (l : list value) : list value :=
  match l with
  | [] => []
  | x :: rest =>
      x :: filter (fun y => negb (Conv.same_value_zero x y)) (unique rest)
  end.

(** The files of every step of every track: line 49 before [new Set]. *)
Definition step_files (sequence : value) : js (list value) :=
  tracks <- array_method sequence ;;
  flatMapM (fun track =>
              steps <- lift (Js.get track "steps") ;;
              arr <- array_method steps ;;
              mapM (fun step => lift (Js.get step "file")) arr)
           tracks.

(** [fetchSample path] is the decoded sample the library serves at
    [path], if the request and the decoding succeed.  Every name is
    decided against the cache as it is when the function is called: a
    name with a truthy entry, its own or inherited, is not requested.
    The requests made before a name whose conversion throws are on their
    way, and what they bring is cached. *)
Definition loadSamplesForSequence (fetchSample : string -> option AudioBuffer)
  (sequence : value) : js unit :=
  modify (set_statusText "Loading required samples...") ;;
  files <- step_files sequence ;;
  let uniqueFilenames := unique files in
  loaded <- gets loadedSamples ;;
  forEach uniqueFilenames (fun filename =>
    key <- lift (Conv.ToString filename) ;;
    match loaded_get loaded key with
    | Own _ | Inherited => ret tt
    | Missing =>
        if negb (Js.truthy filename) then ret tt
        else
          let path := "Organized_Library_Final/" +:+ key in
          modify (log_request (GetSample path)) ;;
          match fetchSample path with
          | Some decodedData =>
              modify (fun st =>
                        set_loadedSamples (<[key := decodedData]> (loadedSamples st)) st)
          | None => modify (console_error ("Failed to load sample: " +:+ key))
          end
    end) ;;
  modify (set_statusText "Samples loaded. Ready to play!").

(** ** 7. UI rendering *)

(** The table is attached when it is complete.  The page holds the name,
    the beat and the file as text: converting them can throw. *)
Definition renderRecipe (sequence : value) : js unit :=
  modify (set_recipeOutput RecipeEmpty) ;;
  tracks <- array_method sequence ;;
  rows <- mapM (fun track =>
                  name <- lift (Js.get track "name") ;;
                  lift (Conv.ToString name) ;;
                  steps <- lift (Js.get track "steps") ;;
                  arr <- array_method steps ;;
                  cells <- mapM (fun step =>
                                   file <- lift (Js.get step "file") ;;
                                   lift (Conv.ToString file) ;;
                                   beat <- lift (Js.get step "beat") ;;
                                   lift (Conv.ToString beat) ;;
                                   ret (beat, file)) arr ;;
                  ret (name, cells))
               tracks ;;
  modify (set_recipeOutput (RecipeTable rows)).

(** ** 5. AI integration, continued *)

(** What the generator service does with the request. *)
Inductive api_response : Type :=
| NetworkFailure
| HttpError (statusText : string)
| BodyNotJson
| Body (data : value).

(** What the world contributes to one run of [getAIResponse]: the
    comparators of the three sorts, the text in the prompt box, the
    service's answer, and the sample library. *)
Record gen_env : Type := mkGenEnv {
  random : nat -> sample -> sample -> bool;
  promptValue : string;
  generate : api_response;
  fetchSample : string -> option AudioBuffer
}.

(** Lines 146 to 154: the request, and the [response] field of its
    answer. *)
Definition fetch_generate (p : prompt) (answer : api_response) : js value :=
  modify (log_request (PostGenerate p)) ;;
  match answer with
  | NetworkFailure => throw TypeError
  | HttpError statusText => throw (Error ("API request failed: " +:+ statusText))
  | BodyNotJson => throw SyntaxError
  | Body data => lift (Js.get data "response")
  end.

(** Lines 166 to 169, [rawAIResponse] being what the variable holds when
    the error is caught.  The last line writes the answer as text into
    the page. *)
Definition generation_failed (rawAIResponse : value) (e : error) : js unit :=
  modify (console_error "Error with AI generation:") ;;
  modify (set_statusText "Error: Could not get a valid response from the AI.") ;;
  lift (Conv.ToString rawAIResponse) ;;
  modify (set_recipeOutput (RecipeError rawAIResponse)).

(** The [try] block has two parts: until [rawAIResponse] is assigned in
    line 154 the handler sees its initial value, afterwards the answer.
    What the handler throws is not caught. *)
Definition getAIResponse (env : gen_env) : js unit :=
  modify (set_statusText "🤖 Finding samples and building prompt...") ;;
  modify (set_aiButtonDisabled true) ;;
  modify (set_downloadButtonDisabled true) ;;
  ks <- findSamples (random env 0) "Drums" 5 ;;
  sn <- findSamples (random env 1) "Drums" 5 ;;
  hs <- findSamples (random env 2) "Drums" 5 ;;
  if (length ks =? 0)%nat || (length sn =? 0)%nat || (length hs =? 0)%nat then
    modify (set_statusText "Error: Not enough drum samples found in the database.") ;;
    modify (set_aiButtonDisabled false)
  else
    let userPrompt :=
      if String.eqb (promptValue env) "" then "a simple 4-bar house beat"
      else promptValue env in
    let finalPrompt := mkPrompt userPrompt ks sn hs in
    modify (set_statusText "🤖 Asking the AI to generate a beat...") ;;
    try_finally
      (try_then
         (fetch_generate finalPrompt (generate env))
         (generation_failed (VStr "No response received."))
         (fun rawAIResponse =>
            try_catch
              (parsedData <- lift (extractJson rawAIResponse) ;;
               data <- lift (sequenceData parsedData) ;;
               modify (set_currentSequence data) ;;
               cs <- gets currentSequence ;;
               loadSamplesForSequence (fetchSample env) cs ;;
               cs' <- gets currentSequence ;;
               renderRecipe cs' ;;
               modify (set_downloadButtonDisabled false))
              (generation_failed rawAIResponse)))
      (set_aiButtonDisabled false).

(** ** 6. Offline rendering and download *)

(** The [DataView] over the output buffer with the three variables the
    writing code shares: [view], [pos] and [offset]. *)
Record writer : Type := mkWriter {
  view : list Z;
  pos : nat;
  offset : nat
}.

(** The [n] bytes of [data], least significant first; [data] is taken
    modulo [2^(8n)], as the integer conversions of [DataView] do. *)
Definition le_bytes (n : nat) (data : Z) : list Z :=
  map (fun i => (data / 2 ^ (8 * Z.of_nat i)) mod 256) (seq 0 n).

Fixpoint write_at (p : nat) (bytes : list Z) (v : list Z) : list Z :=
  match bytes with
  | [] => v
  | b :: rest => write_at (S p) rest (<[p := b]> v)
  end.

(** [view.setUint16], [view.setUint32] and [view.setInt16] with
    [littleEndian = true]: [n] bytes at [p], or a RangeError. *)
Definition DataView_set (n : nat) (p : nat) (data : Z) : M writer unit :=
  fun w =>
    if (p + n <=? length (view w))%nat
    then (Done (Normal tt),
          mkWriter (write_at p (le_bytes n data) (view w)) (pos w) (offset w))
    else (Done (Throw RangeError), w).

Definition advance (n : nat) : M writer unit :=
  modify (fun w => mkWriter (view w) (pos w + n) (offset w)).

Definition setUint16 (data : Z) : M writer unit :=
  p <- gets pos ;; DataView_set 2 p data ;; advance 2.

Definition setUint32 (data : Z) : M writer unit :=
  p <- gets pos ;; DataView_set 4 p data ;; advance 4.

(** Lines 195 and 196.  [0.5 + sample < 0] parses as [(0.5 + sample) < 0]. *)
Definition quantize (x : float) : Z :=
  let sample := JsNum.Math_max (-1) (JsNum.Math_min 1 x) in
  JsNum.ToInt32
    (if (0.5 + sample <? 0)%float then (sample * 32768)%float
     else (sample * 32767)%float).

(** [channels[i][offset]]; outside the channel it is [undefined], which
    [Math.min] turns into NaN. *)
Definition channel_sample (channels : list (list float)) (i off : nat) : float :=
  nth off (nth i channels []) nan.

Definition write_header (numOfChan len : nat) (sampleRate : Z) : M writer unit :=
  setUint32 0x46464952 ;;
  setUint32 (Z.of_nat len - 8) ;;
  setUint32 0x45564157 ;;
  setUint32 0x20746d66 ;;
  setUint32 16 ;;
  setUint16 1 ;;
  setUint16 (Z.of_nat numOfChan) ;;
  setUint32 sampleRate ;;
  setUint32 (sampleRate * 2 * Z.of_nat numOfChan) ;;
  setUint16 (Z.of_nat numOfChan * 2) ;;
  setUint16 16 ;;
  setUint32 0x61746164 ;;
  p <- gets pos ;;
  setUint32 (Z.of_nat len - Z.of_nat p - 4).

(** The body of the [while] loop: one frame. *)
Definition write_frame (numOfChan : nat) (channels : list (list float))
  : M writer unit :=
  forEach (seq 0 numOfChan) (fun i =>
    off <- gets offset ;;
    let sample := quantize (channel_sample channels i off) in
    p <- gets pos ;;
    DataView_set 2 p sample ;;
    advance 2) ;;
  modify (fun w => mkWriter (view w) (pos w) (S (offset w))).

Definition wav_program (fuel : nat) (buffer : AudioBuffer) : M writer unit :=
  let numOfChan := numberOfChannels buffer in
  let len := (buf_length buffer * numOfChan * 2 + 44)%nat in
  write_header numOfChan len (buf_sampleRate buffer) ;;
  while fuel (fun w => (pos w <? len)%nat)
        (write_frame numOfChan (buf_channels buffer)).

(** The bytes of the Blob.  The loop is given one unit of fuel per
    frame. *)
Definition bufferToWav (buffer : AudioBuffer) : outcome (list Z) :=
  let numOfChan := numberOfChannels buffer in
  let len := (buf_length buffer * numOfChan * 2 + 44)%nat in
  match wav_program (buf_length buffer) buffer (mkWriter (repeat 0 len) 0 0) with
  | (Done (Normal _), w) => Done (Normal (view w))
  | (Done (Throw e), _) => Done (Throw e)
  | (Unfinished, _) => Unfinished
  end.

(** [new OfflineAudioContext(numberOfChannels, length, sampleRate)]:
    [length] is converted to an unsigned 32-bit integer, and a context of
    no frames is refused. *)
Definition OfflineAudioContext (channels : nat) (length : float) (sampleRate : Z)
  : js AudioContext :=
  let frames := JsNum.ToUint32 length in
  if frames =? 0 then throw NotSupportedError
  else ret (mkAudioContext true [] (Some (channels, frames, sampleRate))).

(** [offlineContext.startRendering()]: [mix] is the platform's mixer, the
    sample it computes for a channel and a frame from the sources started
    on the context and the decoded samples. *)
Definition mixer : Type :=
  list (string * float) -> gmap string AudioBuffer -> nat -> nat -> float.

Definition startRendering (mix : mixer) (context : AudioContext)
  : js AudioBuffer :=
  match ctx_render context with
  | Some (channels, frames, sampleRate) =>
      loaded <- gets loadedSamples ;;
      ret {| buf_sampleRate := sampleRate;
             buf_length := Z.to_nat frames;
             buf_channels :=
               map (fun c => map (mix (ctx_started context) loaded c)
                                 (seq 0 (Z.to_nat frames)))
                   (seq 0 channels) |}
  | None => throw TypeError
  end.

(** Lines 213 to 217: every step with a file is scheduled. *)
Definition schedule_step (loaded : gmap string AudioBuffer) (timePerBeat : float)
  (step : value) : audio unit :=
  file <- lift (Js.get step "file") ;;
  if Js.truthy file then
    beat <- lift (Js.get step "beat") ;;
    n <- lift (Conv.ToNumber beat) ;;
    playSample loaded file (n * timePerBeat)%float
  else ret tt.

Definition schedule_track (loaded : gmap string AudioBuffer) (timePerBeat : float)
  (track : value) : audio unit :=
  steps <- lift (Js.get track "steps") ;;
  arr <- array_method steps ;;
  forEach arr (schedule_step loaded timePerBeat).

Definition schedule_all (loaded : gmap string AudioBuffer) (timePerBeat : float)
  (sequence : value) : audio unit :=
  tracks <- array_method sequence ;;
  forEach tracks (schedule_track loaded timePerBeat).

Definition lift_outcome {A : Type} (o : outcome A) : js A :=
  fun st => (o, st).

(** Lines 209 to 218: the offline context, its sources, the rendering. *)
Definition render_offline (mix : mixer) : js AudioBuffer :=
  b <- gets bpm ;;
  let timePerBeat := (60 / JsNum.of_Z b)%float in
  let duration := (JsNum.of_Z totalBeats * timePerBeat)%float in
  offlineContext <- OfflineAudioContext 2 (44100 * duration)%float 44100 ;;
  cs <- gets currentSequence ;;
  loaded <- gets loadedSamples ;;
  offlineContext' <- on_context offlineContext (schedule_all loaded timePerBeat cs) ;;
  startRendering mix offlineContext'.

Definition renderBeatToWav (mix : mixer) : js unit :=
  cs <- gets currentSequence ;;
  len <- lift (Js.get cs "length") ;;
  if negb (Js.truthy len) then ret tt
  else
    modify (set_statusText "Rendering beat to WAV file...") ;;
    modify (set_downloadButtonDisabled true) ;;
    renderedBuffer <- render_offline mix ;;
    wavBlob <- lift_outcome (bufferToWav renderedBuffer) ;;
    b <- gets bpm ;;
    modify (fun st =>
              set_downloads
                (downloads st ++ [("ai-beat-" +:+ pretty b +:+ "bpm.wav", wavBlob)]) st) ;;
    modify (set_statusText "Download complete!") ;;
    modify (set_downloadButtonDisabled false).

(** ** 7. Event listeners *)

(** The [input] listener of the tempo slider; [value] is what [parseInt]
    reads from it. *)
Definition bpmSlider_input (value : Z) : js unit :=
  modify (set_bpm value) ;;
  modify (set_bpmValueText (pretty value)) ;;
  playing <- gets isPlaying ;;
  when playing (togglePlayback ;; togglePlayback).

(** What can happen to the page once it is loaded.  A disabled button
    does not click.  A click is run to the end of its listener: what
    another event would do while [getAIResponse] or [renderBeatToWav]
    waits for the network or for the rendering is not part of [run]. *)
Inductive event : Type :=
| PlayClick
| AiClick (env : gen_env)
| DownloadClick (mix : mixer)
| BpmInput (value : Z)
| TimerFire (id : nat) (currentTime : float).

Definition handle (e : event) : js unit :=
  match e with
  | PlayClick => togglePlayback
  | AiClick env =>
      disabled <- gets aiButtonDisabled ;;
      if disabled then ret tt else getAIResponse env
  | DownloadClick mix =>
      disabled <- gets downloadButtonDisabled ;;
      if disabled then ret tt else renderBeatToWav mix
  | BpmInput value => bpmSlider_input value
  | TimerFire id currentTime => tick id currentTime
  end.

(** An exception ends the listener; the page goes on with what the
    listener wrote. *)
Definition step (st : state) (e : event) : state := snd (handle e st).

Definition run (database : option string) (events : list event) : state :=
  fold_left step events (snd (loadDatabase database initial)).

Definition reachable (st : state) : Prop :=
  exists database events, st = run database events.

(** * Statements

    The data, the predicates and the functions the theorems below are
    stated with. *)

(** ** Example data *)

(** JSON text written with apostrophes for the double quotes. *)
Fixpoint json_text (s : string) : string :=
  match s with
  | EmptyString => EmptyString
  | String c s' =>
      String (if Ascii.eqb c "'" then Json.dquote else c) (json_text s')
  end.

Definition example_csv : string :=
  "filename,category,pack
a.wav,Drums,Pack1
b.wav,Drums,Pack1
".

Definition example_buffer : AudioBuffer :=
  {| buf_sampleRate := 44100;
     buf_length := 2;
     buf_channels := [[0.5; -0.25]%float; [1; -1]%float] |}.

Definition example_library (path : string) : option AudioBuffer :=
  if String.eqb path "Organized_Library_Final/a.wav" then Some example_buffer
  else if String.eqb path "Organized_Library_Final/b.wav" then Some example_buffer
  else None.

(** A generator that answers [text]. *)
Definition answering (text : string) : gen_env :=
  {| random := fun _ _ _ => true;
     promptValue := "";
     generate := Body (VObj [("response", VStr text)]);
     fetchSample := example_library |}.

Definition silence : mixer := fun _ _ _ _ => zero.

Definition empty_then_play : list event :=
  [AiClick (answering (json_text "{'tracks': [{'name': 'Kick', 'steps': [{'beat': 0, 'file': 'a.wav'}]}]}"));
   PlayClick;
   AiClick (answering (json_text "{'tracks': []}"))].

Definition no_sequence (v : value) : bool :=
  match v with
  | VArr _ => false
  | VObj props =>
      match Js.lookup_prop "tracks" props with
      | VNull | VUndefined => true
      | _ => false
      end
  | _ => true
  end.

Definition quantize_spec (x : float) : Z :=
  let sample := JsNum.Math_max (-1) (JsNum.Math_min 1 x) in
  JsNum.ToInt32
    (if (sample <? 0)%float then (sample * 32768)%float
     else (sample * 32767)%float).

Definition not_enough_drums (st : state) : state :=
  set_aiButtonDisabled false
    (set_statusText "Error: Not enough drum samples found in the database."
       (set_downloadButtonDisabled true
          (set_aiButtonDisabled true
             (set_statusText "🤖 Finding samples and building prompt..." st)))).

Definition ascii_codes (s : string) : list Z :=
  map (fun c => Z.of_nat (nat_of_ascii c)) (list_ascii_of_string s).

Definition wav_header (numOfChan len : nat) (sampleRate : Z) : list Z :=
  le_bytes 4 0x46464952 ++ le_bytes 4 (Z.of_nat len - 8)
  ++ le_bytes 4 0x45564157 ++ le_bytes 4 0x20746d66 ++ le_bytes 4 16
  ++ le_bytes 2 1 ++ le_bytes 2 (Z.of_nat numOfChan)
  ++ le_bytes 4 sampleRate ++ le_bytes 4 (sampleRate * 2 * Z.of_nat numOfChan)
  ++ le_bytes 2 (Z.of_nat numOfChan * 2) ++ le_bytes 2 16
  ++ le_bytes 4 0x61746164 ++ le_bytes 4 (Z.of_nat len - 44).

Definition frame_bytes (channels : list (list float)) (numOfChan off : nat) : list Z :=
  flat_map (fun i => le_bytes 2 (quantize (channel_sample channels i off)))
           (seq 0 numOfChan).

Definition wav_data (buffer : AudioBuffer) : list Z :=
  flat_map (frame_bytes (buf_channels buffer) (numberOfChannels buffer))
           (seq 0 (buf_length buffer)).

Definition read_le (n p : nat) (bytes : list Z) : Z :=
  fold_right (fun b acc => b + 256 * acc) 0 (firstn n (skipn p bytes)).

Definition writing (done : list Z) (rest off : nat) : writer :=
  mkWriter (done ++ repeat 0 rest) (length done) off.

(** Whether some character of [s] satisfies [p]. *)
Fixpoint has (p : ascii -> bool) (s : string) : bool :=
  match s with
  | EmptyString => false
  | String c s' => p c || has p s'
  end.

(** What is left of [s] after its last closing bracket. *)
Fixpoint after_last_close (s : string) : option string :=
  match s with
  | EmptyString => None
  | String c s' =>
      match after_last_close s' with
      | Some rest => Some rest
      | None => if is_close c then Some s' else None
      end
  end.

(** The extraction the specification describes: reading left to right,
    the first substring that starts with an opening bracket and is a
    complete JSON text. *)
Definition is_json (s : string) : bool :=
  match Json.parse s with
  | Normal _ => true
  | Throw _ => false
  end.

Definition json_prefix (s : string) : option string :=
  List.find is_json (map (fun n => JsString.take n s) (seq 1 (String.length s))).

Fixpoint first_json_substring (s : string) : option string :=
  match s with
  | EmptyString => None
  | String c s' =>
      match (if is_open c then json_prefix s else None) with
      | Some m => Some m
      | None => first_json_substring s'
      end
  end.

Definition extractJson_spec (text : string) : completion value :=
  match first_json_substring text with
  | Some m => Json.parse m
  | None => Throw NoJsonFound
  end.

Definition prose_with_brackets : string :=
  json_text "{'tracks': []} (tempo: 120 [bpm])".

Definition duplicate_beat : string :=
  json_text "{'tracks': [{'name': 'Kick', 'steps': [{'beat': 3, 'file': 'a.wav'}, {'beat': 3, 'file': 'b.wav'}]}]}".

Definition kick_pattern : string :=
  json_text "{'tracks': [{'name': 'Kick', 'steps': [{'beat': 0, 'file': 'a.wav'}, {'beat': 4, 'file': 'a.wav'}]}]}".

Definition track_without_steps : string :=
  json_text "{'tracks': [{'name': 'Kick'}]}".

(** The page after the generator answered with two steps on beat 3. *)
Definition duplicate_loaded : state :=
  run (Some example_csv) [AiClick (answering duplicate_beat)].

(** Playback of it from the start through the tick of beat 3. *)
Definition duplicate_played : state :=
  fold_left step
    [PlayClick; TimerFire 1 0; TimerFire 1 0.5; TimerFire 1 1; TimerFire 1 1.5]%float
    duplicate_loaded.

(** The page playing after the generator answered with a track that has
    no [steps]: the attempt failed and its Sequence is the current one. *)
Definition stalled : state :=
  run (Some example_csv)
      [AiClick (answering kick_pattern); AiClick (answering track_without_steps);
       PlayClick].

Definition constructor_pattern : string :=
  json_text "{'tracks': [{'name': 'Kick', 'steps': [{'beat': 0, 'file': 'constructor'}]}]}".

(** The page playing a Sequence whose step names the file
    [constructor]. *)
Definition inherited_name : state :=
  run (Some example_csv) [AiClick (answering constructor_pattern); PlayClick].

(** The sources the offline renderer starts for the current sequence at
    the current tempo. *)
Definition offline_sources (st : state) : outcome (list (string * float)) :=
  match schedule_all (loadedSamples st) (60 / JsNum.of_Z (bpm st))%float
          (currentSequence st)
          (mkAudioContext true [] (Some (2%nat, 352800, 44100))) with
  | (Done (Normal _), context) => Done (Normal (ctx_started context))
  | (Done (Throw e), _) => Done (Throw e)
  | (Unfinished, _) => Unfinished
  end.

Definition kick_loaded : state :=
  run (Some example_csv) [AiClick (answering kick_pattern)].

(** [currentSequence.length] is truthy: the guard of [togglePlayback] and
    [renderBeatToWav] lets the call through. *)
Definition has_length (st : state) : bool :=
  match Js.get (currentSequence st) "length" with
  | Normal len => Js.truthy len
  | Throw _ => false
  end.

Definition is_object (v : value) : bool :=
  match v with VObj _ => true | _ => false end.

(** Every track is an object whose [steps] is an array of objects. *)
Definition shaped_track (track : value) : bool :=
  match track with
  | VObj props =>
      match Js.lookup_prop "steps" props with
      | VArr steps => forallb is_object steps
      | _ => false
      end
  | _ => false
  end.

Definition shaped (sequence : value) : bool :=
  match sequence with
  | VArr tracks => forallb shaped_track tracks
  | _ => false
  end.

(** A value the page can write as text. *)
Definition printable (v : value) : bool :=
  match Conv.ToString v with
  | Normal _ => true
  | Throw _ => false
  end.

(** A file name that can be played: a falsy one, which is never looked
    up, or one whose text is not the name of a property every object
    inherits. *)
Definition ordinary_file (file : value) : bool :=
  negb (Js.truthy file)
  || match Conv.ToString file with
     | Normal key => negb (inherited key)
     | Throw _ => false
     end.

Definition ordinary_step (step : value) : bool :=
  match step with
  | VObj props => ordinary_file (Js.lookup_prop "file" props)
  | _ => true
  end.

Definition steps_of (track : value) : list value :=
  match track with
  | VObj props =>
      match Js.lookup_prop "steps" props with
      | VArr steps => steps
      | _ => []
      end
  | _ => []
  end.

(** A track all of whose steps have ordinary file names. *)
Definition ordinary_track (track : value) : bool :=
  forallb ordinary_step (steps_of track).

Definition ordinary (sequence : value) : bool :=
  match sequence with
  | VArr tracks => forallb ordinary_track tracks
  | _ => false
  end.

(** A track the recipe can list: its name, and the file and the beat of
    each of its steps, can be written as text. *)
Definition printable_step (step : value) : bool :=
  match step with
  | VObj props =>
      printable (Js.lookup_prop "file" props)
      && printable (Js.lookup_prop "beat" props)
  | _ => true
  end.

Definition printable_track (track : value) : bool :=
  match track with
  | VObj props =>
      printable (Js.lookup_prop "name" props)
      && forallb printable_step (steps_of track)
  | _ => true
  end.

(** A time [audioContext.currentTime] can have. *)
Definition clock_time (t : float) : bool :=
  negb (is_nan t || is_infinity t) && negb (t <? 0)%float.

(** *** The data model's Sequence *)

Definition grid : list Z := map Z.of_nat (seq 0 16).

(** A beat of the grid: one of the Numbers 0 to 15. *)
Definition grid_beat (v : value) : bool :=
  match v with
  | VNum n => existsb (fun k => Leibniz.eqb n (JsNum.of_Z k)) grid
  | _ => false
  end.

Definition valid_step (step : value) : bool :=
  match step with
  | VObj props =>
      grid_beat (Js.lookup_prop "beat" props)
      && match Js.lookup_prop "file" props with
         | VStr _ | VUndefined | VNull => true
         | _ => false
         end
  | _ => false
  end.

Definition valid_track (track : value) : bool :=
  match track with
  | VObj props =>
      match Js.lookup_prop "steps" props with
      | VArr steps => forallb valid_step steps
      | _ => false
      end
  | _ => false
  end.

Definition valid_sequence (sequence : value) : bool :=
  match sequence with
  | VArr (track :: tracks) => forallb valid_track (track :: tracks)
  | _ => false
  end.

(** [round(totalBeats * 60/bpm * 44100)], halves up. *)
Definition round_frames (b : Z) : Z := (2 * 42336000 + b) / (2 * b).

(** The frames line 212 asks for, after the conversion to an unsigned
    32-bit integer. *)
Definition offline_frames (b : Z) : Z :=
  JsNum.ToUint32 (44100 * (JsNum.of_Z totalBeats * (60 / JsNum.of_Z b)))%float.

Definition tempo_range : list Z := map Z.of_nat (seq 1 734).

Definition rendered (mix : mixer) (st : state) (sources : list (string * float))
  : AudioBuffer :=
  {| buf_sampleRate := 44100;
     buf_length := Z.to_nat (offline_frames (bpm st));
     buf_channels :=
       map (fun c => map (mix sources (loadedSamples st) c)
                         (seq 0 (Z.to_nat (offline_frames (bpm st)))))
           (seq 0 2) |}.

Definition stable {A : Type} (P : state -> Prop) (m : js A) : Prop :=
  forall st, P st -> P (snd (m st)).

(** *** Playback state *)

Definition playback (st : state) : bool * option nat * gmap nat interval * nat :=
  (isPlaying st, sequencerInterval st, timers st, nextTimerId st).

(** The playing flag, the timer the script remembers and the timers that
    exist agree: playing means exactly one timer, the remembered one,
    with its beat counter on the grid; stopped means no timer. *)
Definition scheduler_inv (st : state) : Prop :=
  match sequencerInterval st with
  | Some id =>
      isPlaying st = true /\ (id < nextTimerId st)%nat
      /\ exists t, timers st = {[id := t]} /\ 0 <= currentBeat t < 16
  | None => isPlaying st = false /\ timers st = ∅
  end.

(** [finishes m]: [m] completes, normally or by throwing; no loop of the
    model is left unfinished. *)
Definition finishes {S A : Type} (m : M S A) : Prop :=
  forall st, exists c, fst (m st) = Done c.

(** The sequence value lines 146 to 159 extract from the generator's
    answer, or the error they end with. *)
Definition extraction (answer : api_response) : completion value :=
  match answer with
  | NetworkFailure => Throw TypeError
  | HttpError statusText => Throw (Error ("API request failed: " +:+ statusText))
  | BodyNotJson => Throw SyntaxError
  | Body data =>
      match Js.get data "response" with
      | Normal rawAIResponse =>
          match extractJson rawAIResponse with
          | Normal parsedData => sequenceData parsedData
          | Throw e => Throw e
          end
      | Throw e => Throw e
      end
  end.

(** What the last line of the [catch] block, which writes the answer into
    the page, ends with when the block runs on the service's answer. *)
Definition written (answer : api_response) : completion unit :=
  match answer with
  | Body data =>
      match Js.get data "response" with
      | Normal rawAIResponse =>
          match Conv.ToString rawAIResponse with
          | Normal _ => Normal tt
          | Throw e => Throw e
          end
      | Throw _ => Normal tt
      end
  | _ => Normal tt
  end.

(** Whether the catalog has an entry in the category the three lists are
    drawn from. *)
Definition has_drums (st : state) : bool :=
  match filter (in_category "Drums") (sampleDatabase st) with
  | [] => false
  | _ :: _ => true
  end.

Definition cached (key : string) (buffer : AudioBuffer) (st : state) : Prop :=
  loadedSamples st !! key = Some buffer.

(** *** What each listener leaves alone *)

(** What a generation can change: the Sequence, the cache, the status
    line, the two buttons, the recipe, and the logs.  The rest: *)
Definition beside_generation (st : state) :=
  (bpm st, isPlaying st, sequencerInterval st, timers st, nextTimerId st,
   audioContext st, sampleDatabase st, playButtonText st, bpmValueText st,
   downloads st).


(** What a rendering can change: the status line, the download button
    and the downloads.  The rest: *)
Definition beside_render (st : state) :=
  (bpm st, isPlaying st, sequencerInterval st, timers st, nextTimerId st,
   audioContext st, sampleDatabase st, loadedSamples st, currentSequence st,
   playButtonText st, bpmValueText st, aiButtonDisabled st, recipeOutput st,
   requests st, console st).

(** Playback of the duplicate-beat answer up to, not including, the tick
    of beat 3. *)
Definition beat_three : state :=
  fold_left step [PlayClick; TimerFire 1 0; TimerFire 1 0.5; TimerFire 1 1]%float
    duplicate_loaded.

(** *** Which sources a tick and a rendering start *)

Definition on_beat (beat : Z) (step : value) : bool :=
  match step with
  | VObj props => Js.strict_eq_num (Js.lookup_prop "beat" props) (JsNum.of_Z beat)
  | _ => false
  end.

(** The source a step gives when it is played at [time]: none when its
    file is falsy or not in the cache. *)
Definition source_of (loaded : gmap string AudioBuffer) (time : float)
  (step : value) : list (string * float) :=
  match step with
  | VObj props =>
      let file := Js.lookup_prop "file" props in
      if Js.truthy file
      then match Conv.ToString file with
           | Normal key =>
               match loaded !! key with
               | Some _ => [(key, time)]
               | None => []
               end
           | Throw _ => []
           end
      else []
  | _ => []
  end.

(** Live: the first step of the track on [beat], if there is one. *)
Definition fired (loaded : gmap string AudioBuffer) (beat : Z) (time : float)
  (track : value) : list (string * float) :=
  match List.find (on_beat beat) (steps_of track) with
  | Some step => source_of loaded time step
  | None => []
  end.

(** Offline: the source of a step at its beat's time. *)
Definition step_source (loaded : gmap string AudioBuffer) (timePerBeat : float)
  (step : value) : list (string * float) :=
  match step with
  | VObj props =>
      match Conv.ToNumber (Js.lookup_prop "beat" props) with
      | Normal n => source_of loaded (n * timePerBeat)%float step
      | Throw _ => []
      end
  | _ => []
  end.

(** Offline: every step of the track. *)
Definition scheduled (loaded : gmap string AudioBuffer) (timePerBeat : float)
  (track : value) : list (string * float) :=
  flat_map (step_source loaded timePerBeat) (steps_of track).

(** The beat of a step of the data model, as an integer. *)
Definition beat_index (step : value) : Z :=
  match step with
  | VObj props =>
      match Js.lookup_prop "beat" props with
      | VNum n => JsNum.trunc n
      | _ => 0
      end
  | _ => 0
  end.

Fixpoint distinct (l : list Z) : bool :=
  match l with
  | [] => true
  | x :: rest => negb (existsb (Z.eqb x) rest) && distinct rest
  end.

(** No two steps of the track are on the same beat. *)
Definition distinct_beats (track : value) : bool :=
  distinct (map beat_index (steps_of track)).

(** One loop of live playback with every tick at its nominal time: the
    sources of beat 0, then of beat 1, and so on. *)
Definition loop_sources (loaded : gmap string AudioBuffer) (timePerBeat : float)
  (tracks : list value) : list (string * float) :=
  flat_map (fun k => flat_map (fired loaded k (JsNum.of_Z k * timePerBeat)%float) tracks)
           grid.

(** The ticks of one loop at their nominal times. *)
Definition loop_ticks (id : nat) (timePerBeat : float) : list event :=
  map (fun k => TimerFire id (JsNum.of_Z k * timePerBeat)%float) grid.

(** The page playing the kick pattern, before the first tick. *)
Definition kick_playing : state := step kick_loaded PlayClick.

(** Consecutive beats of the loop, from [b] on. *)
Fixpoint chain (b : Z) (ks : list Z) : bool :=
  match ks with
  | [] => true
  | k :: rest => (k =? b) && chain ((b + 1) mod totalBeats) rest
  end.

(** The current Sequence is a truthy value: reading a property of it does
    not throw. *)
Definition sequence_truthy (st : state) : Prop :=
  Js.truthy (currentSequence st) = true.

(** The name of the file the download link carries. *)
Definition download_name (b : Z) : string := "ai-beat-" +:+ pretty b +:+ "bpm.wav".

(** The page once the rendering has begun: lines 207 and 208. *)
Definition rendering (st : state) : state :=
  set_downloadButtonDisabled true (set_statusText "Rendering beat to WAV file..." st).

Definition newline : ascii := "010".

Definition comma : ascii := ",".

(** A field of the catalog: text without a comma or a line break. *)
Definition field (s : string) : bool :=
  negb (has (fun c => Ascii.eqb c comma) s)
  && negb (has (fun c => Ascii.eqb c newline) s).

(** An entry a catalog file can list: three fields, the file name and the
    category not empty. *)
Definition listed (s : sample) : bool :=
  match category s, pack s with
  | Some c, Some p =>
      field (filename s) && field c && field p
      && nonempty (Some (filename s)) && nonempty (Some c)
  | _, _ => false
  end.

(** A column as text; a column that is missing is written empty. *)
Definition column (s : option string) : string :=
  match s with
  | Some text => text
  | None => ""
  end.

Definition csv_row (s : sample) : string :=
  filename s +:+ String comma (column (category s)
                               +:+ String comma (column (pack s))).

Fixpoint csv_rows (entries : list sample) : string :=
  match entries with
  | [] => ""
  | s :: rest => csv_row s +:+ String newline (csv_rows rest)
  end.

(** The catalog file of [entries]: a header line, then a line for each
    entry, every line ended by a line break. *)
Definition csv (header : string) (entries : list sample) : string :=
  header +:+ String newline (csv_rows entries).

(** The files of the steps of a track, as line 49 collects them. *)
Definition track_files (track : value) : list value :=
  match track with
  | VObj props =>
      match Js.lookup_prop "steps" props with
      | VArr steps =>
          map (fun step =>
                 match step with
                 | VObj sp => Js.lookup_prop "file" sp
                 | _ => VUndefined
                 end) steps
      | _ => []
      end
  | _ => []
  end.

(** The row of the recipe table for a track: its name, and the beat and
    the file of each step. *)
Definition recipe_row (track : value) : value * list (value * value) :=
  match track with
  | VObj props =>
      (Js.lookup_prop "name" props,
       match Js.lookup_prop "steps" props with
       | VArr steps =>
           map (fun step =>
                  match step with
                  | VObj sp => (Js.lookup_prop "beat" sp, Js.lookup_prop "file" sp)
                  | _ => (VUndefined, VUndefined)
                  end) steps
       | _ => []
       end)
  | _ => (VUndefined, [])
  end.

(** What a generation does not change once the sequence is assigned,
    beside the status line, the cache and the logs. *)
Definition beside_loading (st : state) :=
  (currentSequence st, aiButtonDisabled st, downloadButtonDisabled st,
   recipeOutput st).

(** The path a sample is requested at. *)
Definition sample_path (name : string) : string :=
  "Organized_Library_Final/" +:+ name.

(** What [loadSamplesForSequence] does for one file name, [loaded] being
    the cache when the function was called: the callback of line 51. *)
Definition load_one (fetchSample : string -> option AudioBuffer)
  (loaded : gmap string AudioBuffer) (filename : value) : js unit :=
  key <- lift (Conv.ToString filename) ;;
  match loaded_get loaded key with
  | Own _ | Inherited => ret tt
  | Missing =>
      if negb (Js.truthy filename) then ret tt
      else
        let path := "Organized_Library_Final/" +:+ key in
        modify (log_request (GetSample path)) ;;
        match fetchSample path with
        | Some decodedData =>
            modify (fun st =>
                      set_loadedSamples (<[key := decodedData]> (loadedSamples st)) st)
        | None => modify (console_error ("Failed to load sample: " +:+ key))
        end
  end.

Inductive shell_command : Type :=
| SystemctlIsActive
| SudoSystemctlStart
| SudoSystemctlStop
| Pgrep
| NohupWebServer
| Pkill
| Sleep (seconds : nat).

(** [Echo escapes text]: [echo text], with [-e] when [escapes]. *)
Inductive action : Type :=
| Run (c : shell_command)
| Echo (escapes : bool) (text : string).

(** What the host answers: whether the service is active, the exit
    status of starting it, and whether [pgrep] finds a web server. *)
Record host : Type := mkHost {
  ollama_active : bool;
  start_status : nat;
  server_found : bool
}.

(** A piece of script: its actions, and its value or, after [exit], the
    exit status. *)
Definition sh (A : Type) : Type := list action * (A + nat).

Definition sh_ret {A : Type} (a : A) : sh A := ([], inl a).

Definition sh_bind {A B : Type} (m : sh A) (k : A -> sh B) : sh B :=
  match m with
  | (actions, inl a) => let '(actions', r) := k a in (actions ++ actions', r)
  | (actions, inr status) => (actions, inr status)
  end.

Definition echo (text : string) : sh unit := ([Echo false text], inl tt).

Definition echo_e (text : string) : sh unit := ([Echo true text], inl tt).

(** A command and what the host makes of it. *)
Definition exec {A : Type} (c : shell_command) (answer : A) : sh A :=
  ([Run c], inl answer).

Definition exit {A : Type} (status : nat) : sh A := ([], inr status).

Declare Scope sh_scope.
Delimit Scope sh_scope with sh.
Notation "x <- m ;; k" := (sh_bind m (fun x => k))
  (at level 100, m at next level, right associativity) : sh_scope.
Notation "m ;; k" := (sh_bind m (fun _ => k))
  (at level 100, right associativity) : sh_scope.

Definition OLLAMA_SERVICE_NAME : string := "ollama".

Definition WEB_APP_URL : string := "http://localhost:8000".

Definition start_app (h : host) : sh unit :=
  (echo "🚀 Starting AI Sample Sequencer..." ;;
   echo "Checking Ollama service..." ;;
   active <- exec SystemctlIsActive (ollama_active h) ;;
   (if negb active then
      echo "🔥 Starting Ollama system service..." ;;
      status <- exec SudoSystemctlStart (start_status h) ;;
      if negb (status =? 0)%nat then
        echo "❌ Error: Failed to start Ollama service. Please check your installation." ;;
        exit 1
      else
        exec (Sleep 2) tt ;;
        echo "✅ Ollama service started."
    else echo "✅ Ollama service is already running.") ;;
   echo "Checking for existing web server..." ;;
   found <- exec Pgrep (server_found h) ;;
   (if found then echo "✅ Python web server is already running."
    else
      echo "🔥 Starting Python web server in the background..." ;;
      exec NohupWebServer tt ;;
      exec (Sleep 1) tt ;;
      echo "✅ Web server started.") ;;
   echo_e "\n🎉 Setup complete! 🎉" ;;
   echo "You can now access the app at:" ;;
   echo_e ("\n\t\033[1;32m" +:+ WEB_APP_URL +:+ "\033[0m\n"))%sh.

Definition stop_app : sh unit :=
  (echo "🛑 Stopping AI Sample Sequencer..." ;;
   echo "Stopping Ollama system service..." ;;
   exec SudoSystemctlStop tt ;;
   echo "✅ Ollama service stopped." ;;
   echo "Stopping Python web server..." ;;
   exec Pkill tt ;;
   echo "✅ Web server stopped." ;;
   echo_e "\nAll services have been stopped.")%sh.

(** The [case] on the first argument, the empty string when there is
    none. *)
Definition manage_app (argument : string) (h : host) : sh unit :=
  (if String.eqb argument "start" then start_app h
   else if String.eqb argument "stop" then stop_app
   else if String.eqb argument "restart" then
     stop_app ;; exec (Sleep 1) tt ;; start_app h
   else
     echo "Usage: ./manage_app.sh {start|stop|restart}" ;;
     exit 1)%sh.

(** The exit status of a run: that of [exit], or of the last command, an
    [echo], when the script runs to its end. *)
Definition exit_status (r : sh unit) : nat :=
  match snd r with
  | inl _ => 0%nat
  | inr status => status
  end.

(** The commands among the actions of a run. *)
Definition commands (r : sh unit) : list shell_command :=
  flat_map (fun a => match a with Run c => [c] | Echo _ _ => [] end) (fst r).

Definition announces_success (r : sh unit) : bool :=
  existsb (fun a => match a with
                    | Echo _ text => String.eqb text "\n🎉 Setup complete! 🎉"
                    | Run _ => false
                    end) (fst r).

(** An entry of the catalog as [loadDatabase] keeps it: it has a file
    name and a category, neither empty. *)
Definition named (s : sample) : bool :=
  nonempty (Some (filename s)) && nonempty (category s).

(** * Proofs *)

Lemma togglePlayback_empty (st : state) :
  currentSequence st = VArr [] -> togglePlayback st = (Done (Normal tt), st).
Proof.
  intros H. unfold togglePlayback, bind, gets, lift. rewrite H. reflexivity.
Qed.

Lemma renderBeatToWav_empty (mix : mixer) (st : state) :
  currentSequence st = VArr [] -> renderBeatToWav mix st = (Done (Normal tt), st).
Proof.
  intros H. unfold renderBeatToWav, bind, gets, lift. rewrite H. reflexivity.
Qed.

(** C10 (as the code has it): in a state whose current Sequence is empty,
    toggling playback and rendering to WAV both complete at once and leave
    the whole state as it is: the playing flag keeps its value, no timer
    is created, nothing is rendered or offered for download. *)
Theorem empty_sequence_noop (st : state) (mix : mixer) :
  currentSequence st = VArr [] ->
  togglePlayback st = (Done (Normal tt), st)
  /\ renderBeatToWav mix st = (Done (Normal tt), st).
Proof.
  intros H. split.
  - now apply togglePlayback_empty.
  - now apply renderBeatToWav_empty.
Qed.

Lemma empty_sequence_noop_witness :
  currentSequence initial = VArr []
  /\ togglePlayback initial = (Done (Normal tt), initial)
  /\ renderBeatToWav silence initial = (Done (Normal tt), initial).
Proof.
  split; [reflexivity | apply (empty_sequence_noop initial silence); reflexivity].
Defined.

(** C10 as stated fails: a page that is playing when the generator
    answers with an empty [tracks] array has an empty Sequence and a set
    playing flag, and the toggle leaves the flag set. *)
Lemma playing_flag_not_false :
  reachable (run (Some example_csv) empty_then_play)
  /\ currentSequence (run (Some example_csv) empty_then_play) = VArr []
  /\ isPlaying (run (Some example_csv) empty_then_play) = true
  /\ isPlaying (snd (togglePlayback (run (Some example_csv) empty_then_play))) = true.
Proof.
  split; [exists (Some example_csv), empty_then_play; reflexivity | ].
  repeat split; vm_compute; reflexivity.
Qed.

(** C6: a bare array [T] and the object [{"tracks": T}] both give the
    sequence [T]; a value that is neither an array nor an object with a
    [tracks] other than [null] or [undefined] is refused with an error. *)
Theorem sequenceData_forms (T : list value) (v : value) :
  no_sequence v = true ->
  sequenceData (VArr T) = Normal (VArr T)
  /\ sequenceData (VObj [("tracks", VArr T)]) = Normal (VArr T)
  /\ exists e, sequenceData v = Throw e.
Proof.
  intros Hv. split; [reflexivity | split; [reflexivity | ]].
  destruct v as [ | | b | n | s | elems | props ]; simpl in Hv; try discriminate;
    unfold sequenceData; simpl; eauto.
  destruct (Js.lookup_prop "tracks" props); try discriminate; simpl; eauto.
Qed.

Lemma sequenceData_forms_witness :
  no_sequence (VObj [("tracks", VNull)]) = true
  /\ sequenceData (VArr [VObj [("name", VStr "Kick"); ("steps", VArr [])]])
     = Normal (VArr [VObj [("name", VStr "Kick"); ("steps", VArr [])]])
  /\ sequenceData (VObj [("tracks", VArr [VObj [("name", VStr "Kick"); ("steps", VArr [])]])])
     = Normal (VArr [VObj [("name", VStr "Kick"); ("steps", VArr [])]])
  /\ exists e, sequenceData (VObj [("tracks", VNull)]) = Throw e.
Proof.
  split; [reflexivity | ].
  apply (sequenceData_forms
           [VObj [("name", VStr "Kick"); ("steps", VArr [])]]
           (VObj [("tracks", VNull)])).
  reflexivity.
Defined.

Lemma findSamples_none (random : sample -> sample -> bool) (term : string)
  (count : nat) (st : state) :
  filter (in_category term) (sampleDatabase st) = [] ->
  findSamples random term count st = (Done (Normal []), st).
Proof.
  intros H. unfold findSamples, bind, gets, ret. rewrite H.
  destruct count; reflexivity.
Qed.

(** C8: when no catalog entry has a category containing the search term
    [Drums] in any letter case, [getAIResponse] ends with the
    not-enough-samples status before anything is sent: the request log
    and the current Sequence are as before. *)
Theorem no_drums_no_request (env : gen_env) (st : state) :
  filter (in_category "Drums") (sampleDatabase st) = [] ->
  getAIResponse env st = (Done (Normal tt), not_enough_drums st)
  /\ requests (not_enough_drums st) = requests st
  /\ currentSequence (not_enough_drums st) = currentSequence st.
Proof.
  intros H. split; [ | split; destruct st; reflexivity ].
  unfold getAIResponse.
  unfold bind at 1. unfold modify at 1.
  unfold bind at 1. unfold modify at 1.
  unfold bind at 1. unfold modify at 1.
  unfold bind at 1. rewrite findSamples_none by (destruct st; exact H).
  unfold bind at 1. rewrite findSamples_none by (destruct st; exact H).
  unfold bind at 1. rewrite findSamples_none by (destruct st; exact H).
  reflexivity.
Qed.

Lemma no_drums_no_request_witness :
  let st := set_sampleDatabase [mkSample "b.wav" (Some "Bass") (Some "P")] initial in
  filter (in_category "Drums") (sampleDatabase st) = []
  /\ getAIResponse (answering "[]") st = (Done (Normal tt), not_enough_drums st)
  /\ requests (not_enough_drums st) = requests st
  /\ currentSequence (not_enough_drums st) = currentSequence st.
Proof.
  split; [reflexivity | ].
  apply (no_drums_no_request (answering "[]")
           (set_sampleDatabase [mkSample "b.wav" (Some "Bass") (Some "P")] initial)).
  reflexivity.
Defined.

(** C2, at the sample -0.25: the claim scales every negative value by
    32768, which gives -8192; the code tests [0.5 + sample < 0], scales
    by 32767 and writes -8191. *)
Theorem quantize_quarter :
  quantize (-0.25) = -8191 /\ quantize_spec (-0.25) = -8192.
Proof. split; vm_compute; reflexivity. Qed.

Lemma length_le_bytes (n : nat) (data : Z) : length (le_bytes n data) = n.
Proof. unfold le_bytes. now rewrite length_map, length_seq. Qed.

Lemma write_at_app (bytes pre old post : list Z) :
  length old = length bytes ->
  write_at (length pre) bytes (pre ++ old ++ post) = pre ++ bytes ++ post.
Proof.
  revert pre old. induction bytes as [ | b bs IH ]; intros pre old H.
  - destruct old; [reflexivity | discriminate].
  - destruct old as [ | o os ]; [discriminate | ].
    simpl in H. injection H as H. simpl.
    replace (<[length pre := b]> (pre ++ o :: os ++ post))
      with ((pre ++ [b]) ++ os ++ post).
    + replace (S (length pre)) with (length (pre ++ [b]))
        by (rewrite length_app; simpl; lia).
      rewrite IH by exact H. now rewrite <- app_assoc.
    + rewrite <- app_assoc. simpl.
      rewrite insert_app_r_alt by lia. now rewrite Nat.sub_diag.
Qed.

Lemma set_bytes (n : nat) (data : Z) (done : list Z) (rest off : nat) :
  (p <- gets pos ;; DataView_set n p data ;; advance n) (writing done (n + rest) off)
  = (Done (Normal tt), writing (done ++ le_bytes n data) rest off).
Proof.
  unfold bind, gets, DataView_set, advance, modify, writing. cbn [view pos offset].
  rewrite length_app, repeat_length.
  assert (L : (length done + n <=? length done + (n + rest))%nat = true)
    by (apply Nat.leb_le; lia).
  rewrite L. cbn [view pos offset].
  rewrite repeat_app.
  rewrite write_at_app by (now rewrite repeat_length, length_le_bytes).
  rewrite length_app, length_le_bytes. now rewrite <- app_assoc.
Qed.

Lemma setUint32_writing (data : Z) (done : list Z) (rest off : nat) :
  setUint32 data (writing done (4 + rest) off)
  = (Done (Normal tt), writing (done ++ le_bytes 4 data) rest off).
Proof. apply set_bytes. Qed.

Lemma setUint16_writing (data : Z) (done : list Z) (rest off : nat) :
  setUint16 data (writing done (2 + rest) off)
  = (Done (Normal tt), writing (done ++ le_bytes 2 data) rest off).
Proof. apply set_bytes. Qed.

Lemma bind_done {S A B : Type} (m : M S A) (k : A -> M S B) (s s' : S) (a : A) :
  m s = (Done (Normal a), s') -> bind m k s = k a s'.
Proof. intros H. unfold bind. now rewrite H. Qed.

Lemma write_header_writing (numOfChan len : nat) (sampleRate : Z) (rest : nat) :
  len = (rest + 44)%nat ->
  write_header numOfChan len sampleRate (writing [] len 0)
  = (Done (Normal tt), writing (wav_header numOfChan len sampleRate) rest 0).
Proof.
  intros E. unfold write_header.
  replace (writing [] len 0)
    with (writing [] (4 + (4 + (4 + (4 + (4 + (2 + (2 + (4 + (4 + (2 + (2
            + (4 + (4 + rest))))))))))))) 0)
    by (f_equal; lia).
  repeat (first [ erewrite bind_done by apply setUint32_writing
                | erewrite bind_done by apply setUint16_writing ]).
  erewrite bind_done by reflexivity.
  rewrite setUint32_writing. unfold wav_header.
  repeat rewrite <- app_assoc. cbn [app].
  cbn [writing pos]. rewrite !length_app, !length_le_bytes. cbn [Nat.add].
  now replace (Z.of_nat len - Z.of_nat 40 - 4) with (Z.of_nat len - 44) by lia.
Qed.

Lemma write_channels (channels : list (list float)) (k i : nat)
  (done : list Z) (rest off : nat) :
  forEach (seq i k) (fun i =>
    off <- gets offset ;;
    let sample := quantize (channel_sample channels i off) in
    p <- gets pos ;;
    DataView_set 2 p sample ;;
    advance 2) (writing done (k * 2 + rest) off)
  = (Done (Normal tt),
     writing (done ++ flat_map (fun i => le_bytes 2 (quantize (channel_sample channels i off)))
                               (seq i k)) rest off).
Proof.
  revert i done. induction k as [ | k IH ]; intros i done.
  - cbn. now rewrite app_nil_r.
  - cbn [seq forEach flat_map].
    erewrite bind_done.
    2:{ erewrite bind_done by reflexivity. cbn [offset writing].
        replace (S k * 2 + rest)%nat with (2 + (k * 2 + rest))%nat by lia.
        apply set_bytes. }
    rewrite IH. now rewrite <- app_assoc.
Qed.

Lemma write_frame_writing (channels : list (list float)) (numOfChan : nat)
  (done : list Z) (rest off : nat) :
  write_frame numOfChan channels (writing done (numOfChan * 2 + rest) off)
  = (Done (Normal tt),
     writing (done ++ frame_bytes channels numOfChan off) rest (S off)).
Proof.
  unfold write_frame. erewrite bind_done by apply write_channels. reflexivity.
Qed.

Lemma length_channel_bytes (f : nat -> Z) (k i : nat) :
  length (flat_map (fun i => le_bytes 2 (f i)) (seq i k)) = (k * 2)%nat.
Proof.
  revert i. induction k as [ | k IH ]; intros i; [reflexivity | ].
  cbn [seq flat_map]. rewrite length_app, length_le_bytes, IH. lia.
Qed.

Lemma length_frame_bytes (channels : list (list float)) (numOfChan off : nat) :
  length (frame_bytes channels numOfChan off) = (numOfChan * 2)%nat.
Proof. apply length_channel_bytes. Qed.

Lemma length_frames (channels : list (list float)) (numOfChan k off : nat) :
  length (flat_map (frame_bytes channels numOfChan) (seq off k))
  = (k * numOfChan * 2)%nat.
Proof.
  revert off. induction k as [ | k IH ]; intros off; [reflexivity | ].
  cbn [seq flat_map]. rewrite length_app, length_frame_bytes, IH. lia.
Qed.

Lemma write_frames (channels : list (list float)) (numOfChan len : nat) (k : nat) :
  forall (fuel off : nat) (done : list Z),
    (0 < numOfChan)%nat ->
    (k <= fuel)%nat ->
    (length done + k * numOfChan * 2 = len)%nat ->
    while fuel (fun w => (pos w <? len)%nat) (write_frame numOfChan channels)
          (writing done (k * numOfChan * 2) off)
    = (Done (Normal tt),
       writing (done ++ flat_map (frame_bytes channels numOfChan) (seq off k))
               0 (off + k)).
Proof.
  induction k as [ | k IH ]; intros fuel off done HC Hfuel Hlen.
  - assert (C : (length done <? len)%nat = false) by (apply Nat.ltb_ge; lia).
    destruct fuel; cbn [while writing pos]; rewrite C;
      cbn; now rewrite app_nil_r, Nat.add_0_r.
  - assert (C : (length done <? len)%nat = true) by (apply Nat.ltb_lt; nia).
    destruct fuel as [ | fuel ]; [lia | ].
    cbn [while]. cbn [writing pos]. rewrite C.
    erewrite bind_done.
    2:{ replace (S k * numOfChan * 2)%nat
          with (numOfChan * 2 + k * numOfChan * 2)%nat by lia.
        apply write_frame_writing. }
    rewrite IH; [ | exact HC | lia | rewrite length_app, length_frame_bytes; lia ].
    cbn [seq flat_map]. rewrite <- app_assoc.
    now replace (S off + k)%nat with (off + S k)%nat by lia.
Qed.

Lemma length_wav_header (numOfChan len : nat) (sampleRate : Z) :
  length (wav_header numOfChan len sampleRate) = 44%nat.
Proof. reflexivity. Qed.

(** The bytes [bufferToWav] returns: the header, then the frames. *)
Lemma bufferToWav_bytes (buffer : AudioBuffer) :
  bufferToWav buffer
  = Done (Normal
            (wav_header (numberOfChannels buffer)
                        (buf_length buffer * numberOfChannels buffer * 2 + 44)
                        (buf_sampleRate buffer)
             ++ wav_data buffer)).
Proof.
  unfold bufferToWav, wav_program.
  set (C := numberOfChannels buffer). set (F := buf_length buffer).
  set (len := (F * C * 2 + 44)%nat).
  change (mkWriter (repeat 0 len) 0 0) with (writing [] len 0).
  erewrite bind_done by (apply (write_header_writing C len _ (F * C * 2)); reflexivity).
  destruct (Nat.eq_dec C 0%nat) as [E | NE].
  - assert (D : wav_data buffer = []).
    { unfold wav_data. fold C. rewrite E. unfold frame_bytes. cbn [seq flat_map].
      induction (seq 0 (buf_length buffer)); [reflexivity | assumption]. }
    rewrite D.
    assert (R : (F * C * 2 = 0)%nat) by (rewrite E; lia). rewrite R.
    assert (Cnd : (length (wav_header C len (buf_sampleRate buffer)) <? len)%nat = false)
      by (rewrite length_wav_header; apply Nat.ltb_ge; lia).
    destruct F; cbn [while writing pos]; rewrite Cnd; reflexivity.
  - rewrite (write_frames (buf_channels buffer) C len F);
      [ | lia | lia | rewrite length_wav_header; lia ].
    cbn [writing view]. rewrite app_nil_r. reflexivity.
Qed.

Lemma read_le_2 (x : Z) (rest : list Z) :
  fold_right (fun b acc => b + 256 * acc) 0 (firstn 2 (le_bytes 2 x ++ rest))
  = x mod 2 ^ 16.
Proof.
  unfold le_bytes. cbn [seq map app firstn fold_right].
  replace (firstn 0 rest) with (@nil Z) by (now destruct rest).
  cbn [fold_right].
  change (2 ^ (8 * Z.of_nat 0)) with 1. change (2 ^ (8 * Z.of_nat 1)) with 256.
  change (2 ^ 16) with (256 * 256).
  rewrite Z.div_1_r, Z.rem_mul_r by lia. lia.
Qed.

Lemma read_le_4 (x : Z) (rest : list Z) :
  fold_right (fun b acc => b + 256 * acc) 0 (firstn 4 (le_bytes 4 x ++ rest))
  = x mod 2 ^ 32.
Proof.
  unfold le_bytes. cbn [seq map app firstn fold_right].
  replace (firstn 0 rest) with (@nil Z) by (now destruct rest).
  cbn [fold_right].
  change (2 ^ (8 * Z.of_nat 0)) with 1. change (2 ^ (8 * Z.of_nat 1)) with 256.
  change (2 ^ (8 * Z.of_nat 2)) with (256 * 256).
  change (2 ^ (8 * Z.of_nat 3)) with (256 * 256 * 256).
  change (2 ^ 32) with (256 * (256 * (256 * 256))).
  rewrite Z.div_1_r.
  rewrite (Z.rem_mul_r x 256) by lia.
  rewrite (Z.rem_mul_r (x / 256) 256) by lia.
  rewrite (Z.rem_mul_r (x / 256 / 256) 256) by lia.
  rewrite !Z.div_div by lia. lia.
Qed.

Lemma skipn_le_bytes (n k : nat) (x : Z) (rest : list Z) :
  skipn (n + k) (le_bytes n x ++ rest) = skipn k rest.
Proof.
  rewrite <- drop_drop.
  rewrite <- (length_le_bytes n x) at 1.
  now rewrite drop_app_length.
Qed.

Lemma length_wav_data (buffer : AudioBuffer) :
  length (wav_data buffer)
  = (buf_length buffer * numberOfChannels buffer * 2)%nat.
Proof. unfold wav_data. apply length_frames. Qed.

Lemma skipn_header_field (N n k : nat) (x : Z) (rest : list Z) :
  N = (n + k)%nat -> skipn N (le_bytes n x ++ rest) = skipn k rest.
Proof. intros ->. apply skipn_le_bytes. Qed.

Ltac skip_fields :=
  repeat match goal with
         | |- context [skipn ?N (le_bytes ?n ?x ++ ?r)] =>
             let k := eval compute in (N - n)%nat in
             rewrite (skipn_header_field N n k x r eq_refl)
         end;
  rewrite ?drop_0.

(** C5: for a buffer of [F] frames and [C] channels the encoder returns
    [44 + F*C*2] bytes; the header carries the tags RIFF, WAVE, fmt and
    data, format tag 1 and bit depth 16, and, for channel counts and rates
    that fit their fields, the channel count, the sample rate, the byte
    rate [rate*2*C] and the block alignment [C*2]. *)
Theorem bufferToWav_layout (buffer : AudioBuffer) :
  let C := Z.of_nat (numberOfChannels buffer) in
  let F := Z.of_nat (buf_length buffer) in
  let rate := buf_sampleRate buffer in
  exists bytes,
    bufferToWav buffer = Done (Normal bytes)
    /\ Z.of_nat (length bytes) = 44 + F * C * 2
    /\ firstn 4 bytes = ascii_codes "RIFF"
    /\ firstn 4 (skipn 8 bytes) = ascii_codes "WAVE"
    /\ firstn 4 (skipn 12 bytes) = ascii_codes "fmt "
    /\ read_le 4 16 bytes = 16
    /\ read_le 2 20 bytes = 1
    /\ read_le 2 34 bytes = 16
    /\ firstn 4 (skipn 36 bytes) = ascii_codes "data"
    /\ (C < 2 ^ 15 -> 0 <= rate < 2 ^ 32 -> rate * 2 * C < 2 ^ 32 ->
        read_le 2 22 bytes = C
        /\ read_le 4 24 bytes = rate
        /\ read_le 4 28 bytes = rate * 2 * C
        /\ read_le 2 32 bytes = C * 2).
Proof.
  intros C F rate. eexists. split; [apply bufferToWav_bytes | ].
  split.
  { rewrite length_app, length_wav_header, length_wav_data. subst C F. lia. }
  set (len := (buf_length buffer * numberOfChannels buffer * 2 + 44)%nat).
  unfold wav_header, read_le. rewrite <- !app_assoc.
  fold C. fold rate.
  split; [reflexivity | ].
  split; [skip_fields; reflexivity | ].
  split; [skip_fields; reflexivity | ].
  split; [skip_fields; now rewrite read_le_4 | ].
  split; [skip_fields; now rewrite read_le_2 | ].
  split; [skip_fields; now rewrite read_le_2 | ].
  split; [skip_fields; reflexivity | ].
  intros HC Hrate Hbyte.
  assert (0 <= C) by (subst C; lia).
  repeat split; skip_fields; rewrite ?read_le_2, ?read_le_4;
    apply Z.mod_small; lia.
Qed.

Lemma star_close (s : string) :
  Regex.star (fun _ => true) s (fun s' => Regex.run (Regex.Class is_close) s' Some)
  = after_last_close s.
Proof.
  induction s as [ | c s IH ]; [reflexivity | ].
  cbn [Regex.star after_last_close]. rewrite IH.
  destruct (after_last_close s); reflexivity.
Qed.

Lemma after_last_close_Some (s rest : string) :
  after_last_close s = Some rest ->
  exists mid c,
    s = mid +:+ String c rest /\ is_close c = true /\ has is_close rest = false.
Proof.
  revert rest. induction s as [ | c s IH ]; intros rest H; [discriminate | ].
  cbn [after_last_close] in H.
  destruct (after_last_close s) as [ r | ] eqn:E.
  - injection H as <-. destruct (IH r eq_refl) as (mid & c' & -> & Hc & Hr).
    exists (String c mid), c'. repeat split; assumption.
  - destruct (is_close c) eqn:Hc; [ | discriminate ].
    injection H as <-. exists EmptyString, c. repeat split; [assumption | ].
    clear IH Hc. induction s as [ | d s IH ]; [reflexivity | ].
    cbn [after_last_close] in E. cbn [has].
    destruct (after_last_close s); [discriminate | ].
    destruct (is_close d); [discriminate | ]. now apply IH.
Qed.

Lemma after_last_close_None (s : string) :
  after_last_close s = None <-> has is_close s = false.
Proof.
  induction s as [ | c s IH ]; [easy | ].
  cbn [after_last_close has].
  destruct (after_last_close s) as [ r | ].
  - split; [discriminate | ]. intros H.
    apply orb_false_iff in H as [_ H]. apply IH in H. discriminate.
  - destruct (is_close c); cbn; [easy | ]. split; intros _; [now apply IH | reflexivity].
Qed.

Lemma length_append (a b : string) :
  String.length (a +:+ b) = (String.length a + String.length b)%nat.
Proof.
  induction a as [ | c a IH ]; [reflexivity | ].
  change (S (String.length (a +:+ b)) = S (String.length a + String.length b)).
  now rewrite IH.
Qed.

Lemma append_last (mid rest : string) (c : ascii) :
  (mid +:+ String c EmptyString) +:+ rest = mid +:+ String c rest.
Proof.
  induction mid as [ | d mid IH ]; [reflexivity | ].
  change (String d ((mid +:+ String c EmptyString) +:+ rest)
          = String d (mid +:+ String c rest)).
  now rewrite IH.
Qed.

Lemma take_prefix (a b : string) :
  JsString.take (String.length (a +:+ b) - String.length b) (a +:+ b) = a.
Proof.
  replace (String.length (a +:+ b) - String.length b)%nat with (String.length a)
    by (rewrite length_append; lia).
  induction a as [ | c a IH ].
  - now destruct b.
  - change (String c (JsString.take (String.length a) (a +:+ b)) = String c a).
    now rewrite IH.
Qed.

Lemma match_here_open (c : ascii) (s : string) :
  Regex.match_here jsonRegex (String c s)
  = if is_open c
    then match after_last_close s with
         | Some rest =>
             Some (JsString.take (String.length (String c s) - String.length rest)
                                 (String c s))
         | None => None
         end
    else None.
Proof.
  unfold Regex.match_here, jsonRegex. cbn [Regex.run].
  destruct (is_open c); [ | reflexivity ].
  change (fun s' : string => match s' with
                             | EmptyString => None
                             | String c0 s'0 => if is_close c0 then Some s'0 else None
                             end)
    with (fun s' => Regex.run (Regex.Class is_close) s' Some).
  now rewrite star_close.
Qed.

Lemma String_match_no_close (s : string) :
  has is_close s = false -> Regex.String_match jsonRegex s = None.
Proof.
  induction s as [ | c s IH ]; intros H; [reflexivity | ].
  cbn [has] in H. apply orb_false_iff in H as [_ H].
  cbn [Regex.String_match]. rewrite match_here_open.
  apply after_last_close_None in H as H'. rewrite H'.
  destruct (is_open c); now apply IH.
Qed.

(** [String_match jsonRegex] finds the span from the first opening bracket
    to the last closing bracket, when the one comes before the other. *)
Lemma String_match_span (text : string) :
  match Regex.String_match jsonRegex text with
  | Some m =>
      exists pre post o mid c,
        text = pre +:+ m +:+ post
        /\ m = String o (mid +:+ String c EmptyString)
        /\ is_open o = true /\ is_close c = true
        /\ has is_open pre = false /\ has is_close post = false
  | None =>
      forall pre o rest,
        text = pre +:+ String o rest -> is_open o = true ->
        has is_close rest = false
  end.
Proof.
  induction text as [ | ch t IH ].
  - cbn. intros [ | ] ? ? H; discriminate H.
  - cbn [Regex.String_match]. rewrite match_here_open.
    destruct (is_open ch) eqn:Ho.
    + destruct (after_last_close t) as [ r | ] eqn:E.
      * destruct (after_last_close_Some _ _ E) as (mid & c & -> & Hc & Hr).
        exists EmptyString, r, ch, mid, c.
        assert (T : JsString.take
                      (String.length (String ch (mid +:+ String c r)) - String.length r)
                      (String ch (mid +:+ String c r))
                    = String ch (mid +:+ String c EmptyString)).
        { replace (String ch (mid +:+ String c r))
            with (String ch (mid +:+ String c EmptyString) +:+ r).
          - apply take_prefix.
          - change (String ch ((mid +:+ String c EmptyString) +:+ r)
                    = String ch (mid +:+ String c r)).
            now rewrite append_last. }
        rewrite T. repeat split; try assumption.
        change (String ch (mid +:+ String c r)
                = String ch ((mid +:+ String c EmptyString) +:+ r)).
        now rewrite append_last.
      * apply after_last_close_None in E.
        rewrite (String_match_no_close t E).
        intros pre o rest H Hopen.
        destruct pre as [ | p pre ]; cbn in H; injection H as -> ->; [exact E | ].
        clear - E. induction pre as [ | q pre IH ]; cbn in E.
        -- now apply orb_false_iff in E as [_ E].
        -- apply orb_false_iff in E as [_ E]. now apply IH.
    + destruct (Regex.String_match jsonRegex t) as [ m | ].
      * destruct IH as (pre & post & o & mid & c & -> & Hm & Hopen & Hc & Hpre & Hpost).
        exists (String ch pre), post, o, mid, c.
        repeat split; try assumption. cbn [has]. now rewrite Ho.
      * intros pre o rest H Hopen.
        destruct pre as [ | p pre ]; cbn in H; injection H as -> ->.
        -- congruence.
        -- now apply (IH pre o rest).
Qed.

(** C3 (as the code has it): [extractJson] parses the span from the
    first opening bracket of the text to its last closing bracket, and
    throws the no-JSON error exactly when no opening bracket is followed
    by a closing one. *)
Theorem extractJson_greedy (text : string) :
  extractJson (VStr text)
  = match Regex.String_match jsonRegex text with
    | Some m => Json.parse m
    | None => Throw NoJsonFound
    end
  /\ match Regex.String_match jsonRegex text with
     | Some m =>
         exists pre post o mid c,
           text = pre +:+ m +:+ post
           /\ m = String o (mid +:+ String c EmptyString)
           /\ is_open o = true /\ is_close c = true
           /\ has is_open pre = false /\ has is_close post = false
     | None =>
         forall pre o rest,
           text = pre +:+ String o rest -> is_open o = true ->
           has is_close rest = false
     end.
Proof. split; [reflexivity | apply String_match_span]. Qed.

(** C3 as stated fails: with brackets in the prose after the answer, the
    first balanced JSON substring is the answer, but the code parses the
    whole span and throws. *)
Lemma extractJson_not_first_balanced :
  extractJson_spec prose_with_brackets = Normal (VObj [("tracks", VArr [])])
  /\ extractJson (VStr prose_with_brackets) = Throw SyntaxError.
Proof. split; vm_compute; reflexivity. Qed.

(** C1, at a track with two steps on beat 3: live playback starts only
    the first-declared sample on the tick of beat 3, the offline
    renderer starts both at that time. *)
Theorem duplicate_beat_live_offline :
  currentBeat <$> (timers duplicate_played !! 1%nat) = Some 4
  /\ ctx_started (audioContext duplicate_played) = [("a.wav", 1.5%float)]
  /\ offline_sources duplicate_loaded
     = Done (Normal [("a.wav", 1.5%float); ("b.wav", 1.5%float)]).
Proof. repeat split; vm_compute; reflexivity. Qed.

(** C7, at an answer whose track has no [steps]: the attempt ends with
    the error status, yet the current Sequence is no longer the one held
    before, and the next tick of playback throws. *)
Theorem failed_generation_replaces_sequence :
  let st := snd (getAIResponse (answering track_without_steps) kick_loaded) in
  statusText st = "Error: Could not get a valid response from the AI."
  /\ currentSequence kick_loaded
     = VArr [VObj [("name", VStr "Kick");
                   ("steps", VArr [VObj [("beat", VNum 0); ("file", VStr "a.wav")];
                                   VObj [("beat", VNum 4); ("file", VStr "a.wav")]])]]
  /\ currentSequence st = VArr [VObj [("name", VStr "Kick")]]
  /\ fst (tick 1 0 (snd (togglePlayback st))) = Done (Throw TypeError).
Proof. repeat split; vm_compute; reflexivity. Qed.

Ltac run_js :=
  repeat first
    [ progress cbn [bind gets lift modify ret throw when fst snd
                    bpm isPlaying sequencerInterval sampleDatabase loadedSamples
                    currentSequence statusText playButtonText bpmValueText
                    aiButtonDisabled downloadButtonDisabled recipeOutput timers
                    nextTimerId audioContext requests downloads console
                    set_bpm set_isPlaying set_sequencerInterval set_sampleDatabase
                    set_loadedSamples set_currentSequence set_statusText
                    set_playButtonText set_bpmValueText set_aiButtonDisabled
                    set_downloadButtonDisabled set_recipeOutput set_timers
                    set_nextTimerId set_audioContext set_requests set_downloads
                    set_console]
    | progress unfold bind, gets, lift, modify, ret, throw, when ].

Lemma resume_live (context : AudioContext) :
  ctx_render context = None ->
  (if ctx_suspended context then resume context else context)
  = mkAudioContext false (ctx_started context) None.
Proof.
  destruct context as [s l r]. cbn. intros ->. now destruct s.
Qed.

Lemma togglePlayback_start (st : state) :
  has_length st = true -> isPlaying st = false ->
  togglePlayback st
  = (Done (Normal tt),
     set_sequencerInterval (Some (nextTimerId st))
       (set_nextTimerId (S (nextTimerId st))
          (set_timers
             (<[nextTimerId st :=
                  mkInterval 0 (60 / JsNum.of_Z (bpm st) * 1000)%float]> (timers st))
             (set_playButtonText "Stop"
                (set_isPlaying true
                   (if ctx_suspended (audioContext st)
                    then set_audioContext (resume (audioContext st)) st
                    else st)))))).
Proof.
  unfold has_length. intros Hlen Hplay.
  unfold togglePlayback, setInterval. destruct st as [b ip si db ls cs stx pbt bvt aid ddd ro tm nt ac rq dl co].
  cbn in Hlen, Hplay. subst.
  run_js.
  destruct (Js.get cs "length") as [ len | ]; [ | discriminate ].
  rewrite Hlen. cbn.
  destruct (ctx_suspended ac); reflexivity.
Qed.

Lemma togglePlayback_stop (st : state) :
  has_length st = true -> isPlaying st = true ->
  togglePlayback st
  = (Done (Normal tt),
     set_playButtonText "Play"
       (set_isPlaying false
          (set_sequencerInterval None
             (set_timers
                (match sequencerInterval st with
                 | Some id => delete id (timers st)
                 | None => timers st
                 end)
                (if ctx_suspended (audioContext st)
                 then set_audioContext (resume (audioContext st)) st
                 else st))))).
Proof.
  unfold has_length. intros Hlen Hplay.
  unfold togglePlayback, clearInterval. destruct st as [b ip si db ls cs stx pbt bvt aid ddd ro tm nt ac rq dl co].
  cbn in Hlen, Hplay. subst.
  run_js.
  destruct (Js.get cs "length") as [ len | ]; [ | discriminate ].
  rewrite Hlen. cbn.
  destruct (ctx_suspended ac), si; reflexivity.
Qed.

Lemma set_audioContext_same (st : state) :
  set_audioContext (audioContext st) st = st.
Proof. now destruct st. Qed.

Lemma set_audioContext_twice (a b : AudioContext) (st : state) :
  set_audioContext a (set_audioContext b st) = set_audioContext a st.
Proof. now destruct st. Qed.

Lemma findM_on_beat (beat : Z) (arr : list value) (st : state) :
  forallb is_object arr = true ->
  findM (fun s => b <- lift (Js.get s "beat") ;;
                  ret (Js.strict_eq_num b (JsNum.of_Z beat))) arr st
  = (Done (Normal (match List.find (on_beat beat) arr with
                   | Some step => step
                   | None => VUndefined
                   end)), st).
Proof.
  induction arr as [ | s arr IH ]; intros H; [reflexivity | ].
  cbn [forallb] in H. apply andb_true_iff in H as [Hs H].
  destruct s as [ | | | | | | props ]; try discriminate.
  cbn [findM List.find on_beat]. unfold bind at 1. unfold bind at 1.
  cbn [lift Js.get ret].
  destruct (Js.strict_eq_num (Js.lookup_prop "beat" props) (JsNum.of_Z beat));
    [reflexivity | now apply IH].
Qed.

Lemma find_forallb {A : Type} (p q : A -> bool) (l : list A) (x : A) :
  forallb q l = true -> List.find p l = Some x -> q x = true.
Proof.
  intros H F. apply find_some in F as [F _].
  rewrite forallb_forall in H. now apply H.
Qed.

(** [playSample] on a file of an ordinary name at a time of the clock:
    the source it starts, if the sample is cached. *)
Lemma playSample_source (loaded : gmap string AudioBuffer)
  (props : list (string * value)) (time : float) (context : AudioContext) :
  clock_time time = true ->
  Js.truthy (Js.lookup_prop "file" props) = true ->
  ordinary_step (VObj props) = true ->
  exists context',
    playSample loaded (Js.lookup_prop "file" props) time context
    = (Done (Normal tt), context')
    /\ ctx_started context'
       = ctx_started context ++ source_of loaded time (VObj props)
    /\ ctx_render context' = ctx_render context.
Proof.
  intros Hc Hf Ho. unfold clock_time in Hc. apply andb_true_iff in Hc as [H1 H2].
  apply negb_true_iff in H1, H2.
  cbn [ordinary_step] in Ho. unfold ordinary_file in Ho. rewrite Hf in Ho.
  cbn [negb orb] in Ho.
  unfold playSample. cbn [source_of]. rewrite Hf.
  unfold bind at 1. cbn [modify].
  destruct (Conv.ToString (Js.lookup_prop "file" props)) as [ key | e ];
    [ | discriminate ].
  apply negb_true_iff in Ho.
  unfold bind at 1. cbn [lift]. unfold loaded_get.
  destruct (loaded !! key).
  - unfold start. rewrite H1, H2. cbn [orb modify]. eexists. split; [reflexivity | ].
    destruct context as [s l r], s, r; split; reflexivity.
  - rewrite Ho. eexists. split; [reflexivity | ]. rewrite app_nil_r.
    destruct context as [s l r], s, r; split; reflexivity.
Qed.

Lemma tick_track_fires (beat : Z) (time : float) (track : value) (st : state) :
  shaped_track track = true -> ordinary_track track = true ->
  clock_time time = true ->
  exists context',
    tick_track beat time track st = (Done (Normal tt), set_audioContext context' st)
    /\ ctx_started context'
       = ctx_started (audioContext st) ++ fired (loadedSamples st) beat time track.
Proof.
  intros Ht Ho Hc. destruct track as [ | | | | | | props ]; try discriminate.
  cbn [shaped_track] in Ht. unfold ordinary_track in Ho. cbn [steps_of] in Ho.
  unfold tick_track, fired. cbn [steps_of].
  unfold bind at 1. cbn [lift Js.get].
  destruct (Js.lookup_prop "steps" props) as [ | | | | | steps | ]; try discriminate.
  unfold bind at 1. cbn [array_method ret].
  unfold bind at 1. rewrite (findM_on_beat beat steps st Ht).
  destruct (List.find (on_beat beat) steps) as [ step | ] eqn:F.
  - pose proof (find_forallb _ _ _ _ Ht F) as Hobj.
    pose proof (find_forallb _ _ _ _ Ho F) as Hord.
    destruct step as [ | | | | | | sp ]; try discriminate.
    cbn [Js.truthy]. unfold bind at 1. cbn [lift Js.get].
    destruct (Js.truthy (Js.lookup_prop "file" sp)) eqn:Hf.
    + unfold bind at 1. cbn [gets]. unfold live.
      destruct (playSample_source (loadedSamples st) sp time (audioContext st)
                  Hc Hf Hord) as (context' & Hp & Hs & _).
      rewrite Hp. exists context'. split; [reflexivity | exact Hs].
    + exists (audioContext st). rewrite set_audioContext_same.
      split; [reflexivity | ]. cbn [source_of]. rewrite Hf. now rewrite app_nil_r.
  - exists (audioContext st). cbn [Js.truthy]. rewrite set_audioContext_same.
    split; [reflexivity | now rewrite app_nil_r].
Qed.

Lemma forEach_tracks_fire (beat : Z) (time : float) (tracks : list value) :
  forallb shaped_track tracks = true -> forallb ordinary_track tracks = true ->
  clock_time time = true ->
  forall st, exists context',
    forEach tracks (tick_track beat time) st
    = (Done (Normal tt), set_audioContext context' st)
    /\ ctx_started context'
       = ctx_started (audioContext st)
         ++ flat_map (fired (loadedSamples st) beat time) tracks.
Proof.
  intros Ht Ho Hc. induction tracks as [ | track tracks IH ]; intros st.
  - exists (audioContext st). cbn. rewrite set_audioContext_same.
    now rewrite app_nil_r.
  - cbn [forallb] in Ht, Ho.
    apply andb_true_iff in Ht as [H1 H2]. apply andb_true_iff in Ho as [O1 O2].
    destruct (tick_track_fires beat time track st H1 O1 Hc) as (c1 & E1 & S1).
    destruct (IH H2 O2 (set_audioContext c1 st)) as (c2 & E2 & S2).
    exists c2. cbn [forEach flat_map]. unfold bind. rewrite E1, E2.
    rewrite set_audioContext_twice. split; [reflexivity | ].
    rewrite S2. destruct st; cbn in *. rewrite S1. now rewrite <- app_assoc.
Qed.

(** A tick over well-shaped tracks with ordinary file names. *)
Lemma tick_result (id : nat) (time : float) (t : interval)
  (tracks : list value) (st : state) :
  timers st !! id = Some t ->
  currentSequence st = VArr tracks ->
  forallb shaped_track tracks = true ->
  forallb ordinary_track tracks = true ->
  clock_time time = true ->
  exists context',
    tick id time st
    = (Done (Normal tt),
       set_timers
         (<[id := mkInterval ((currentBeat t + 1) mod totalBeats) (delay t)]>
            (timers st))
         (set_audioContext context' st))
    /\ ctx_started context'
       = ctx_started (audioContext st)
         ++ flat_map (fired (loadedSamples st) (currentBeat t) time) tracks.
Proof.
  intros Ht Hcs Hs Ho Hc.
  unfold tick. unfold bind at 1. cbn [gets]. rewrite Ht.
  unfold bind at 1. cbn [gets]. rewrite Hcs.
  unfold bind at 1. cbn [array_method ret].
  destruct (forEach_tracks_fire (currentBeat t) time tracks Hs Ho Hc st)
    as (c & Ec & Sc).
  unfold bind at 1. rewrite Ec. exists c. split; [ | exact Sc ].
  unfold modify. now destruct st.
Qed.

Lemma tick_advances (id : nat) (time : float) (t : interval) (st : state) :
  timers st !! id = Some t ->
  shaped (currentSequence st) = true -> ordinary (currentSequence st) = true ->
  clock_time time = true ->
  exists context',
    tick id time st
    = (Done (Normal tt),
       set_timers
         (<[id := mkInterval ((currentBeat t + 1) mod totalBeats) (delay t)]> (timers st))
         (set_audioContext context' st)).
Proof.
  intros Ht Hs Ho Hc.
  destruct (currentSequence st) as [ | | | | | tracks | ] eqn:E; try discriminate.
  destruct (tick_result id time t tracks st Ht E Hs Ho Hc) as (c & Ec & _).
  now exists c.
Qed.

Lemma bpmSlider_input_restarts (value : Z) (st : state) :
  has_length st = true -> isPlaying st = true ->
  exists st',
    bpmSlider_input value st = (Done (Normal tt), st')
    /\ bpm st' = value
    /\ isPlaying st' = true
    /\ sequencerInterval st' = Some (nextTimerId st)
    /\ timers st'
       = <[nextTimerId st := mkInterval 0 (60 / JsNum.of_Z value * 1000)%float]>
           (match sequencerInterval st with
            | Some id => delete id (timers st)
            | None => timers st
            end).
Proof.
  intros Hlen Hplay. unfold bpmSlider_input.
  set (st1 := set_bpmValueText (pretty value) (set_bpm value st)).
  assert (L1 : has_length st1 = true) by (subst st1; destruct st; exact Hlen).
  assert (P1 : isPlaying st1 = true) by (subst st1; destruct st; exact Hplay).
  pose proof (togglePlayback_stop st1 L1 P1) as Estop.
  set (st2 := snd (togglePlayback st1)).
  assert (L2 : has_length st2 = true).
  { subst st2. rewrite Estop. cbn [snd]. subst st1.
    destruct st as [b ip si db ls cs stx pbt bvt aid ddd ro tm nt ac rq dl co].
    cbn in *. destruct (ctx_suspended ac); exact Hlen. }
  assert (P2 : isPlaying st2 = false).
  { subst st2. rewrite Estop. cbn [snd]. subst st1.
    destruct st as [b ip si db ls cs stx pbt bvt aid ddd ro tm nt ac rq dl co].
    cbn. now destruct (ctx_suspended ac). }
  pose proof (togglePlayback_start st2 L2 P2) as Estart.
  eexists. split.
  - unfold bind at 1. unfold modify at 1. unfold bind at 1. unfold modify at 1.
    fold st1. unfold bind at 1. cbn [gets]. rewrite P1. cbn [when].
    unfold bind at 1. rewrite Estop. subst st2.
    rewrite Estop in Estart. cbn [snd] in Estart. exact Estart.
  - destruct st as [b ip si db ls cs stx pbt bvt aid ddd ro tm nt ac rq dl co].
    destruct ac as [sus started r]. destruct sus, r; cbn; repeat split; reflexivity.
Qed.

Lemma tempo_table :
  forallb (fun b =>
             (offline_frames b =? 42336000 / b)
             && forallb (fun k => clock_time (JsNum.of_Z k * (60 / JsNum.of_Z b))%float)
                        grid)
          tempo_range = true.
Proof. vm_compute. reflexivity. Qed.

Lemma in_tempo_range (b : Z) : 1 <= b <= 734 -> In b tempo_range.
Proof.
  intros H. unfold tempo_range. apply in_map_iff.
  exists (Z.to_nat b). split; [lia | ]. apply in_seq. lia.
Qed.

Lemma tempo_frames (b : Z) : 1 <= b <= 734 -> offline_frames b = 42336000 / b.
Proof.
  intros H. pose proof tempo_table as T. rewrite forallb_forall in T.
  specialize (T b (in_tempo_range b H)). apply andb_true_iff in T as [T _].
  now apply Z.eqb_eq.
Qed.

Lemma tempo_times (b k : Z) :
  1 <= b <= 734 -> In k grid ->
  clock_time (JsNum.of_Z k * (60 / JsNum.of_Z b))%float = true.
Proof.
  intros H Hk. pose proof tempo_table as T. rewrite forallb_forall in T.
  specialize (T b (in_tempo_range b H)). apply andb_true_iff in T as [_ T].
  rewrite forallb_forall in T. now apply T.
Qed.

Lemma schedule_step_sources (b : Z) (loaded : gmap string AudioBuffer)
  (step : value) (context : AudioContext) :
  1 <= b <= 734 -> valid_step step = true -> ordinary_step step = true ->
  exists context',
    schedule_step loaded (60 / JsNum.of_Z b)%float step context
    = (Done (Normal tt), context')
    /\ ctx_started context'
       = ctx_started context ++ step_source loaded (60 / JsNum.of_Z b)%float step
    /\ ctx_render context' = ctx_render context.
Proof.
  intros Hb Hv Ho. destruct step as [ | | | | | | props ]; try discriminate.
  cbn [valid_step] in Hv. apply andb_true_iff in Hv as [Hbeat Hfile].
  unfold schedule_step, step_source. unfold bind at 1. cbn [lift Js.get].
  destruct (Js.lookup_prop "beat" props) as [ | | | n | | | ] eqn:Eb;
    try discriminate.
  cbn [grid_beat] in Hbeat. apply existsb_exists in Hbeat as (k & Hk & E).
  apply FloatAxioms.Leibniz.eqb_spec in E. subst n. cbn [Conv.ToNumber].
  destruct (Js.truthy (Js.lookup_prop "file" props)) eqn:Hf.
  - unfold bind at 1. cbn [lift].
    unfold bind at 1. cbn [lift Conv.ToNumber].
    apply playSample_source; [now apply tempo_times | exact Hf | exact Ho].
  - exists context. cbn [source_of]. rewrite Hf, app_nil_r. repeat split.
Qed.

Lemma schedule_steps_sources (b : Z) (loaded : gmap string AudioBuffer)
  (steps : list value) :
  1 <= b <= 734 ->
  forallb valid_step steps = true -> forallb ordinary_step steps = true ->
  forall context, exists context',
    forEach steps (schedule_step loaded (60 / JsNum.of_Z b)%float) context
    = (Done (Normal tt), context')
    /\ ctx_started context'
       = ctx_started context
         ++ flat_map (step_source loaded (60 / JsNum.of_Z b)%float) steps
    /\ ctx_render context' = ctx_render context.
Proof.
  intros Hb Hv Ho. induction steps as [ | step steps IH ]; intros context.
  - exists context. cbn. now rewrite app_nil_r.
  - cbn [forallb] in Hv, Ho.
    apply andb_true_iff in Hv as [H1 H2]. apply andb_true_iff in Ho as [O1 O2].
    destruct (schedule_step_sources b loaded step context Hb H1 O1)
      as (c1 & E1 & S1 & R1).
    destruct (IH H2 O2 c1) as (c2 & E2 & S2 & R2).
    exists c2. split; [ | split; [ | congruence ] ].
    + cbn [forEach]. unfold bind. now rewrite E1.
    + rewrite S2, S1. cbn [flat_map]. now rewrite <- app_assoc.
Qed.

Lemma schedule_tracks_sources (b : Z) (loaded : gmap string AudioBuffer)
  (tracks : list value) :
  1 <= b <= 734 ->
  forallb valid_track tracks = true -> forallb ordinary_track tracks = true ->
  forall context, exists context',
    forEach tracks (schedule_track loaded (60 / JsNum.of_Z b)%float) context
    = (Done (Normal tt), context')
    /\ ctx_started context'
       = ctx_started context
         ++ flat_map (scheduled loaded (60 / JsNum.of_Z b)%float) tracks
    /\ ctx_render context' = ctx_render context.
Proof.
  intros Hb Hv Ho. induction tracks as [ | track tracks IH ]; intros context.
  - exists context. cbn. now rewrite app_nil_r.
  - cbn [forallb] in Hv, Ho.
    apply andb_true_iff in Hv as [H1 H2]. apply andb_true_iff in Ho as [O1 O2].
    destruct track as [ | | | | | | props ]; try discriminate.
    cbn [valid_track] in H1. unfold ordinary_track in O1. cbn [steps_of] in O1.
    destruct (Js.lookup_prop "steps" props) as [ | | | | | steps | ] eqn:Es;
      try discriminate.
    destruct (schedule_steps_sources b loaded steps Hb H1 O1 context)
      as (c1 & E1 & S1 & R1).
    destruct (IH H2 O2 c1) as (c2 & E2 & S2 & R2).
    exists c2. split; [ | split; [ | congruence ] ].
    + cbn [forEach]. unfold bind at 1. unfold schedule_track at 1.
      unfold bind at 1. cbn [lift Js.get]. rewrite Es.
      unfold bind at 1. cbn [array_method ret]. now rewrite E1.
    + rewrite S2, S1. cbn [flat_map]. rewrite <- app_assoc. do 2 f_equal.
      unfold scheduled. cbn [steps_of]. now rewrite Es.
Qed.

Lemma schedule_all_sources (tracks : list value) (st : state) :
  currentSequence st = VArr tracks ->
  forallb valid_track tracks = true ->
  forallb ordinary_track tracks = true ->
  1 <= bpm st <= 734 ->
  offline_sources st
  = Done (Normal (flat_map (scheduled (loadedSamples st)
                                      (60 / JsNum.of_Z (bpm st))%float) tracks)).
Proof.
  intros Hcs Hv Ho Hb. unfold offline_sources, schedule_all. rewrite Hcs.
  unfold bind at 1. cbn [array_method ret].
  destruct (schedule_tracks_sources (bpm st) (loadedSamples st) tracks Hb Hv Ho
              (mkAudioContext true [] (Some (2%nat, 352800, 44100))))
    as (c & E & S & _).
  rewrite E, S. reflexivity.
Qed.

(** What the offline rendering returns for a valid Sequence with
    ordinary file names at a tempo of the table. *)
Lemma render_offline_valid (mix : mixer) (st : state) :
  valid_sequence (currentSequence st) = true ->
  ordinary (currentSequence st) = true ->
  1 <= bpm st <= 734 ->
  exists sources,
    render_offline mix st = (Done (Normal (rendered mix st sources)), st).
Proof.
  intros Hv Ho Hb. unfold render_offline.
  unfold bind at 1. cbn [gets].
  assert (F : (offline_frames (bpm st) =? 0) = false).
  { rewrite (tempo_frames _ Hb). apply Z.eqb_neq.
    assert (1 <= 42336000 / bpm st); [ | lia ].
    apply Z.div_le_lower_bound; lia. }
  unfold bind at 1. unfold OfflineAudioContext.
  fold (offline_frames (bpm st)). rewrite F. cbn [ret].
  unfold bind at 1. cbn [gets].
  destruct (currentSequence st) as [ | | | | | tracks | ]; try discriminate.
  assert (Ht : forallb valid_track tracks = true)
    by (destruct tracks; [discriminate | exact Hv]).
  cbn [ordinary] in Ho.
  destruct (schedule_tracks_sources (bpm st) (loadedSamples st) tracks Hb Ht Ho
              (mkAudioContext true [] (Some (2%nat, offline_frames (bpm st), 44100))))
    as (c & Ec & _ & Rc).
  unfold bind at 1. cbn [gets].
  unfold bind at 1. unfold on_context, schedule_all.
  unfold bind at 1. cbn [array_method ret].
  rewrite Ec. unfold startRendering. rewrite Rc. cbn [ctx_render].
  unfold bind, gets, ret. exists (ctx_started c). reflexivity.
Qed.

Lemma playSample_render (loaded : gmap string AudioBuffer) (file : value)
  (time : float) (context : AudioContext) :
  ctx_render (snd (playSample loaded file time context)) = ctx_render context.
Proof.
  unfold playSample. unfold bind at 1. cbn [modify].
  set (c := if ctx_suspended context then resume context else context).
  assert (R : ctx_render c = ctx_render context)
    by (subst c; destruct context as [s l r], s, r; reflexivity).
  unfold bind, lift.
  destruct (Conv.ToString file) as [ key | e ]; [ | exact R ].
  destruct (loaded_get loaded key); [ | exact R .. ].
  unfold start.
  destruct (is_nan time || is_infinity time); [exact R | ].
  destruct (time <? 0)%float; exact R.
Qed.

Lemma forEach_render {A : Type} (f : A -> audio unit) (l : list A) :
  (forall x context, ctx_render (snd (f x context)) = ctx_render context) ->
  forall context, ctx_render (snd (forEach l f context)) = ctx_render context.
Proof.
  intros Hf. induction l as [ | x l IH ]; intros context; [reflexivity | ].
  cbn [forEach]. unfold bind. specialize (Hf x context).
  destruct (f x context) as [[[[] | e] | ] c']; cbn [snd] in *; try exact Hf.
  now rewrite IH.
Qed.

Lemma schedule_step_render (loaded : gmap string AudioBuffer) (timePerBeat : float)
  (step : value) (context : AudioContext) :
  ctx_render (snd (schedule_step loaded timePerBeat step context))
  = ctx_render context.
Proof.
  unfold schedule_step. unfold bind at 1. unfold lift at 1.
  destruct (Js.get step "file") as [ file | e ]; [ | reflexivity ].
  destruct (Js.truthy file); [ | reflexivity ].
  unfold bind at 1. unfold lift at 1.
  destruct (Js.get step "beat") as [ beat | e ]; [ | reflexivity ].
  unfold bind at 1. unfold lift at 1.
  destruct (Conv.ToNumber beat) as [ n | e ]; [ | reflexivity ].
  apply playSample_render.
Qed.

Lemma schedule_all_render (loaded : gmap string AudioBuffer) (timePerBeat : float)
  (sequence : value) (context : AudioContext) :
  ctx_render (snd (schedule_all loaded timePerBeat sequence context))
  = ctx_render context.
Proof.
  unfold schedule_all. unfold bind at 1.
  destruct sequence as [ | | | | | tracks | ]; try reflexivity.
  cbn [array_method ret]. apply forEach_render. clear. intros track context.
  unfold schedule_track. unfold bind at 1. unfold lift at 1.
  destruct (Js.get track "steps") as [ steps | e ]; [ | reflexivity ].
  unfold bind at 1.
  destruct steps as [ | | | | | arr | ]; try reflexivity.
  cbn [array_method ret]. apply forEach_render. apply schedule_step_render.
Qed.

(** The buffer of a rendering that completes, whatever the Sequence. *)
Lemma render_offline_buffer (mix : mixer) (st st' : state) (buffer : AudioBuffer) :
  render_offline mix st = (Done (Normal buffer), st') ->
  buf_length buffer = Z.to_nat (offline_frames (bpm st))
  /\ numberOfChannels buffer = 2%nat
  /\ buf_sampleRate buffer = 44100.
Proof.
  unfold render_offline. unfold bind at 1. cbn [gets].
  unfold bind at 1. unfold OfflineAudioContext.
  fold (offline_frames (bpm st)).
  destruct (offline_frames (bpm st) =? 0); [discriminate | ]. cbn [ret].
  unfold bind at 1. cbn [gets]. unfold bind at 1. cbn [gets].
  unfold bind at 1. unfold on_context.
  match goal with
  | |- context [schedule_all ?l ?t ?cs ?c] =>
      pose proof (schedule_all_render l t cs c) as R;
      destruct (schedule_all l t cs c) as [[[[] | e] | ] c']
  end; try discriminate.
  cbn [snd ctx_render] in R. unfold startRendering. rewrite R.
  unfold bind, gets, ret. intros [= <- _]. repeat split.
Qed.

(** C4 (as the code has it): at a tempo from 1 to 734, a rendering that
    returns a buffer returns a 2-channel, 44100 Hz buffer whose length in
    frames is [16 * 60 * 44100 / bpm] truncated to an integer; and the
    rendering does return a buffer for every valid Sequence whose file
    names are ordinary. *)
Theorem offline_length (mix : mixer) (st : state) :
  1 <= bpm st <= 734 ->
  (forall buffer st',
      render_offline mix st = (Done (Normal buffer), st') ->
      Z.of_nat (buf_length buffer) = 42336000 / bpm st
      /\ numberOfChannels buffer = 2%nat
      /\ buf_sampleRate buffer = 44100)
  /\ (valid_sequence (currentSequence st) = true ->
      ordinary (currentSequence st) = true ->
      exists buffer, render_offline mix st = (Done (Normal buffer), st)).
Proof.
  intros Hb. split.
  - intros buffer st' E.
    destruct (render_offline_buffer mix st st' buffer E) as (L & C & R).
    split; [ | split; assumption ].
    rewrite L, (tempo_frames _ Hb). apply Z2Nat.id. apply Z.div_pos; lia.
  - intros Hv Ho. destruct (render_offline_valid mix st Hv Ho Hb) as (sources & E).
    now exists (rendered mix st sources).
Qed.

Lemma offline_length_witness :
  exists buffer,
    render_offline silence kick_loaded = (Done (Normal buffer), kick_loaded)
    /\ Z.of_nat (buf_length buffer) = 42336000 / bpm kick_loaded
    /\ numberOfChannels buffer = 2%nat
    /\ buf_sampleRate buffer = 44100.
Proof.
  assert (Hb : 1 <= bpm kick_loaded <= 734) by (vm_compute; split; discriminate).
  destruct (offline_length silence kick_loaded Hb) as [G E].
  destruct E as (buffer & Eb); [vm_compute; reflexivity | vm_compute; reflexivity | ].
  exists buffer. split; [exact Eb | exact (G buffer kick_loaded Eb)].
Defined.

(** C4 as stated fails: at 130 beats per minute the buffer has 325661
    frames, the rounded duration has 325662. *)
Lemma offline_length_not_rounded :
  valid_sequence (currentSequence (set_bpm 130 kick_loaded)) = true
  /\ (exists buffer,
        fst (render_offline silence (set_bpm 130 kick_loaded)) = Done (Normal buffer)
        /\ Z.of_nat (buf_length buffer) = 325661)
  /\ round_frames 130 = 325662.
Proof.
  assert (V : valid_sequence (currentSequence (set_bpm 130 kick_loaded)) = true)
    by (vm_compute; reflexivity).
  assert (B : bpm (set_bpm 130 kick_loaded) = 130) by (vm_compute; reflexivity).
  split; [exact V | split; [ | reflexivity ]].
  destruct (render_offline_valid silence (set_bpm 130 kick_loaded) V) as (sources & E).
  { vm_compute. reflexivity. }
  { rewrite B. lia. }
  exists (rendered silence (set_bpm 130 kick_loaded) sources).
  rewrite E. split; [reflexivity | ].
  cbn [rendered buf_length]. rewrite B.
  rewrite (tempo_frames 130) by lia. reflexivity.
Qed.

Lemma bufferToWav_layout_witness :
  exists bytes,
    bufferToWav example_buffer = Done (Normal bytes)
    /\ Z.of_nat (length bytes) = 52
    /\ read_le 2 22 bytes = 2
    /\ read_le 4 24 bytes = 44100
    /\ read_le 4 28 bytes = 176400
    /\ read_le 2 32 bytes = 4.
Proof.
  destruct (bufferToWav_layout example_buffer)
    as (bytes & E & L & _ & _ & _ & _ & _ & _ & _ & F).
  destruct F as (F1 & F2 & F3 & F4); [reflexivity | split; [discriminate | reflexivity] | reflexivity | ].
  exists bytes. repeat split; assumption.
Defined.

(** ** What a computation keeps

    [stable P m]: whatever [m] does and however it completes, a state
    that satisfies [P] before satisfies [P] after. *)

Lemma stable_ret {A : Type} (P : state -> Prop) (a : A) : stable P (ret a).
Proof. intros st H. exact H. Qed.

Lemma stable_throw {A : Type} (P : state -> Prop) (e : error) :
  stable P (throw e : js A).
Proof. intros st H. exact H. Qed.

Lemma stable_lift {A : Type} (P : state -> Prop) (c : completion A) :
  stable P (lift c).
Proof. intros st H. exact H. Qed.

Lemma stable_lift_outcome {A : Type} (P : state -> Prop) (o : outcome A) :
  stable P (lift_outcome o).
Proof. intros st H. exact H. Qed.

Lemma stable_gets {A : Type} (P : state -> Prop) (f : state -> A) :
  stable P (gets f).
Proof. intros st H. exact H. Qed.

Lemma stable_modify (P : state -> Prop) (f : state -> state) :
  (forall st, P st -> P (f st)) -> stable P (modify f).
Proof. intros Hf st H. now apply Hf. Qed.

Lemma stable_bind {A B : Type} (P : state -> Prop) (m : js A) (k : A -> js B) :
  stable P m -> (forall a, stable P (k a)) -> stable P (bind m k).
Proof.
  intros Hm Hk st H. unfold bind. specialize (Hm st H).
  destruct (m st) as [[[a | e] | ] st']; cbn [snd] in *; [now apply Hk | exact Hm ..].
Qed.

Lemma stable_try_catch {A : Type} (P : state -> Prop) (m : js A)
  (h : error -> js A) :
  stable P m -> (forall e, stable P (h e)) -> stable P (try_catch m h).
Proof.
  intros Hm Hh st H. unfold try_catch. specialize (Hm st H).
  destruct (m st) as [[[a | e] | ] st']; cbn [snd] in *; [exact Hm | now apply Hh | exact Hm].
Qed.

Lemma stable_try_then {A B : Type} (P : state -> Prop) (m : js A)
  (h : error -> js B) (k : A -> js B) :
  stable P m -> (forall e, stable P (h e)) -> (forall a, stable P (k a)) ->
  stable P (try_then m h k).
Proof.
  intros Hm Hh Hk st H. unfold try_then. specialize (Hm st H).
  destruct (m st) as [[[a | e] | ] st']; cbn [snd] in *;
    [now apply Hk | now apply Hh | exact Hm].
Qed.

Lemma stable_try_finally {A : Type} (P : state -> Prop) (m : js A)
  (f : state -> state) :
  stable P m -> (forall st, P st -> P (f st)) -> stable P (try_finally m f).
Proof.
  intros Hm Hf st H. unfold try_finally. specialize (Hm st H).
  destruct (m st) as [r st']. cbn [snd] in *. now apply Hf.
Qed.

Lemma stable_when (P : state -> Prop) (b : bool) (m : js unit) :
  stable P m -> stable P (when b m).
Proof. intros Hm. destruct b; [exact Hm | apply stable_ret]. Qed.

Lemma stable_forEach {A : Type} (P : state -> Prop) (l : list A)
  (f : A -> js unit) :
  (forall x, stable P (f x)) -> stable P (forEach l f).
Proof.
  intros Hf. induction l as [ | x l IH ]; [apply stable_ret | ].
  cbn [forEach]. apply stable_bind; [apply Hf | intros _; exact IH].
Qed.

Lemma stable_mapM {A B : Type} (P : state -> Prop) (f : A -> js B) (l : list A) :
  (forall x, stable P (f x)) -> stable P (mapM f l).
Proof.
  intros Hf. induction l as [ | x l IH ]; [apply stable_ret | ].
  cbn [mapM]. apply stable_bind; [apply Hf | intros y ].
  apply stable_bind; [exact IH | intros ys; apply stable_ret].
Qed.

Lemma stable_flatMapM {A B : Type} (P : state -> Prop) (f : A -> js (list B))
  (l : list A) :
  (forall x, stable P (f x)) -> stable P (flatMapM f l).
Proof.
  intros Hf. unfold flatMapM.
  apply stable_bind; [now apply stable_mapM | intros yss; apply stable_ret].
Qed.

Lemma stable_foldM {A B : Type} (P : state -> Prop) (f : B -> A -> js B)
  (l : list A) (acc : B) :
  (forall b x, stable P (f b x)) -> stable P (foldM f l acc).
Proof.
  intros Hf. revert acc. induction l as [ | x l IH ]; intros acc; [apply stable_ret | ].
  cbn [foldM]. apply stable_bind; [apply Hf | intros acc'; apply IH].
Qed.

Lemma stable_findM (P : state -> Prop) (p : value -> js bool) (l : list value) :
  (forall x, stable P (p x)) -> stable P (findM p l).
Proof.
  intros Hp. induction l as [ | x l IH ]; [apply stable_ret | ].
  cbn [findM]. apply stable_bind; [apply Hp | intros [ | ]; [apply stable_ret | exact IH]].
Qed.

Lemma stable_array_method (P : state -> Prop) (v : value) :
  stable P (array_method v : js (list value)).
Proof. destruct v; first [apply stable_ret | apply stable_throw]. Qed.

Lemma stable_live {A : Type} (P : state -> Prop) (m : audio A) :
  (forall context st, P st -> P (set_audioContext context st)) ->
  stable P (live m).
Proof.
  intros H st HP. unfold live. destruct (m (audioContext st)) as [r context].
  now apply H.
Qed.

Lemma stable_on_context (P : state -> Prop) (context : AudioContext)
  (m : audio unit) :
  stable P (on_context context m).
Proof.
  intros st HP. unfold on_context.
  now destruct (m context) as [[[[] | e] | ] context'].
Qed.

(** One step of a proof that a function of the script is [stable]:
    [side] proves that a field update keeps the property. *)
Ltac stable_step side :=
  first
    [ apply stable_ret | apply stable_throw | apply stable_lift
    | apply stable_lift_outcome | apply stable_gets | apply stable_array_method
    | apply stable_on_context
    | apply stable_live; intros ?; side
    | apply stable_bind; [ | intros ? ]
    | apply stable_forEach; intros ?
    | apply stable_flatMapM; intros ?
    | apply stable_mapM; intros ?
    | apply stable_foldM; intros ? ?
    | apply stable_findM; intros ?
    | apply stable_try_catch; [ | intros ? ]
    | apply stable_try_then; [ | intros ? | intros ? ]
    | apply stable_try_finally; [ | side ]
    | apply stable_when
    | apply stable_modify; side
    | progress cbv zeta
    | match goal with
      | |- stable _ (if ?b then _ else _) => destruct b
      | |- stable _ (match ?x with _ => _ end) => destruct x
      end ].

Ltac stable_script side :=
  repeat first
    [ stable_step side
    | progress unfold loadDatabase, togglePlayback, setInterval, clearInterval,
        tick, tick_track, getAIResponse, findSamples,
        fetch_generate, generation_failed, loadSamplesForSequence, step_files,
        renderRecipe, renderBeatToWav, render_offline, OfflineAudioContext,
        startRendering, bpmSlider_input, handle ].

(** A field update that does not write what [P] reads. *)
Ltac untouched :=
  let st := fresh "st" in
  intros st; destruct st; cbn -[lookup insert delete];
  repeat match goal with
         | |- context [if ?b then _ else _] => destruct b
         end;
  exact (fun H => H).

Lemma stable_projection {A X : Type} (proj : state -> X) (P : state -> Prop)
  (m : js A) :
  (forall x, stable (fun st => proj st = x) m) ->
  (forall st st', proj st' = proj st -> P st -> P st') ->
  stable P m.
Proof.
  intros Hm HP st H. apply (HP st); [ | exact H ].
  now apply (Hm (proj st) st).
Qed.

Lemma scheduler_inv_playback (st st' : state) :
  playback st' = playback st -> scheduler_inv st -> scheduler_inv st'.
Proof.
  unfold playback, scheduler_inv. intros E.
  injection E as -> -> -> ->. exact (fun H => H).
Qed.

Lemma getAIResponse_keeps_playback (env : gen_env) (x : _) :
  stable (fun st => playback st = x) (getAIResponse env).
Proof. stable_script untouched. Qed.

Lemma renderBeatToWav_keeps_playback (mix : mixer) (x : _) :
  stable (fun st => playback st = x) (renderBeatToWav mix).
Proof. stable_script untouched. Qed.

Lemma loadDatabase_keeps_playback (response : option string) (x : _) :
  stable (fun st => playback st = x) (loadDatabase response).
Proof. stable_script untouched. Qed.

Lemma tick_track_keeps_playback (beat : Z) (time : float) (track : value) (x : _) :
  stable (fun st => playback st = x) (tick_track beat time track).
Proof. stable_script untouched. Qed.

Lemma togglePlayback_guard (st : state) :
  has_length st = false -> snd (togglePlayback st) = st.
Proof.
  unfold has_length, togglePlayback, bind, gets, lift. intros H.
  destruct (Js.get (currentSequence st) "length") as [ len | e ]; [ | reflexivity ].
  now rewrite H.
Qed.

Lemma togglePlayback_keeps_inv : stable scheduler_inv togglePlayback.
Proof.
  intros st H. destruct (has_length st) eqn:L.
  2:{ now rewrite togglePlayback_guard. }
  unfold scheduler_inv in H. destruct (isPlaying st) eqn:P.
  - rewrite (togglePlayback_stop st L P). cbn [snd].
    destruct st as [b ip si db ls cs stx pbt bvt aid ddd ro tm nt ac rq dl co].
    cbn in H, P. unfold scheduler_inv. cbn -[lookup insert delete].
    destruct si as [ id | ]; [ | destruct H as [H _]; discriminate H ].
    destruct H as (_ & _ & t & -> & _).
    destruct (ctx_suspended ac); cbn; split; try reflexivity; apply delete_singleton_eq.
  - rewrite (togglePlayback_start st L P). cbn [snd].
    destruct st as [b ip si db ls cs stx pbt bvt aid ddd ro tm nt ac rq dl co].
    cbn in H, P. unfold scheduler_inv. cbn -[lookup insert delete].
    destruct si as [ id | ]; [ destruct H as [H _]; discriminate H | ].
    destruct H as (_ & ->).
    destruct (ctx_suspended ac); cbn -[insert]; repeat split; try lia;
      eexists; (split; [apply insert_empty | cbn; lia]).
Qed.

Lemma tick_keeps_inv (id : nat) (time : float) : stable scheduler_inv (tick id time).
Proof.
  intros st H. unfold tick. unfold bind at 1. cbn [gets].
  destruct (timers st !! id) as [ t | ] eqn:Ht; [ | exact H ].
  unfold bind at 1. cbn [gets]. unfold bind at 1.
  destruct (array_method (currentSequence st) st) as [[[tracks | e] | ] st0] eqn:Ea.
  all: assert (st0 = st)
    by (apply (f_equal snd) in Ea; cbn [snd] in Ea; subst st0;
        now destruct (currentSequence st)).
  all: subst st0; clear Ea.
  2,3: exact H.
  assert (K : playback (snd (forEach tracks (tick_track (currentBeat t) time) st))
              = playback st).
  { apply (stable_forEach (fun s => playback s = playback st));
      [intros track; apply tick_track_keeps_playback | reflexivity]. }
  unfold bind.
  destruct (forEach tracks (tick_track (currentBeat t) time) st)
    as [[[[] | e] | ] st1]; cbn [snd] in *;
    try exact (scheduler_inv_playback st st1 K H).
  unfold modify. cbn [snd].
  unfold playback in K. injection K as K1 K2 K3 K4.
  unfold scheduler_inv in *.
  destruct st as [b ip si db ls cs stx pbt bvt aid ddd ro tm nt ac rq dl co].
  destruct st1 as [b1 ip1 si1 db1 ls1 cs1 stx1 pbt1 bvt1 aid1 ddd1 ro1 tm1 nt1 ac1 rq1 dl1 co1].
  cbn -[lookup insert delete Z.modulo] in *. subst.
  destruct si as [ id0 | ].
  - destruct H as (P & L & t0 & -> & R).
    apply lookup_singleton_Some in Ht as [<- <-].
    repeat split; try assumption.
    eexists. split; [apply insert_singleton_eq | ].
    cbn [currentBeat]. unfold totalBeats. apply Z.mod_pos_bound. lia.
  - destruct H as (_ & ->). rewrite lookup_empty in Ht. discriminate.
Qed.

Lemma bpmSlider_input_keeps_inv (value : Z) :
  stable scheduler_inv (bpmSlider_input value).
Proof.
  unfold bpmSlider_input.
  apply stable_bind; [apply stable_modify; intros []; exact (fun H => H) | intros _].
  apply stable_bind; [apply stable_modify; intros []; exact (fun H => H) | intros _].
  apply stable_bind; [apply stable_gets | intros playing].
  apply stable_when.
  apply stable_bind; [ | intros _ ]; apply togglePlayback_keeps_inv.
Qed.

Lemma handle_keeps_inv (e : event) : stable scheduler_inv (handle e).
Proof.
  destruct e as [ | env | mix | value | id time ]; cbn [handle].
  - apply togglePlayback_keeps_inv.
  - apply stable_bind; [apply stable_gets | intros [ | ]; [apply stable_ret | ] ].
    apply (stable_projection playback);
      [apply getAIResponse_keeps_playback | apply scheduler_inv_playback].
  - apply stable_bind; [apply stable_gets | intros [ | ]; [apply stable_ret | ] ].
    apply (stable_projection playback);
      [apply renderBeatToWav_keeps_playback | apply scheduler_inv_playback].
  - apply bpmSlider_input_keeps_inv.
  - apply tick_keeps_inv.
Qed.

(** A property of the page at load that every listener keeps holds in
    every reachable state. *)
Lemma reachable_ind (P : state -> Prop) :
  (forall database, P (snd (loadDatabase database initial))) ->
  (forall e, stable P (handle e)) ->
  forall st, reachable st -> P st.
Proof.
  intros H0 Hstep st (database & events & ->). unfold run.
  generalize (H0 database). generalize (snd (loadDatabase database initial)).
  induction events as [ | e events IH ]; intros s Hs; [exact Hs | ].
  cbn [fold_left]. apply IH. now apply Hstep.
Qed.

(** In every state the page can reach, the playing flag, the timer the
    script remembers and the timers that exist agree: while playing
    there is exactly one timer, the remembered one, with its beat
    counter from 0 to 15; while stopped there is none.  No click or
    slider input leaves a timer running that the script has lost. *)
Theorem scheduler_invariant (st : state) : reachable st -> scheduler_inv st.
Proof.
  apply reachable_ind; [ | apply handle_keeps_inv ].
  intros database.
  apply (stable_projection playback scheduler_inv (loadDatabase database));
    [apply loadDatabase_keeps_playback | apply scheduler_inv_playback | ].
  split; reflexivity.
Qed.

(** A tick that completes has advanced the counter of its timer; one
    that throws has left every timer as it was. *)
Lemma tick_timers (id : nat) (time : float) (t : interval) (st : state) :
  timers st !! id = Some t ->
  timers (snd (tick id time st))
  = match fst (tick id time st) with
    | Done (Normal _) =>
        <[id := mkInterval ((currentBeat t + 1) mod totalBeats) (delay t)]> (timers st)
    | _ => timers st
    end.
Proof.
  intros Ht.
  assert (S : forall tracks,
             stable (fun s => timers s = timers st)
               (forEach tracks (tick_track (currentBeat t) time)))
    by (intros tracks; stable_script untouched).
  unfold tick, bind, gets. rewrite Ht.
  destruct (currentSequence st) as [ | | | | | tracks | ]; try reflexivity.
  cbn [array_method ret]. specialize (S tracks st eq_refl).
  destruct (forEach tracks (tick_track (currentBeat t) time) st) as [[[[] | e] | ] s'];
    cbn [fst snd modify] in *; try exact S.
  destruct s'; cbn in *. now rewrite S.
Qed.

(** Where the beat counter starts and how it moves: with a Sequence to
    play, starting playback creates a timer whose beat counter is 0 at
    the current tempo; stopping removes the running timer; a tempo
    change while playing removes the running timer and creates one whose
    beat counter is 0 at the new tempo; and a tick that completes moves
    the beat counter of its timer from [b] to [(b + 1) mod 16], which
    every tick over a Sequence of well-shaped tracks with ordinary file
    names does. *)
Theorem beat_counter (st : state) (value : Z) (id : nat) (t : interval)
  (time : float) :
  has_length st = true ->
  (isPlaying st = false ->
   isPlaying (snd (togglePlayback st)) = true
   /\ sequencerInterval (snd (togglePlayback st)) = Some (nextTimerId st)
   /\ timers (snd (togglePlayback st)) !! nextTimerId st
      = Some (mkInterval 0 (60 / JsNum.of_Z (bpm st) * 1000)%float))
  /\ (isPlaying st = true ->
      isPlaying (snd (togglePlayback st)) = false
      /\ sequencerInterval (snd (togglePlayback st)) = None
      /\ forall i, sequencerInterval st = Some i ->
                   timers (snd (togglePlayback st)) !! i = None)
  /\ (isPlaying st = true ->
      isPlaying (snd (bpmSlider_input value st)) = true
      /\ sequencerInterval (snd (bpmSlider_input value st)) = Some (nextTimerId st)
      /\ timers (snd (bpmSlider_input value st)) !! nextTimerId st
         = Some (mkInterval 0 (60 / JsNum.of_Z value * 1000)%float)
      /\ forall i, sequencerInterval st = Some i -> i <> nextTimerId st ->
                   timers (snd (bpmSlider_input value st)) !! i = None)
  /\ (timers st !! id = Some t ->
      (fst (tick id time st) = Done (Normal tt) ->
       timers (snd (tick id time st)) !! id
       = Some (mkInterval ((currentBeat t + 1) mod 16) (delay t)))
      /\ (shaped (currentSequence st) = true ->
          ordinary (currentSequence st) = true ->
          clock_time time = true ->
          fst (tick id time st) = Done (Normal tt))).
Proof.
  intros Hlen. repeat apply conj.
  - intros Hplay. rewrite (togglePlayback_start st Hlen Hplay). cbn [snd].
    destruct st as [b ip si db ls cs stx pbt bvt aid ddd ro tm nt ac rq dl co].
    cbn -[lookup insert delete].
    destruct (ctx_suspended ac); cbn -[lookup insert delete];
      repeat split; try reflexivity; apply lookup_insert_eq.
  - intros Hplay. rewrite (togglePlayback_stop st Hlen Hplay). cbn [snd].
    destruct st as [b ip si db ls cs stx pbt bvt aid ddd ro tm nt ac rq dl co].
    cbn -[lookup insert delete].
    destruct (ctx_suspended ac); cbn -[lookup insert delete];
      repeat split; try reflexivity; intros i ->; apply lookup_delete_eq.
  - intros Hplay.
    destruct (bpmSlider_input_restarts value st Hlen Hplay)
      as (st' & E & _ & P & S & T).
    rewrite E. cbn [snd]. rewrite P, S, T. repeat split.
    + apply lookup_insert_eq.
    + intros i -> Hne. rewrite lookup_insert_ne by congruence.
      apply lookup_delete_eq.
  - intros Ht. split.
    + intros Hn. rewrite (tick_timers id time t st Ht), Hn.
      apply lookup_insert_eq.
    + intros Hs Ho Hc.
      destruct (tick_advances id time t st Ht Hs Ho Hc) as (context' & E).
      now rewrite E.
Qed.

Lemma beat_counter_witness :
  has_length duplicate_played = true
  /\ isPlaying duplicate_played = true
  /\ timers duplicate_played !! 1%nat = Some (mkInterval 4 500)
  /\ timers (snd (bpmSlider_input 90 duplicate_played)) !! 2%nat
     = Some (mkInterval 0 (60 / JsNum.of_Z 90 * 1000)%float)
  /\ timers (snd (tick 1 2 duplicate_played)) !! 1%nat
     = Some (mkInterval ((4 + 1) mod 16) 500).
Proof.
  assert (L : has_length duplicate_played = true) by (vm_compute; reflexivity).
  assert (P : isPlaying duplicate_played = true) by (vm_compute; reflexivity).
  assert (T : timers duplicate_played !! 1%nat = Some (mkInterval 4 500))
    by (vm_compute; reflexivity).
  destruct (beat_counter duplicate_played 90 1%nat (mkInterval 4 500) 2%float L)
    as (_ & _ & R & K).
  destruct (R P) as (_ & _ & R3 & _).
  destruct (K T) as (K1 & K2).
  assert (N : fst (tick 1 2 duplicate_played) = Done (Normal tt))
    by (apply K2; vm_compute; reflexivity).
  split; [exact L | ]. split; [exact P | ]. split; [exact T | ].
  split; [exact R3 | exact (K1 N)].
Defined.

(** C9: while the scheduler runs, the beat counter is to advance by 1
    modulo 16 after every tick.  The code increments it in the last line
    of the timer's callback, so a tick that throws leaves it where it
    was.  Over a Sequence of the data model whose step names the file
    [constructor], the tick of that step's beat throws at
    [source.buffer] and the timer is on beat 0 after it as before it,
    also after three ticks; after the answer of C7 every tick throws at
    [track.steps], with the same effect. *)
Theorem beat_counter_stalls :
  (valid_sequence (currentSequence inherited_name) = true
   /\ timers inherited_name !! 1%nat = Some (mkInterval 0 500)
   /\ fst (tick 1 0 inherited_name) = Done (Throw TypeError)
   /\ timers (snd (tick 1 0 inherited_name)) !! 1%nat = Some (mkInterval 0 500)
   /\ timers (fold_left step [TimerFire 1 0; TimerFire 1 0.5; TimerFire 1 1]%float
                 inherited_name) !! 1%nat
      = Some (mkInterval 0 500))
  /\ (timers stalled !! 1%nat = Some (mkInterval 0 500)
      /\ fst (tick 1 0 stalled) = Done (Throw TypeError)
      /\ timers (snd (tick 1 0 stalled)) !! 1%nat = Some (mkInterval 0 500)).
Proof. repeat split; vm_compute; reflexivity. Qed.

Lemma tick_state (id : nat) (time : float) (t : interval) (st : state) :
  timers st !! id = Some t ->
  shaped (currentSequence st) = true -> ordinary (currentSequence st) = true ->
  clock_time time = true ->
  currentSequence (step st (TimerFire id time)) = currentSequence st
  /\ timers (step st (TimerFire id time)) !! id
     = Some (mkInterval ((currentBeat t + 1) mod totalBeats) (delay t)).
Proof.
  intros Ht Hs Ho Hc. unfold step. cbn [handle].
  destruct (tick_advances id time t st Ht Hs Ho Hc) as (context' & E).
  rewrite E. cbn [snd].
  destruct st as [b ip si db ls cs stx pbt bvt aid ddd ro tm nt ac rq dl co].
  cbn -[lookup insert Z.modulo] in *. split; [reflexivity | apply lookup_insert_eq].
Qed.

Lemma ticks_count (id : nat) (times : list float) :
  forall (st : state) (t : interval),
    timers st !! id = Some t ->
    0 <= currentBeat t < 16 ->
    shaped (currentSequence st) = true ->
    ordinary (currentSequence st) = true ->
    forallb clock_time times = true ->
    timers (fold_left step (map (TimerFire id) times) st) !! id
    = Some (mkInterval ((currentBeat t + Z.of_nat (length times)) mod 16) (delay t)).
Proof.
  induction times as [ | time times IH ]; intros st t Ht Hr Hs Ho Hc.
  - cbn [map fold_left length]. rewrite Ht. destruct t as [b d].
    cbn [currentBeat delay] in *. do 2 f_equal.
    rewrite Z.add_0_r, Z.mod_small; lia.
  - cbn [forallb] in Hc. apply andb_true_iff in Hc as [H1 H2].
    cbn [map fold_left].
    destruct (tick_state id time t st Ht Hs Ho H1) as (Hcs & Ht').
    rewrite (IH _ _ Ht'); [ | | now rewrite Hcs | now rewrite Hcs | exact H2 ].
    + cbn [currentBeat delay length]. do 2 f_equal.
      unfold totalBeats. rewrite Nat2Z.inj_succ, Zplus_mod_idemp_l. f_equal. lia.
    + cbn [currentBeat]. unfold totalBeats. apply Z.mod_pos_bound. lia.
Qed.

(** One loop: over a Sequence of well-shaped tracks with ordinary file
    names, where every tick completes, sixteen ticks bring the beat
    counter back to where it was, and [n] ticks move it by [n] modulo
    16. *)
Theorem beat_loop (id : nat) (times : list float) (st : state) (t : interval) :
  timers st !! id = Some t ->
  0 <= currentBeat t < 16 ->
  shaped (currentSequence st) = true ->
  ordinary (currentSequence st) = true ->
  forallb clock_time times = true ->
  timers (fold_left step (map (TimerFire id) times) st) !! id
  = Some (mkInterval ((currentBeat t + Z.of_nat (length times)) mod 16) (delay t))
  /\ (length times = 16%nat ->
      timers (fold_left step (map (TimerFire id) times) st) !! id = Some t).
Proof.
  intros Ht Hr Hs Ho Hc. pose proof (ticks_count id times st t Ht Hr Hs Ho Hc) as E.
  split; [exact E | ]. intros L. rewrite E, L. destruct t as [b d].
  cbn [currentBeat delay] in *. do 2 f_equal.
  change (Z.of_nat 16) with (1 * 16). rewrite Z.mod_add, Z.mod_small; lia.
Qed.

Lemma beat_loop_witness :
  timers (fold_left step
            (map (TimerFire 1) (repeat 1%float 16)) duplicate_played) !! 1%nat
  = Some (mkInterval 4 500).
Proof.
  apply (beat_loop 1 (repeat 1%float 16) duplicate_played (mkInterval 4 500)).
  - vm_compute; reflexivity.
  - cbn; lia.
  - vm_compute; reflexivity.
  - vm_compute; reflexivity.
  - vm_compute; reflexivity.
  - reflexivity.
Defined.

Lemma insert_by_perm {A : Type} (first : A -> A -> bool) (x : A) (l : list A) :
  insert_by first x l ≡ₚ x :: l.
Proof.
  induction l as [ | y l IH ]; [reflexivity | ].
  cbn [insert_by]. destruct (first x y); [reflexivity | ].
  rewrite IH. apply perm_swap.
Qed.

Lemma sort_by_perm {A : Type} (first : A -> A -> bool) (l : list A) :
  sort_by first l ≡ₚ l.
Proof.
  induction l as [ | x l IH ]; [reflexivity | ].
  cbn [sort_by fold_right]. fold (sort_by first l).
  rewrite insert_by_perm. now rewrite IH.
Qed.

(** [findSamples] returns at most [count] filenames, as many as there are
    entries in the category up to [count], each the filename of such an
    entry, whatever order the random comparator produces; the state is
    not touched. *)
Theorem findSamples_result (random : sample -> sample -> bool) (term : string)
  (count : nat) (st : state) :
  exists names,
    findSamples random term count st = (Done (Normal names), st)
    /\ length names
       = Nat.min count (length (filter (in_category term) (sampleDatabase st)))
    /\ forall name, In name names ->
         exists s, In s (sampleDatabase st)
                   /\ in_category term s = true /\ filename s = name.
Proof.
  eexists. split; [reflexivity | ]. split.
  - rewrite length_map, length_take.
    now rewrite (Permutation_length (sort_by_perm random _)).
  - intros name H. apply in_map_iff in H as (s & <- & H).
    exists s. apply list_elem_of_In, elem_of_take in H as (i & H & _).
    apply list_elem_of_lookup_2 in H.
    rewrite (sort_by_perm random _) in H.
    apply list_elem_of_filter in H as [H1 H2].
    apply Is_true_true in H1. apply list_elem_of_In in H2. auto.
Qed.

Lemma after_last_close_closing (mid post : string) (c : ascii) :
  is_close c = true -> has is_close post = false ->
  after_last_close (mid +:+ String c post) = Some post.
Proof.
  intros Hc Hp. induction mid as [ | d mid IH ].
  - change (after_last_close (String c post) = Some post).
    cbn [after_last_close]. apply after_last_close_None in Hp. now rewrite Hp, Hc.
  - change (after_last_close (String d (mid +:+ String c post)) = Some post).
    cbn [after_last_close]. now rewrite IH.
Qed.

Lemma String_match_prose (pre post mid : string) (o c : ascii) :
  is_open o = true -> is_close c = true ->
  has is_open pre = false -> has is_close post = false ->
  Regex.String_match jsonRegex (pre +:+ String o (mid +:+ String c post))
  = Some (String o (mid +:+ String c EmptyString)).
Proof.
  intros Ho Hc Hpre Hpost. induction pre as [ | p pre IH ].
  - change (Regex.String_match jsonRegex (String o (mid +:+ String c post))
            = Some (String o (mid +:+ String c EmptyString))).
    cbn [Regex.String_match]. rewrite match_here_open, Ho.
    rewrite (after_last_close_closing mid post c Hc Hpost). f_equal.
    replace (String o (mid +:+ String c post))
      with (String o (mid +:+ String c EmptyString) +:+ post).
    + apply take_prefix.
    + change (String o ((mid +:+ String c EmptyString) +:+ post)
              = String o (mid +:+ String c post)).
      now rewrite append_last.
  - cbn [has] in Hpre. apply orb_false_iff in Hpre as [Hp Hpre].
    change (Regex.String_match jsonRegex
              (String p (pre +:+ String o (mid +:+ String c post)))
            = Some (String o (mid +:+ String c EmptyString))).
    cbn [Regex.String_match]. rewrite match_here_open, Hp. now apply IH.
Qed.

(** Prose without brackets around the answer is ignored: the value is the
    one [JSON.parse] gives for the bracketed part alone. *)
Theorem extractJson_ignores_prose (pre post mid : string) (o c : ascii) :
  is_open o = true -> is_close c = true ->
  has is_open pre = false -> has is_close post = false ->
  extractJson (VStr (pre +:+ String o (mid +:+ String c post)))
  = Json.parse (String o (mid +:+ String c EmptyString)).
Proof.
  intros Ho Hc Hpre Hpost. cbn [extractJson].
  now rewrite (String_match_prose pre post mid o c Ho Hc Hpre Hpost).
Qed.

Lemma extractJson_ignores_prose_witness :
  extractJson (VStr ("Here you go: " +:+ String "[" ("1, 2" +:+ String "]" " Enjoy!")))
  = Json.parse (String "[" ("1, 2" +:+ String "]" EmptyString)).
Proof.
  apply (extractJson_ignores_prose "Here you go: " " Enjoy!" "1, 2" "[" "]");
    reflexivity.
Defined.

Lemma scheduler_invariant_witness :
  reachable duplicate_played /\ scheduler_inv duplicate_played.
Proof.
  assert (R : reachable duplicate_played).
  { exists (Some example_csv),
      [AiClick (answering duplicate_beat); PlayClick; TimerFire 1 0;
       TimerFire 1 0.5; TimerFire 1 1; TimerFire 1 1.5]%float.
    reflexivity. }
  split; [exact R | exact (scheduler_invariant duplicate_played R)].
Defined.

Lemma finishes_ret {S A : Type} (a : A) : finishes (ret a : M S A).
Proof. intros st. now eexists. Qed.

Lemma finishes_throw {S A : Type} (e : error) : finishes (throw e : M S A).
Proof. intros st. now eexists. Qed.

Lemma finishes_lift {S A : Type} (c : completion A) : finishes (lift c : M S A).
Proof. intros st. now eexists. Qed.

Lemma finishes_gets {S A : Type} (f : S -> A) : finishes (gets f).
Proof. intros st. now eexists. Qed.

Lemma finishes_modify {S : Type} (f : S -> S) : finishes (modify f).
Proof. intros st. now eexists. Qed.

Lemma finishes_bind {S A B : Type} (m : M S A) (k : A -> M S B) :
  finishes m -> (forall a, finishes (k a)) -> finishes (bind m k).
Proof.
  intros Hm Hk st. unfold bind. destruct (Hm st) as (c & E).
  destruct (m st) as [r st']. cbn [fst] in E. subst r.
  destruct c as [ a | e ]; [apply Hk | now eexists].
Qed.

Lemma finishes_try_catch {S A : Type} (m : M S A) (h : error -> M S A) :
  finishes m -> (forall e, finishes (h e)) -> finishes (try_catch m h).
Proof.
  intros Hm Hh st. unfold try_catch. destruct (Hm st) as (c & E).
  destruct (m st) as [r st']. cbn [fst] in E. subst r.
  destruct c as [ a | e ]; [now eexists | apply Hh].
Qed.

Lemma finishes_try_then {S A B : Type} (m : M S A) (h : error -> M S B)
  (k : A -> M S B) :
  finishes m -> (forall e, finishes (h e)) -> (forall a, finishes (k a)) ->
  finishes (try_then m h k).
Proof.
  intros Hm Hh Hk st. unfold try_then. destruct (Hm st) as (c & E).
  destruct (m st) as [r st']. cbn [fst] in E. subst r.
  destruct c as [ a | e ]; [apply Hk | apply Hh].
Qed.

Lemma finishes_forEach {S A : Type} (l : list A) (f : A -> M S unit) :
  (forall x, finishes (f x)) -> finishes (forEach l f).
Proof.
  intros Hf. induction l as [ | x l IH ]; [apply finishes_ret | ].
  cbn [forEach]. apply finishes_bind; [apply Hf | intros _; exact IH].
Qed.

Lemma finishes_mapM {S A B : Type} (f : A -> M S B) (l : list A) :
  (forall x, finishes (f x)) -> finishes (mapM f l).
Proof.
  intros Hf. induction l as [ | x l IH ]; [apply finishes_ret | ].
  cbn [mapM]. apply finishes_bind; [apply Hf | intros y ].
  apply finishes_bind; [exact IH | intros ys; apply finishes_ret].
Qed.

Lemma finishes_flatMapM {S A B : Type} (f : A -> M S (list B)) (l : list A) :
  (forall x, finishes (f x)) -> finishes (flatMapM f l).
Proof.
  intros Hf. unfold flatMapM.
  apply finishes_bind; [now apply finishes_mapM | intros yss; apply finishes_ret].
Qed.

Lemma finishes_array_method {S : Type} (v : value) :
  finishes (array_method v : M S (list value)).
Proof. destruct v; first [apply finishes_ret | apply finishes_throw]. Qed.

Ltac finishes_script :=
  repeat first
    [ apply finishes_ret | apply finishes_throw | apply finishes_lift
    | apply finishes_gets | apply finishes_modify | apply finishes_array_method
    | apply finishes_bind; [ | intros ? ]
    | apply finishes_forEach; intros ?
    | apply finishes_flatMapM; intros ?
    | apply finishes_mapM; intros ?
    | apply finishes_try_catch; [ | intros ? ]
    | apply finishes_try_then; [ | intros ? | intros ? ]
    | progress cbv zeta
    | match goal with
      | |- finishes (if ?b then _ else _) => destruct b
      | |- finishes (match ?x with _ => _ end) => destruct x
      end
    | progress unfold fetch_generate, generation_failed, loadSamplesForSequence,
        step_files, renderRecipe ].

Lemma try_catch_unit (m : js unit) (h : error -> js unit) (st : state) :
  finishes m -> (forall e s, fst (h e s) = Done (Normal tt)) ->
  fst (try_catch m h st) = Done (Normal tt).
Proof.
  intros Hm Hh. unfold try_catch. destruct (Hm st) as (c & E).
  destruct (m st) as [r st']. cbn [fst] in E. subst r.
  destruct c as [ [] | e ]; [reflexivity | apply Hh].
Qed.

Lemma drawn_none (random : sample -> sample -> bool) (db : list sample) :
  (length (map filename
             (take 5 (sort_by random (filter (in_category "Drums") db))))
   =? 0)%nat
  = match filter (in_category "Drums") db with
    | [] => true
    | _ :: _ => false
    end.
Proof.
  rewrite length_map, length_take,
    (Permutation_length (sort_by_perm random _)).
  now destruct (filter _ _).
Qed.

Lemma generation_failed_fst (raw : value) (e : error) (st : state) :
  fst (generation_failed raw e st)
  = Done (match Conv.ToString raw with
          | Normal _ => Normal tt
          | Throw e' => Throw e'
          end).
Proof.
  unfold generation_failed, bind, modify, lift.
  now destruct (Conv.ToString raw).
Qed.

(** [getAIResponse] never hangs and leaves the generate button enabled.
    It completes normally, except when the catalog has drums and the
    [response] of the service's answer is a value whose conversion to
    text throws: such a value is no string, the extraction throws, and
    the last line of the [catch] block throws in its turn. *)
Theorem getAIResponse_completes (env : gen_env) (st : state) :
  fst (getAIResponse env st)
  = Done (if has_drums st then written (generate env) else Normal tt)
  /\ aiButtonDisabled (snd (getAIResponse env st)) = false.
Proof.
  unfold getAIResponse, has_drums.
  destruct st as [b ip si db ls cs stx pbt bvt aid ddd ro tm nt ac rq dl co].
  unfold findSamples. cbn [bind modify gets ret set_statusText set_aiButtonDisabled
                                set_downloadButtonDisabled sampleDatabase].
  rewrite !drawn_none.
  destruct (filter (in_category "Drums") db) as [ | s0 l0 ]; [split; reflexivity | ].
  cbn [orb]. cbv zeta. cbn [bind modify set_statusText].
  unfold try_finally.
  match goal with
  | |- context [try_then ?m ?h ?k ?s] =>
      enough (T : fst (try_then m h k s) = Done (written (generate env)));
      [ destruct (try_then m h k s) as [r s']; cbn [fst snd] in *;
        split; [exact T | now destruct s']
      | ]
  end.
  unfold try_then, fetch_generate, written. unfold bind at 1. cbn [modify].
  destruct (generate env) as [ | status | | data ];
    try (cbn [throw]; now rewrite generation_failed_fst).
  cbn [lift].
  destruct (Js.get data "response") as [ raw | e1 ];
    [ | now rewrite generation_failed_fst ].
  destruct (Conv.ToString raw) as [ text | e' ] eqn:E.
  - apply try_catch_unit; [finishes_script | ].
    intros e s. now rewrite generation_failed_fst, E.
  - unfold try_catch. unfold bind at 1.
    destruct raw; try discriminate;
      cbn [lift extractJson]; now rewrite generation_failed_fst, E.
Qed.

(** An attempt that fails before a sequence is extracted (no drum
    samples, the service unreachable or answering with an error status or
    a body that is not JSON, no JSON in the answer, JSON that does not
    parse, no [tracks]) keeps the current Sequence and the sample cache,
    sends no sample request, leaves the download button disabled and
    shows the error status. *)
Theorem failed_extraction_keeps_sequence (env : gen_env) (st : state) (e : error) :
  extraction (generate env) = Throw e ->
  currentSequence (snd (getAIResponse env st)) = currentSequence st
  /\ loadedSamples (snd (getAIResponse env st)) = loadedSamples st
  /\ downloadButtonDisabled (snd (getAIResponse env st)) = true
  /\ statusText (snd (getAIResponse env st))
     = (if has_drums st
        then "Error: Could not get a valid response from the AI."
        else "Error: Not enough drum samples found in the database.")
  /\ length (requests (snd (getAIResponse env st)))
     = (length (requests st) + (if has_drums st then 1 else 0))%nat.
Proof.
  intros H.
  enough (X : forall r, r = getAIResponse env st ->
            currentSequence (snd r) = currentSequence st
            /\ loadedSamples (snd r) = loadedSamples st
            /\ downloadButtonDisabled (snd r) = true
            /\ statusText (snd r)
               = (if has_drums st
                  then "Error: Could not get a valid response from the AI."
                  else "Error: Not enough drum samples found in the database.")
            /\ length (requests (snd r))
               = (length (requests st) + (if has_drums st then 1 else 0))%nat)
    by (apply (X _ eq_refl)).
  intros r R.
  destruct st as [b ip si db ls cs stx pbt bvt aid ddd ro tm nt ac rq dl co].
  unfold has_drums. cbn [sampleDatabase currentSequence loadedSamples requests].
  unfold getAIResponse, findSamples in R.
  cbn [bind modify gets ret set_statusText set_aiButtonDisabled
            set_downloadButtonDisabled sampleDatabase] in R.
  rewrite !drawn_none in R.
  destruct (filter (in_category "Drums") db) as [ | s0 l0 ].
  { subst r. cbn. rewrite Nat.add_0_r. repeat split; reflexivity. }
  cbn [orb] in R. cbv zeta in R.
  cbn [bind modify set_statusText] in R.
  unfold try_finally, try_then, try_catch, fetch_generate, generation_failed in R.
  unfold extraction in H.
  destruct (generate env) as [ | status | | data ].
  1-3: (subst r; cbn; rewrite length_app; cbn; repeat split; reflexivity).
  cbn [bind modify lift log_request set_requests set_statusText requests] in R.
  destruct (Js.get data "response") as [ raw | e1 ];
    [ | subst r; cbn; rewrite length_app; cbn; repeat split; reflexivity ].
  destruct (extractJson raw) as [ parsed | e2 ].
  2:{ destruct (Conv.ToString raw);
        subst r; cbn; rewrite length_app; cbn; repeat split; reflexivity. }
  destruct (sequenceData parsed) as [ data' | e3 ]; [discriminate | ].
  destruct (Conv.ToString raw);
    subst r; cbn; rewrite length_app; cbn; repeat split; reflexivity.
Qed.

Lemma failed_extraction_keeps_sequence_witness :
  currentSequence (snd (getAIResponse (answering "no brackets here") kick_loaded))
  = currentSequence kick_loaded.
Proof.
  apply (failed_extraction_keeps_sequence (answering "no brackets here") kick_loaded
           NoJsonFound).
  reflexivity.
Defined.

Lemma stable_bind_gets {A B : Type} (P : state -> Prop) (f : state -> A)
  (k : A -> js B) :
  (forall st, P st -> P (snd (k (f st) st))) -> stable P (bind (gets f) k).
Proof. intros H st HP. unfold bind, gets. now apply H. Qed.

Lemma loadSamplesForSequence_keeps_cached (key : string) (buffer : AudioBuffer)
  (fetchSample : string -> option AudioBuffer) (sequence : value) :
  stable (cached key buffer) (loadSamplesForSequence fetchSample sequence).
Proof.
  unfold loadSamplesForSequence.
  apply stable_bind; [apply stable_modify; untouched | intros _].
  apply stable_bind; [stable_script untouched | intros files].
  cbv zeta. apply stable_bind_gets. intros st H.
  apply stable_bind; [ | intros _; apply stable_modify; untouched | exact H ].
  apply stable_forEach. intros filename. cbv beta.
  apply stable_bind; [apply stable_lift | intros key0].
  unfold loaded_get.
  destruct (loadedSamples st !! key0) eqn:E; [apply stable_ret | ].
  destruct (inherited key0); [apply stable_ret | ].
  destruct (negb (Js.truthy filename)); [apply stable_ret | ].
  cbv zeta. apply stable_bind; [apply stable_modify; untouched | intros _].
  destruct (fetchSample _); apply stable_modify; [ | untouched ].
  intros s Hs. unfold cached in *. destruct s. cbn -[lookup insert] in *.
  rewrite lookup_insert_ne; [exact Hs | ]. intros Eq. rewrite Eq in E. congruence.
Qed.

Lemma handle_keeps_cached (key : string) (buffer : AudioBuffer) (e : event) :
  stable (cached key buffer) (handle e).
Proof.
  destruct e as [ | env | mix | value | id time ]; cbn [handle].
  - stable_script untouched.
  - repeat first
      [ apply loadSamplesForSequence_keeps_cached
      | stable_step untouched
      | progress unfold getAIResponse, findSamples, fetch_generate,
          generation_failed, renderRecipe ].
  - stable_script untouched.
  - stable_script untouched.
  - stable_script untouched.
Qed.

(** The sample cache only grows: whatever happens on the page, a sample
    that is cached stays cached, with the buffer it was decoded to. *)
Theorem cache_never_evicts (key : string) (buffer : AudioBuffer)
  (events : list event) (st : state) :
  loadedSamples st !! key = Some buffer ->
  loadedSamples (fold_left step events st) !! key = Some buffer.
Proof.
  revert st. induction events as [ | e events IH ]; intros st H; [exact H | ].
  cbn [fold_left]. apply IH. now apply (handle_keeps_cached key buffer e st).
Qed.

Lemma cache_never_evicts_witness :
  loadedSamples
    (fold_left step [AiClick (answering track_without_steps); PlayClick] kick_loaded)
    !! "a.wav" = Some example_buffer.
Proof.
  apply (cache_never_evicts "a.wav" example_buffer
           [AiClick (answering track_without_steps); PlayClick] kick_loaded).
  vm_compute. reflexivity.
Defined.

(** A generation, however it ends, does not touch playback: the tempo,
    the playing flag, the timers, the audio context, the catalog and the
    downloads are as before. *)
Theorem getAIResponse_frame (env : gen_env) (st : state) :
  beside_generation (snd (getAIResponse env st)) = beside_generation st.
Proof.
  assert (S : stable (fun s => beside_generation s = beside_generation st) (getAIResponse env))
    by stable_script untouched.
  exact (S st eq_refl).
Qed.


(** A rendering, however it ends, does not touch the Sequence, the cache
    or playback. *)
Theorem renderBeatToWav_frame (mix : mixer) (st : state) :
  beside_render (snd (renderBeatToWav mix st)) = beside_render st.
Proof.
  assert (S : stable (fun s => beside_render s = beside_render st) (renderBeatToWav mix))
    by stable_script untouched.
  exact (S st eq_refl).
Qed.

Lemma length_fired (loaded : gmap string AudioBuffer) (beat : Z) (time : float)
  (tracks : list value) :
  (length (flat_map (fired loaded beat time) tracks) <= length tracks)%nat.
Proof.
  induction tracks as [ | track tracks IH ]; [reflexivity | ].
  cbn [flat_map length]. rewrite length_app.
  assert (length (fired loaded beat time track) <= 1)%nat; [ | lia ].
  unfold fired. destruct (List.find _ _) as [ step | ]; [ | cbn; lia ].
  unfold source_of. destruct step; cbn; try lia.
  destruct (Js.truthy _); [ | cbn; lia ].
  destruct (Conv.ToString _); [ | cbn; lia ].
  destruct (loaded !! _); cbn; lia.
Qed.

(** On a tick over well-shaped tracks whose file names are ordinary,
    every track starts at most one source: the sample of its
    first-declared step on the current beat, when that step has a file
    and the file is in the cache.  Later steps on the same beat, and
    steps whose sample is not cached, are passed over in silence. *)
Theorem tick_fires_first_match (id : nat) (time : float) (t : interval)
  (tracks : list value) (st : state) :
  timers st !! id = Some t ->
  currentSequence st = VArr tracks ->
  forallb shaped_track tracks = true ->
  forallb ordinary_track tracks = true ->
  clock_time time = true ->
  fst (tick id time st) = Done (Normal tt)
  /\ ctx_started (audioContext (snd (tick id time st)))
     = ctx_started (audioContext st)
       ++ flat_map (fired (loadedSamples st) (currentBeat t) time) tracks
  /\ (length (ctx_started (audioContext (snd (tick id time st))))
      <= length (ctx_started (audioContext st)) + length tracks)%nat.
Proof.
  intros Ht Hcs Hs Ho Hc.
  destruct (tick_result id time t tracks st Ht Hcs Hs Ho Hc) as (context' & E & S).
  rewrite E. cbn [fst snd].
  assert (A : audioContext
                (set_timers
                   (<[id := mkInterval ((currentBeat t + 1) mod totalBeats) (delay t)]>
                      (timers st))
                   (set_audioContext context' st)) = context') by now destruct st.
  rewrite A, S. repeat split. rewrite length_app. apply Nat.add_le_mono_l.
  apply length_fired.
Qed.

Lemma tick_fires_first_match_witness :
  ctx_started (audioContext (snd (tick 1 1.5%float beat_three)))
  = ctx_started (audioContext beat_three) ++ [("a.wav"%string, 1.5%float)].
Proof.
  refine (proj1 (proj2 (tick_fires_first_match 1 1.5%float
                          (mkInterval 3 500)
                          match currentSequence beat_three with
                          | VArr tracks => tracks
                          | _ => []
                          end beat_three _ _ _ _ _)));
    vm_compute; reflexivity.
Defined.

(** For a Sequence of the data model whose file names are ordinary, the
    offline renderer starts a source for every step that has a file in
    the cache, in the order of the tracks and of their steps, each at
    its beat times the seconds per beat: no step is passed over for
    sharing its beat with an earlier one. *)
Theorem offline_schedules_every_step (tracks : list value) (st : state) :
  currentSequence st = VArr tracks ->
  forallb valid_track tracks = true ->
  forallb ordinary_track tracks = true ->
  1 <= bpm st <= 734 ->
  offline_sources st
  = Done (Normal (flat_map (scheduled (loadedSamples st)
                                      (60 / JsNum.of_Z (bpm st))%float) tracks)).
Proof. apply schedule_all_sources. Qed.

Lemma offline_schedules_every_step_witness :
  offline_sources duplicate_loaded
  = Done (Normal (flat_map (scheduled (loadedSamples duplicate_loaded)
                                      (60 / JsNum.of_Z (bpm duplicate_loaded))%float)
                           [VObj [("name", VStr "Kick");
                                  ("steps",
                                   VArr [VObj [("beat", VNum 3); ("file", VStr "a.wav")];
                                         VObj [("beat", VNum 3); ("file", VStr "b.wav")]])]])).
Proof.
  apply (offline_schedules_every_step _ duplicate_loaded).
  - vm_compute. reflexivity.
  - vm_compute. reflexivity.
  - vm_compute. reflexivity.
  - vm_compute. split; discriminate.
Defined.

Lemma grid_table :
  forallb (fun k =>
             (JsNum.trunc (JsNum.of_Z k) =? k)
             && forallb (fun k' =>
                           Bool.eqb (JsNum.of_Z k =? JsNum.of_Z k')%float (k =? k'))
                        grid)
          grid = true.
Proof. vm_compute. reflexivity. Qed.

Lemma grid_trunc (k : Z) : In k grid -> JsNum.trunc (JsNum.of_Z k) = k.
Proof.
  intros H. pose proof grid_table as T. rewrite forallb_forall in T.
  specialize (T k H). apply andb_true_iff in T as [T _]. now apply Z.eqb_eq.
Qed.

Lemma grid_eqb (k k' : Z) :
  In k grid -> In k' grid -> (JsNum.of_Z k =? JsNum.of_Z k')%float = (k =? k').
Proof.
  intros H H'. pose proof grid_table as T. rewrite forallb_forall in T.
  specialize (T k H). apply andb_true_iff in T as [_ T].
  rewrite forallb_forall in T. specialize (T k' H'). now apply eqb_prop in T.
Qed.

(** A valid step is an object whose beat is the Number of its index. *)
Lemma valid_step_beat (step : value) :
  valid_step step = true ->
  exists props,
    step = VObj props
    /\ In (beat_index step) grid
    /\ Js.lookup_prop "beat" props = VNum (JsNum.of_Z (beat_index step)).
Proof.
  intros H. destruct step as [ | | | | | | props ]; try discriminate.
  exists props. split; [reflexivity | ].
  cbn [valid_step] in H. apply andb_true_iff in H as [H _].
  cbn [beat_index].
  destruct (Js.lookup_prop "beat" props) as [ | | | n | | | ]; try discriminate.
  cbn [grid_beat] in H. apply existsb_exists in H as (k & Hk & E).
  apply FloatAxioms.Leibniz.eqb_spec in E. subst n.
  rewrite (grid_trunc k Hk). now split.
Qed.

Lemma valid_step_object (step : value) : valid_step step = true -> is_object step = true.
Proof. now destruct step. Qed.

Lemma valid_track_shaped (track : value) :
  valid_track track = true -> shaped_track track = true.
Proof.
  destruct track as [ | | | | | | props ]; try discriminate.
  cbn [valid_track shaped_track].
  destruct (Js.lookup_prop "steps" props) as [ | | | | | steps | ]; try discriminate.
  intros H. rewrite forallb_forall in *. intros s Hs.
  now apply valid_step_object, H.
Qed.

Lemma valid_tracks_shaped (tracks : list value) :
  forallb valid_track tracks = true -> forallb shaped_track tracks = true.
Proof.
  intros H. rewrite forallb_forall in *. intros t Ht.
  now apply valid_track_shaped, H.
Qed.

Lemma valid_steps_of (track : value) :
  valid_track track = true -> forallb valid_step (steps_of track) = true.
Proof.
  destruct track as [ | | | | | | props ]; try discriminate.
  cbn [valid_track steps_of].
  now destruct (Js.lookup_prop "steps" props).
Qed.

Lemma on_beat_valid (k : Z) (step : value) :
  In k grid -> valid_step step = true ->
  on_beat k step = (beat_index step =? k).
Proof.
  intros Hk Hv. destruct (valid_step_beat step Hv) as (props & -> & Hi & Hb).
  cbn [on_beat]. rewrite Hb. cbn [Js.strict_eq_num]. now apply grid_eqb.
Qed.

Lemma step_source_valid (loaded : gmap string AudioBuffer) (timePerBeat : float)
  (step : value) :
  valid_step step = true ->
  step_source loaded timePerBeat step
  = source_of loaded (JsNum.of_Z (beat_index step) * timePerBeat)%float step.
Proof.
  intros Hv. destruct (valid_step_beat step Hv) as (props & E & Hi & Hb).
  rewrite E at 1. cbn [step_source]. rewrite Hb. cbn [Conv.ToNumber]. now rewrite <- E.
Qed.

(** *** Lists with one entry per key *)

Lemma distinct_cons_absent (x : Z) (l : list Z) :
  distinct (x :: l) = true -> forall y, In y l -> (y =? x) = false.
Proof.
  cbn [distinct]. intros H y Hy. apply andb_true_iff in H as [H _].
  apply negb_true_iff in H. destruct (y =? x) eqn:E; [ | reflexivity ].
  apply Z.eqb_eq in E. subst y.
  assert (existsb (Z.eqb x) l = true); [ | congruence ].
  apply existsb_exists. exists x. split; [exact Hy | apply Z.eqb_refl].
Qed.

Lemma find_or_all {A B : Type} (key : A -> Z) (f : A -> list B) (k : Z)
  (l : list A) :
  distinct (map key l) = true ->
  match List.find (fun x => key x =? k) l with
  | Some x => f x
  | None => []
  end
  = flat_map (fun x => if key x =? k then f x else []) l.
Proof.
  induction l as [ | x l IH ]; intros H; [reflexivity | ].
  cbn [List.find flat_map]. cbn [map] in H.
  destruct (key x =? k) eqn:E.
  - apply Z.eqb_eq in E. subst k.
    replace (flat_map _ l) with (@nil B); [now rewrite app_nil_r | ].
    symmetry. clear IH. pose proof (distinct_cons_absent _ _ H) as D.
    induction l as [ | y l IH ]; [reflexivity | ]. cbn [flat_map].
    rewrite (D (key y)) by (left; reflexivity).
    apply IH.
    + cbn [map distinct] in *. apply andb_true_iff in H as [H1 H2].
      apply andb_true_iff in H2 as [_ H2]. apply andb_true_iff. split; [ | exact H2 ].
      apply negb_true_iff. apply negb_true_iff in H1.
      cbn [existsb] in H1. now apply orb_false_iff in H1.
    + intros z Hz. apply D. now right.
  - apply IH. cbn [distinct] in H. now apply andb_true_iff in H.
Qed.

Lemma flat_map_swap {A B C : Type} (f : A -> B -> list C) (la : list A)
  (lb : list B) :
  flat_map (fun a => flat_map (f a) lb) la
  ≡ₚ flat_map (fun b => flat_map (fun a => f a b) la) lb.
Proof.
  induction la as [ | a la IH ].
  - cbn. induction lb; [reflexivity | assumption].
  - cbn [flat_map]. rewrite IH. clear IH.
    induction lb as [ | b lb IH ]; [reflexivity | ].
    cbn [flat_map]. rewrite <- IH.
    rewrite <- !app_assoc. apply Permutation_app_head.
    rewrite !app_assoc. apply Permutation_app_tail. apply Permutation_app_comm.
Qed.

Lemma flat_map_ext_in {A B : Type} (f g : A -> list B) (l : list A) :
  (forall x, In x l -> f x = g x) -> flat_map f l = flat_map g l.
Proof.
  intros H. induction l as [ | x l IH ]; [reflexivity | ].
  cbn [flat_map]. rewrite H by (now left). rewrite IH; [reflexivity | ].
  intros y Hy. apply H. now right.
Qed.

Lemma flat_map_single {B : Type} (f : Z -> list B) (k0 : Z) (l : list Z) :
  distinct l = true -> In k0 l ->
  flat_map (fun k => if k0 =? k then f k else []) l = f k0.
Proof.
  induction l as [ | k l IH ]; intros D H; [destruct H | ].
  cbn [flat_map]. destruct (k0 =? k) eqn:E.
  - apply Z.eqb_eq in E. subst k.
    replace (flat_map _ l) with (@nil B); [now rewrite app_nil_r | ].
    symmetry. pose proof (distinct_cons_absent _ _ D) as A. clear IH H D.
    induction l as [ | y l IH ]; [reflexivity | ]. cbn [flat_map].
    rewrite Z.eqb_sym, (A y) by (now left).
    apply IH. intros z Hz. apply A. now right.
  - destruct H as [-> | H]; [rewrite Z.eqb_refl in E; discriminate | ].
    apply IH; [ | exact H ]. cbn [distinct] in D. now apply andb_true_iff in D.
Qed.

Lemma grid_distinct : distinct grid = true.
Proof. reflexivity. Qed.

(** *** One loop of a track *)

Lemma track_loop (loaded : gmap string AudioBuffer) (timePerBeat : float)
  (track : value) :
  valid_track track = true -> distinct_beats track = true ->
  flat_map (fun k => fired loaded k (JsNum.of_Z k * timePerBeat)%float track) grid
  ≡ₚ scheduled loaded timePerBeat track.
Proof.
  intros Hv Hd. apply valid_steps_of in Hv. unfold distinct_beats in Hd.
  unfold fired, scheduled. set (steps := steps_of track) in *.
  rewrite (flat_map_ext_in _
             (fun k => flat_map
                         (fun s => if beat_index s =? k
                                   then source_of loaded
                                          (JsNum.of_Z k * timePerBeat)%float s
                                   else []) steps)).
  2:{ intros k Hk.
      rewrite <- (find_or_all beat_index
                    (source_of loaded (JsNum.of_Z k * timePerBeat)%float) k steps Hd).
      replace (List.find (on_beat k) steps)
        with (List.find (fun x => beat_index x =? k) steps); [reflexivity | ].
      clear Hd. induction steps as [ | s l IH ]; [reflexivity | ].
      cbn [forallb] in Hv. apply andb_true_iff in Hv as [H1 H2].
      cbn [List.find]. rewrite (on_beat_valid k s Hk H1).
      destruct (beat_index s =? k); [reflexivity | now apply IH]. }
  rewrite flat_map_swap.
  rewrite (flat_map_ext_in _ (step_source loaded timePerBeat)); [reflexivity | ].
  intros s Hs. rewrite forallb_forall in Hv. specialize (Hv s Hs).
  rewrite (step_source_valid loaded timePerBeat s Hv).
  destruct (valid_step_beat s Hv) as (props & _ & Hi & _).
  apply (flat_map_single
           (fun k => source_of loaded (JsNum.of_Z k * timePerBeat)%float s)
           (beat_index s) grid grid_distinct Hi).
Qed.

Lemma tracks_loop (loaded : gmap string AudioBuffer) (timePerBeat : float)
  (tracks : list value) :
  forallb valid_track tracks = true ->
  forallb distinct_beats tracks = true ->
  loop_sources loaded timePerBeat tracks
  ≡ₚ flat_map (scheduled loaded timePerBeat) tracks.
Proof.
  intros Hv Hd. unfold loop_sources. rewrite flat_map_swap.
  induction tracks as [ | track tracks IH ]; [reflexivity | ].
  cbn [forallb] in Hv, Hd.
  apply andb_true_iff in Hv as [V1 V2]. apply andb_true_iff in Hd as [D1 D2].
  cbn [flat_map]. rewrite (IH V2 D2).
  apply Permutation_app_tail. now apply track_loop.
Qed.

Lemma ticks_fire (id : nat) (time_of : Z -> float) (tracks : list value)
  (ks : list Z) :
  forallb shaped_track tracks = true ->
  forallb ordinary_track tracks = true ->
  forall (st : state) (t : interval),
    timers st !! id = Some t ->
    currentSequence st = VArr tracks ->
    chain (currentBeat t) ks = true ->
    forallb (fun k => clock_time (time_of k)) ks = true ->
    ctx_started
      (audioContext (fold_left step (map (fun k => TimerFire id (time_of k)) ks) st))
    = ctx_started (audioContext st)
      ++ flat_map (fun k => flat_map (fired (loadedSamples st) k (time_of k)) tracks) ks.
Proof.
  intros Hs Ho. induction ks as [ | k ks IH ]; intros st t Ht Hcs Hch Hcl.
  - cbn. now rewrite app_nil_r.
  - cbn [chain] in Hch. apply andb_true_iff in Hch as [Hk Hch].
    apply Z.eqb_eq in Hk. subst k.
    cbn [forallb] in Hcl. apply andb_true_iff in Hcl as [Hc Hcl].
    cbn [map fold_left flat_map]. unfold step at 2. cbn [handle].
    destruct (tick_result id (time_of (currentBeat t)) t tracks st Ht Hcs Hs Ho Hc)
      as (context' & E & S).
    rewrite E. cbn [snd].
    set (st' := set_timers _ _).
    assert (A : audioContext st' = context') by (subst st'; now destruct st).
    assert (L : loadedSamples st' = loadedSamples st) by (subst st'; now destruct st).
    assert (C : currentSequence st' = VArr tracks)
      by (subst st'; rewrite <- Hcs; now destruct st).
    assert (T : timers st' !! id
                = Some (mkInterval ((currentBeat t + 1) mod totalBeats) (delay t))).
    { subst st'. destruct st. cbn -[lookup insert]. apply lookup_insert_eq. }
    rewrite (IH st' _ T C Hch Hcl), A, S, L. now rewrite <- app_assoc.
Qed.

(** Live playback and the offline render agree on a Sequence of the data
    model whose tracks have at most one step per beat and whose sample
    file names are ordinary (text that is not a name every object
    inherits, such as constructor): when a timer at
    beat 0 fires sixteen times, each tick at its nominal time
    [k * 60 / bpm], the sources started are, up to their order, the
    sources the offline render schedules. *)
Theorem live_loop_matches_offline (id : nat) (t : interval)
  (tracks : list value) (st : state) :
  timers st !! id = Some t ->
  currentBeat t = 0 ->
  currentSequence st = VArr tracks ->
  forallb valid_track tracks = true ->
  forallb ordinary_track tracks = true ->
  forallb distinct_beats tracks = true ->
  1 <= bpm st <= 734 ->
  exists sources,
    offline_sources st = Done (Normal sources)
    /\ ctx_started
         (audioContext
            (fold_left step (loop_ticks id (60 / JsNum.of_Z (bpm st))%float) st))
       ≡ₚ ctx_started (audioContext st) ++ sources.
Proof.
  intros Ht Hb Hcs Hv Ho Hd Hbpm.
  exists (flat_map (scheduled (loadedSamples st) (60 / JsNum.of_Z (bpm st))%float) tracks).
  split; [now apply schedule_all_sources | ].
  unfold loop_ticks.
  rewrite (ticks_fire id (fun k => (JsNum.of_Z k * (60 / JsNum.of_Z (bpm st)))%float)
             tracks grid (valid_tracks_shaped tracks Hv) Ho st t Ht Hcs).
  - apply Permutation_app_head. now apply tracks_loop.
  - rewrite Hb. reflexivity.
  - apply forallb_forall. intros k Hk. now apply tempo_times.
Qed.

Lemma live_loop_matches_offline_witness :
  exists sources,
    offline_sources kick_playing = Done (Normal sources)
    /\ ctx_started
         (audioContext
            (fold_left step (loop_ticks 1 (60 / JsNum.of_Z (bpm kick_playing))%float)
               kick_playing))
       ≡ₚ ctx_started (audioContext kick_playing) ++ sources.
Proof.
  refine (live_loop_matches_offline 1 (mkInterval 0 500)
            match currentSequence kick_playing with
            | VArr tracks => tracks
            | _ => []
            end kick_playing _ _ _ _ _ _ _);
    try (vm_compute; reflexivity).
  vm_compute. split; discriminate.
Defined.

Lemma stable_bind_lift {A B : Type} (P : state -> Prop) (c : completion A)
  (k : A -> js B) :
  (forall a, c = Normal a -> stable P (k a)) -> stable P (bind (lift c) k).
Proof.
  intros H st HP. unfold bind, lift. destruct c as [ a | e ]; [ | exact HP ].
  now apply (H a).
Qed.

Lemma sequenceData_truthy (parsedData data : value) :
  sequenceData parsedData = Normal data -> Js.truthy data = true.
Proof.
  unfold sequenceData.
  destruct (if Js.isArray parsedData then _ else _) as [ d | e ]; [ | discriminate ].
  destruct (Js.truthy d) eqn:E; cbn [negb]; [ | discriminate ].
  intros [= <-]. exact E.
Qed.

Lemma getAIResponse_keeps_truthy (env : gen_env) :
  stable sequence_truthy (getAIResponse env).
Proof.
  unfold getAIResponse.
  do 3 (apply stable_bind; [apply stable_modify; untouched | intros _]).
  do 3 (apply stable_bind; [stable_script untouched | intros ?]).
  match goal with |- stable _ (if ?b then _ else _) => destruct b end;
    [stable_script untouched | ].
  cbv zeta.
  apply stable_bind; [apply stable_modify; untouched | intros _].
  apply stable_try_finally; [ | untouched ].
  apply stable_try_then;
    [stable_script untouched | intros ?; stable_script untouched | intros raw].
  apply stable_try_catch; [ | intros ?; stable_script untouched ].
  apply stable_bind; [apply stable_lift | intros parsed].
  apply stable_bind_lift. intros data Hd.
  apply stable_bind; [apply stable_modify | intros _; stable_script untouched].
  intros st _. destruct st. exact (sequenceData_truthy _ _ Hd).
Qed.

Lemma handle_keeps_truthy (e : event) : stable sequence_truthy (handle e).
Proof.
  destruct e as [ | env | mix | value | id time ]; cbn [handle].
  - stable_script untouched.
  - apply stable_bind; [apply stable_gets | intros [ | ]; [apply stable_ret | ] ].
    apply getAIResponse_keeps_truthy.
  - stable_script untouched.
  - stable_script untouched.
  - stable_script untouched.
Qed.

Lemma reachable_truthy (st : state) : reachable st -> sequence_truthy st.
Proof.
  apply reachable_ind; [ | apply handle_keeps_truthy ].
  intros database.
  assert (S : stable sequence_truthy (loadDatabase database))
    by stable_script untouched.
  apply S. reflexivity.
Qed.

Lemma truthy_length (v : value) :
  Js.truthy v = true -> exists len, Js.get v "length" = Normal len.
Proof.
  destruct v; try discriminate; intros _; cbn [Js.get]; eexists; reflexivity.
Qed.

Lemma togglePlayback_returns (st : state) :
  sequence_truthy st -> fst (togglePlayback st) = Done (Normal tt).
Proof.
  intros H. destruct (truthy_length _ H) as (len & E).
  destruct (has_length st) eqn:L.
  - destruct (isPlaying st) eqn:P.
    + now rewrite (togglePlayback_stop st L P).
    + now rewrite (togglePlayback_start st L P).
  - unfold has_length in L. rewrite E in L.
    unfold togglePlayback, bind, gets, lift. rewrite E, L. reflexivity.
Qed.

Lemma bind_fst {A B : Type} (m : js A) (k : A -> js B) (a : A) (st : state) :
  fst (m st) = Done (Normal a) -> fst (bind m k st) = fst (k a (snd (m st))).
Proof. unfold bind. destruct (m st) as [r st']. cbn. now intros ->. Qed.

Lemma bpmSlider_input_returns (value : Z) (st : state) :
  sequence_truthy st -> fst (bpmSlider_input value st) = Done (Normal tt).
Proof.
  intros H. unfold bpmSlider_input.
  rewrite (bind_fst _ _ tt) by reflexivity.
  rewrite (bind_fst _ _ tt) by reflexivity.
  set (st1 := snd (modify (set_bpmValueText (pretty value))
                     (snd (modify (set_bpm value) st)))).
  assert (H1 : sequence_truthy st1) by (subst st1; destruct st; exact H).
  unfold bind at 1. cbn [gets]. destruct (isPlaying st1); [ | reflexivity ].
  cbn [when]. rewrite (bind_fst _ _ tt) by (now apply togglePlayback_returns).
  apply togglePlayback_returns.
  assert (S : stable sequence_truthy togglePlayback) by stable_script untouched.
  now apply S.
Qed.

(** The play button and the tempo slider never throw: in every state the
    page can reach, a click on Play and an input on the slider run to
    completion. *)
Theorem controls_never_throw (st : state) (value : Z) :
  reachable st ->
  fst (handle PlayClick st) = Done (Normal tt)
  /\ fst (handle (BpmInput value) st) = Done (Normal tt).
Proof.
  intros R. apply reachable_truthy in R. cbn [handle].
  split; [now apply togglePlayback_returns | now apply bpmSlider_input_returns].
Qed.

Lemma controls_never_throw_witness :
  fst (handle PlayClick duplicate_played) = Done (Normal tt)
  /\ fst (handle (BpmInput 90) duplicate_played) = Done (Normal tt).
Proof.
  apply (controls_never_throw duplicate_played 90).
  exists (Some example_csv),
    [AiClick (answering duplicate_beat); PlayClick; TimerFire 1 0;
     TimerFire 1 0.5; TimerFire 1 1; TimerFire 1 1.5]%float.
  reflexivity.
Defined.

Lemma finishes_foldM {S A B : Type} (f : B -> A -> M S B) (l : list A) :
  (forall acc x, finishes (f acc x)) -> forall acc, finishes (foldM f l acc).
Proof.
  intros Hf. induction l as [ | x l IH ]; intros acc; [apply finishes_ret | ].
  cbn [foldM]. apply finishes_bind; [apply Hf | intros acc'; apply IH].
Qed.




Lemma render_offline_state (mix : mixer) (st : state) :
  snd (render_offline mix st) = st.
Proof.
  assert (S : stable (fun s => s = st) (render_offline mix))
    by (stable_script fail).
  exact (S st eq_refl).
Qed.

(** [renderBeatToWav] past its guard, in terms of the offline rendering. *)
Lemma renderBeatToWav_run (mix : mixer) (st : state) :
  has_length st = true ->
  renderBeatToWav mix st
  = match fst (render_offline mix (rendering st)) with
    | Done (Normal buffer) =>
        (Done (Normal tt),
         set_downloadButtonDisabled false
           (set_statusText "Download complete!"
              (set_downloads
                 (downloads st
                  ++ [(download_name (bpm st),
                       wav_header (numberOfChannels buffer)
                         (buf_length buffer * numberOfChannels buffer * 2 + 44)
                         (buf_sampleRate buffer)
                       ++ wav_data buffer)])
                 (rendering st))))
    | Done (Throw e) => (Done (Throw e), rendering st)
    | Unfinished => (Unfinished, rendering st)
    end.
Proof.
  unfold has_length. intros L. unfold renderBeatToWav.
  unfold bind at 1. cbn [gets].
  unfold bind at 1. cbn [lift].
  destruct (Js.get (currentSequence st) "length") as [ len | ]; [ | discriminate ].
  rewrite L. cbn [negb].
  unfold bind at 1. cbn [modify]. unfold bind at 1. cbn [modify].
  fold (rendering st).
  unfold bind at 1.
  pose proof (render_offline_state mix (rendering st)) as S.
  destruct (render_offline mix (rendering st)) as [r s']. cbn [fst snd] in *.
  subst s'. destruct r as [ [ buffer | e ] | ]; try reflexivity.
  unfold bind at 1. unfold lift_outcome. rewrite bufferToWav_bytes.
  destruct st. reflexivity.
Qed.





(** A tempo for which the rendering would have no frames, such as 0, is
    refused by the offline context: the rendering throws
    [NotSupportedError] after disabling the download button, and nothing
    enables it again. *)
Theorem renderBeatToWav_refused (mix : mixer) (st : state) :
  has_length st = true ->
  offline_frames (bpm st) = 0 ->
  renderBeatToWav mix st = (Done (Throw NotSupportedError), rendering st).
Proof.
  intros L F. rewrite (renderBeatToWav_run mix st L).
  assert (E : fst (render_offline mix (rendering st))
              = Done (Throw NotSupportedError)); [ | now rewrite E ].
  unfold render_offline. unfold bind at 1. cbn [gets].
  replace (bpm (rendering st)) with (bpm st) by (now destruct st).
  unfold bind at 1. unfold OfflineAudioContext.
  fold (offline_frames (bpm st)). rewrite F. reflexivity.
Qed.

Lemma renderBeatToWav_refused_witness :
  renderBeatToWav silence (step kick_loaded (BpmInput 0))
  = (Done (Throw NotSupportedError), rendering (step kick_loaded (BpmInput 0))).
Proof.
  apply (renderBeatToWav_refused silence (step kick_loaded (BpmInput 0)));
    vm_compute; reflexivity.
Defined.

Lemma flat_map_block {A : Type} (g : nat -> list A) (k : nat) :
  (forall i, length (g i) = k) ->
  forall (n a i : nat),
    (i < n)%nat ->
    firstn k (skipn (i * k) (flat_map g (seq a n))) = g (a + i)%nat.
Proof.
  intros Hg. induction n as [ | n IH ]; intros a i Hi; [lia | ].
  cbn [seq flat_map]. destruct i as [ | i ].
  - cbn [Nat.mul]. rewrite drop_0, Nat.add_0_r.
    rewrite <- (Hg a) at 1. apply take_app_length.
  - replace (S i * k)%nat with (length (g a) + i * k)%nat by (rewrite Hg; lia).
    rewrite drop_app_add. rewrite (IH (S a) i) by lia. f_equal. lia.
Qed.

Lemma take_drop_take {A : Type} (a b n : nat) (l : list A) :
  (a + b <= n)%nat -> firstn a (skipn b (firstn n l)) = firstn a (skipn b l).
Proof.
  intros H. rewrite skipn_firstn_comm, take_take. f_equal. lia.
Qed.

(** The place of a sample in the data of the file. *)
Lemma wav_data_sample (buffer : AudioBuffer) (f c : nat) :
  (f < buf_length buffer)%nat -> (c < numberOfChannels buffer)%nat ->
  firstn 2 (skipn (2 * (f * numberOfChannels buffer + c)) (wav_data buffer))
  = le_bytes 2 (quantize (channel_sample (buf_channels buffer) c f)).
Proof.
  intros Hf Hc. unfold wav_data.
  set (C := numberOfChannels buffer) in *.
  set (channels := buf_channels buffer).
  pose proof (flat_map_block (frame_bytes channels C) (C * 2)
                (length_frame_bytes channels C) (buf_length buffer) 0 f Hf) as Frame.
  cbn [Nat.add] in Frame.
  pose proof (flat_map_block
                (fun i => le_bytes 2 (quantize (channel_sample channels i f))) 2
                (fun i => length_le_bytes 2 _) C 0 c Hc) as Sample.
  cbn [Nat.add] in Sample. fold (frame_bytes channels C f) in Sample.
  rewrite <- Sample, <- Frame.
  rewrite take_drop_take by lia. rewrite drop_drop. do 2 f_equal. lia.
Qed.

(** The samples are interleaved: the file holds, after its 44 bytes of
    header, frame after frame, and in each frame channel after channel,
    every sample quantized to 16 bits, low byte first.  The two size
    fields hold the length of the file less 8 and the length of the
    data. *)
Theorem bufferToWav_samples (buffer : AudioBuffer) :
  let C := numberOfChannels buffer in
  let F := buf_length buffer in
  exists bytes,
    bufferToWav buffer = Done (Normal bytes)
    /\ (forall f c : nat,
          (f < F)%nat -> (c < C)%nat ->
          firstn 2 (skipn (44 + 2 * (f * C + c)) bytes)
          = le_bytes 2 (quantize (channel_sample (buf_channels buffer) c f)))
    /\ (Z.of_nat (F * C * 2) + 36 < 2 ^ 32 ->
        read_le 4 4 bytes = Z.of_nat (F * C * 2) + 36
        /\ read_le 4 40 bytes = Z.of_nat (F * C * 2)).
Proof.
  intros C F. eexists. split; [apply bufferToWav_bytes | ]. split.
  - intros f c Hf Hc.
    rewrite <- (length_wav_header C (F * C * 2 + 44) (buf_sampleRate buffer)) at 1.
    rewrite drop_app_add. now apply wav_data_sample.
  - intros Hsize. fold C F. unfold wav_header, read_le. rewrite <- !app_assoc.
    split; skip_fields; rewrite read_le_4; rewrite Z.mod_small by lia; lia.
Qed.

Lemma bufferToWav_samples_witness :
  exists bytes,
    bufferToWav example_buffer = Done (Normal bytes)
    /\ firstn 2 (skipn 50 bytes) = le_bytes 2 (quantize (-1)).
Proof.
  destruct (bufferToWav_samples example_buffer) as (bytes & E & S & _).
  exists bytes. split; [exact E | ].
  apply (S 1%nat 1%nat); vm_compute; lia.
Defined.

Lemma split_cons (sep c : ascii) (s : string) :
  JsString.split sep (String c s)
  = if Ascii.eqb c sep then EmptyString :: JsString.split sep s
    else match JsString.split sep s with
         | [] => [String c EmptyString]
         | w :: ws => String c w :: ws
         end.
Proof. reflexivity. Qed.

Lemma append_cons (c : ascii) (a b : string) :
  String c a +:+ b = String c (a +:+ b).
Proof. reflexivity. Qed.

Lemma append_empty (b : string) : EmptyString +:+ b = b.
Proof. reflexivity. Qed.

Lemma split_field (sep : ascii) (a b : string) :
  has (fun c => Ascii.eqb c sep) a = false ->
  JsString.split sep (a +:+ String sep b) = a :: JsString.split sep b.
Proof.
  induction a as [ | c a IH ]; intros H.
  - now rewrite append_empty, split_cons, Ascii.eqb_refl.
  - cbn [has] in H. apply orb_false_iff in H as [H1 H2].
    now rewrite append_cons, split_cons, H1, (IH H2).
Qed.

Lemma split_last (sep : ascii) (a : string) :
  has (fun c => Ascii.eqb c sep) a = false -> JsString.split sep a = [a].
Proof.
  induction a as [ | c a IH ]; intros H; [reflexivity | ].
  cbn [has] in H. apply orb_false_iff in H as [H1 H2].
  cbn [JsString.split]. now rewrite H1, (IH H2).
Qed.

Lemma has_append (p : ascii -> bool) (a b : string) :
  has p (a +:+ b) = has p a || has p b.
Proof.
  induction a as [ | c a IH ]; [reflexivity | ].
  rewrite append_cons. cbn [has]. now rewrite IH, orb_assoc.
Qed.

Lemma field_parts (s : string) :
  field s = true ->
  has (fun c => Ascii.eqb c comma) s = false
  /\ has (fun c => Ascii.eqb c newline) s = false.
Proof.
  unfold field. intros H. apply andb_true_iff in H as [H1 H2].
  now apply negb_true_iff in H1, H2.
Qed.

Lemma listed_parts (s : sample) :
  listed s = true ->
  exists f c p,
    s = mkSample f (Some c) (Some p)
    /\ field f = true /\ field c = true /\ field p = true
    /\ nonempty (Some f) = true /\ nonempty (Some c) = true.
Proof.
  destruct s as [f [ c | ] [ p | ]]; unfold listed; cbn [category pack filename];
    try discriminate.
  intros H. do 4 (apply andb_true_iff in H as [H ?]).
  exists f, c, p. repeat split; assumption.
Qed.

Lemma parse_csv_row (s : sample) : listed s = true -> parse_row (csv_row s) = s.
Proof.
  intros H. destruct (listed_parts s H) as (f & c & p & -> & Hf & Hc & Hp & _).
  apply field_parts in Hf as [Hf _], Hc as [Hc _], Hp as [Hp _].
  unfold parse_row, csv_row. cbn [filename category pack column].
  rewrite (split_field comma f _ Hf), (split_field comma c _ Hc),
    (split_last comma p Hp).
  reflexivity.
Qed.

Lemma csv_row_line (s : sample) :
  listed s = true -> has (fun c => Ascii.eqb c newline) (csv_row s) = false.
Proof.
  intros H. destruct (listed_parts s H) as (f & c & p & -> & Hf & Hc & Hp & _).
  apply field_parts in Hf as [_ Hf], Hc as [_ Hc], Hp as [_ Hp].
  unfold csv_row. cbn [filename category pack column].
  rewrite has_append, Hf. cbn [has orb].
  rewrite has_append, Hc. cbn [has orb]. exact Hp.
Qed.

Lemma split_csv_rows (entries : list sample) :
  forallb listed entries = true ->
  JsString.split newline (csv_rows entries) = map csv_row entries ++ [""].
Proof.
  induction entries as [ | s rest IH ]; intros H; [reflexivity | ].
  cbn [forallb] in H. apply andb_true_iff in H as [H1 H2].
  cbn [csv_rows map app].
  now rewrite (split_field newline _ _ (csv_row_line s H1)), (IH H2).
Qed.

Lemma filter_listed (entries : list sample) :
  forallb listed entries = true ->
  filter (fun s => nonempty (Some (filename s)) && nonempty (category s))
         (map parse_row (map csv_row entries ++ [""]))
  = entries.
Proof.
  induction entries as [ | s rest IH ]; intros H; [reflexivity | ].
  cbn [forallb] in H. apply andb_true_iff in H as [H1 H2].
  cbn [map app]. rewrite (parse_csv_row s H1).
  rewrite filter_cons_True, (IH H2); [reflexivity | ].
  destruct (listed_parts s H1) as (f & c & p & -> & _ & _ & _ & Nf & Nc).
  cbn [filename category]. rewrite Nf, Nc. exact I.
Qed.

(** The catalog round trip: from a file with a header line and one line
    [filename,category,pack] for each entry, [loadDatabase] reads back
    exactly the entries, in their order; the header and the empty line
    after the last line break are not entries.  It reports their number
    and enables the generate button. *)
Theorem loadDatabase_round_trip (header : string) (entries : list sample)
  (st : state) :
  has (fun c => Ascii.eqb c newline) header = false ->
  forallb listed entries = true ->
  let st' := snd (loadDatabase (Some (csv header entries)) st) in
  fst (loadDatabase (Some (csv header entries)) st) = Done (Normal tt)
  /\ sampleDatabase st' = entries
  /\ statusText st'
     = "Database loaded with " +:+ pretty (length entries)
       +:+ " samples. Ready to generate!"
  /\ aiButtonDisabled st' = false.
Proof.
  intros Hh He. cbv zeta. unfold loadDatabase, csv.
  fold newline. rewrite (split_field newline header _ Hh).
  cbn [tl]. rewrite (split_csv_rows entries He), (filter_listed entries He).
  destruct st. repeat split.
Qed.

Lemma loadDatabase_round_trip_witness :
  sampleDatabase
    (snd (loadDatabase
            (Some (csv "filename,category,pack"
                       [mkSample "a.wav" (Some "Drums") (Some "Pack1");
                        mkSample "b.wav" (Some "Drums") (Some "Pack1")]))
            initial))
  = [mkSample "a.wav" (Some "Drums") (Some "Pack1");
     mkSample "b.wav" (Some "Drums") (Some "Pack1")].
Proof.
  refine (proj1 (proj2 (loadDatabase_round_trip "filename,category,pack"
                          [mkSample "a.wav" (Some "Drums") (Some "Pack1");
                           mkSample "b.wav" (Some "Drums") (Some "Pack1")]
                          initial _ _)));
    vm_compute; reflexivity.
Defined.

Lemma mapM_pure {A B : Type} (f : A -> js B) (g : A -> B) (l : list A)
  (st : state) :
  (forall x, In x l -> f x st = (Done (Normal (g x)), st)) ->
  mapM f l st = (Done (Normal (map g l)), st).
Proof.
  induction l as [ | x l IH ]; intros H; [reflexivity | ].
  cbn [mapM map]. unfold bind at 1. rewrite (H x) by (now left).
  unfold bind at 1. rewrite IH; [reflexivity | ].
  intros y Hy. apply H. now right.
Qed.

Lemma forEach_normal {A : Type} (f : A -> js unit) (l : list A) :
  (forall x st, In x l -> fst (f x st) = Done (Normal tt)) ->
  forall st, fst (forEach l f st) = Done (Normal tt).
Proof.
  induction l as [ | x l IH ]; intros H st; [reflexivity | ].
  cbn [forEach]. rewrite (bind_fst _ _ tt) by (apply H; now left).
  apply IH. intros y s Hy. apply H. now right.
Qed.

Lemma unique_in (x : value) (l : list value) : In x (unique l) -> In x l.
Proof.
  induction l as [ | y l IH ]; [intros [] | ].
  cbn [unique]. intros [ -> | H ]; [now left | right].
  apply IH. apply list_elem_of_In in H.
  apply list_elem_of_filter in H as [_ H]. now apply list_elem_of_In.
Qed.

Lemma printable_text (v : value) :
  printable v = true -> exists text, Conv.ToString v = Normal text.
Proof.
  unfold printable. destruct (Conv.ToString v) as [ text | ]; [ | discriminate ].
  intros _. now exists text.
Qed.

Lemma track_files_printable (tracks : list value) :
  forallb printable_track tracks = true ->
  forallb printable (concat (map track_files tracks)) = true.
Proof.
  intros H. apply forallb_forall. intros file Hin.
  apply in_concat in Hin as (files & Hfs & Hin).
  apply in_map_iff in Hfs as (track & <- & Ht).
  rewrite forallb_forall in H. specialize (H track Ht).
  destruct track as [ | | | | | | props ]; try (now destruct Hin).
  cbn [printable_track track_files steps_of] in *.
  apply andb_true_iff in H as [_ H].
  destruct (Js.lookup_prop "steps" props) as [ | | | | | steps | ];
    try (now destruct Hin).
  apply in_map_iff in Hin as (step & <- & Hs).
  rewrite forallb_forall in H. specialize (H step Hs).
  destruct step; try reflexivity.
  cbn [printable_step] in H. now apply andb_true_iff in H as [H _].
Qed.

Lemma step_files_shaped (tracks : list value) (st : state) :
  forallb shaped_track tracks = true ->
  step_files (VArr tracks) st
  = (Done (Normal (concat (map track_files tracks))), st).
Proof.
  intros H. unfold step_files. unfold bind at 1. cbn [array_method ret].
  unfold flatMapM. unfold bind at 1.
  rewrite (mapM_pure _ track_files); [reflexivity | ].
  intros track Ht. rewrite forallb_forall in H. specialize (H track Ht).
  destruct track as [ | | | | | | props ]; try discriminate.
  cbn [shaped_track track_files] in *. unfold bind at 1. cbn [lift Js.get].
  destruct (Js.lookup_prop "steps" props) as [ | | | | | steps | ]; try discriminate.
  unfold bind at 1. cbn [array_method ret].
  apply mapM_pure. intros step Hs. rewrite forallb_forall in H.
  specialize (H step Hs). now destruct step.
Qed.

Lemma load_one_normal (fetchSample : string -> option AudioBuffer)
  (loaded : gmap string AudioBuffer) (filename : value) (st : state) :
  printable filename = true ->
  fst (load_one fetchSample loaded filename st) = Done (Normal tt).
Proof.
  intros P. destruct (printable_text filename P) as (key & E).
  unfold load_one. rewrite E. unfold bind at 1. cbn [lift].
  destruct (loaded_get loaded key); try reflexivity.
  destruct (negb (Js.truthy filename)); [reflexivity | ].
  cbv zeta. rewrite (bind_fst _ _ tt) by reflexivity.
  now destruct (fetchSample _).
Qed.

Lemma loadSamplesForSequence_shaped (fetchSample : string -> option AudioBuffer)
  (tracks : list value) (st : state) :
  forallb shaped_track tracks = true ->
  forallb printable_track tracks = true ->
  exists st',
    loadSamplesForSequence fetchSample (VArr tracks) st = (Done (Normal tt), st')
    /\ statusText st' = "Samples loaded. Ready to play!"
    /\ beside_loading st' = beside_loading st.
Proof.
  intros H P.
  assert (S : stable (fun s => beside_loading s = beside_loading st)
                (loadSamplesForSequence fetchSample (VArr tracks)))
    by stable_script untouched.
  specialize (S st eq_refl).
  assert (E : exists s',
             loadSamplesForSequence fetchSample (VArr tracks) st
             = (Done (Normal tt), set_statusText "Samples loaded. Ready to play!" s')).
  { unfold loadSamplesForSequence.
    unfold bind at 1. cbn [modify].
    unfold bind at 1. rewrite (step_files_shaped tracks _ H).
    cbv zeta. unfold bind at 1. cbn [gets].
    unfold bind at 1.
    match goal with
    | |- context [forEach ?l ?f ?s] =>
        assert (N : fst (forEach l f s) = Done (Normal tt));
        [ | destruct (forEach l f s) as [r s'] ]
    end.
    { apply forEach_normal. intros filename s Hin.
      apply (load_one_normal fetchSample).
      apply unique_in in Hin.
      pose proof (track_files_printable tracks P) as F.
      rewrite forallb_forall in F. now apply F. }
    cbn [fst] in N. subst r. exists s'. reflexivity. }
  destruct E as (s' & E). rewrite E in S. cbn [snd] in S.
  eexists. split; [exact E | ]. split; [now destruct s' | exact S].
Qed.

Lemma renderRecipe_shaped (tracks : list value) (st : state) :
  forallb shaped_track tracks = true ->
  forallb printable_track tracks = true ->
  renderRecipe (VArr tracks) st
  = (Done (Normal tt), set_recipeOutput (RecipeTable (map recipe_row tracks)) st).
Proof.
  intros H P. unfold renderRecipe.
  unfold bind at 1. cbn [modify].
  unfold bind at 1. cbn [array_method ret].
  unfold bind at 1.
  rewrite (mapM_pure _ recipe_row); [cbn [modify]; now destruct st | ].
  intros track Ht. rewrite forallb_forall in H, P.
  specialize (H track Ht). specialize (P track Ht).
  destruct track as [ | | | | | | props ]; try discriminate.
  cbn [shaped_track printable_track steps_of recipe_row] in *.
  apply andb_true_iff in P as [Pn P].
  destruct (printable_text _ Pn) as (name & En).
  unfold bind at 1. cbn [lift Js.get].
  unfold bind at 1. rewrite En. cbn [lift].
  unfold bind at 1. cbn [lift Js.get].
  destruct (Js.lookup_prop "steps" props) as [ | | | | | steps | ]; try discriminate.
  unfold bind at 1. cbn [array_method ret].
  unfold bind at 1.
  rewrite (mapM_pure _ (fun step =>
                          match step with
                          | VObj sp => (Js.lookup_prop "beat" sp, Js.lookup_prop "file" sp)
                          | _ => (VUndefined, VUndefined)
                          end)); [reflexivity | ].
  intros step Hs. rewrite forallb_forall in H, P.
  specialize (H step Hs). specialize (P step Hs).
  destruct step as [ | | | | | | sp ]; try discriminate.
  cbn [printable_step] in P. apply andb_true_iff in P as [Pf Pb].
  destruct (printable_text _ Pf) as (file & Ef).
  destruct (printable_text _ Pb) as (beat & Eb).
  unfold bind at 1. cbn [lift Js.get].
  unfold bind at 1. rewrite Ef. cbn [lift].
  unfold bind at 1. cbn [lift Js.get].
  unfold bind at 1. rewrite Eb. reflexivity.
Qed.

(** A generation that succeeds: when the catalog has drums and the
    generator's answer holds an array of tracks, each an object with an
    array [steps] of objects, whose names, files and beats can be
    written as text (none is an object with a property [toString] of
    its own), that array becomes the current Sequence, the recipe shows
    a row for each track with the beat and the file of each step, the
    status reads [Samples loaded. Ready to play!] and both buttons are
    enabled. *)
Theorem getAIResponse_success (env : gen_env) (tracks : list value) (st : state) :
  has_drums st = true ->
  extraction (generate env) = Normal (VArr tracks) ->
  forallb shaped_track tracks = true ->
  forallb printable_track tracks = true ->
  let st' := snd (getAIResponse env st) in
  currentSequence st' = VArr tracks
  /\ recipeOutput st' = RecipeTable (map recipe_row tracks)
  /\ statusText st' = "Samples loaded. Ready to play!"
  /\ downloadButtonDisabled st' = false
  /\ aiButtonDisabled st' = false.
Proof.
  intros Hd Hx Hs Hp. cbv zeta.
  enough (X : forall r, r = getAIResponse env st ->
            currentSequence (snd r) = VArr tracks
            /\ recipeOutput (snd r) = RecipeTable (map recipe_row tracks)
            /\ statusText (snd r) = "Samples loaded. Ready to play!"
            /\ downloadButtonDisabled (snd r) = false
            /\ aiButtonDisabled (snd r) = false)
    by (apply (X _ eq_refl)).
  intros r R.
  destruct st as [b ip si db ls cs stx pbt bvt aid ddd ro tm nt ac rq dl co].
  unfold has_drums in Hd. cbn [sampleDatabase] in Hd.
  unfold getAIResponse, findSamples in R.
  cbn [bind modify gets ret set_statusText set_aiButtonDisabled
            set_downloadButtonDisabled sampleDatabase] in R.
  rewrite !drawn_none in R.
  destruct (filter (in_category "Drums") db) as [ | s0 l0 ]; [discriminate | ].
  cbn [orb] in R. cbv zeta in R.
  cbn [bind modify set_statusText] in R.
  unfold try_finally, try_then, try_catch, fetch_generate in R.
  unfold extraction in Hx.
  destruct (generate env) as [ | status | | data ]; try discriminate.
  cbn [bind modify lift log_request set_requests set_statusText requests] in R.
  destruct (Js.get data "response") as [ raw | e1 ]; [ | discriminate ].
  destruct (extractJson raw) as [ parsed | e2 ]; [ | discriminate ].
  rewrite Hx in R.
  cbn [bind lift modify gets set_currentSequence currentSequence] in R.
  unfold bind at 1 in R.
  match type of R with
  | context [loadSamplesForSequence ?f ?v ?s] =>
      destruct (loadSamplesForSequence_shaped f tracks s Hs Hp)
        as (s2 & E2 & T2 & B2)
  end.
  rewrite E2 in R.
  unfold beside_loading in B2. cbn in B2.
  destruct s2 as [b2 ip2 si2 db2 ls2 cs2 stx2 pbt2 bvt2 aid2 ddd2 ro2 tm2 nt2 ac2 rq2
                    dl2 co2].
  cbn in T2, B2. injection B2 as -> -> -> ->. subst stx2.
  cbn [bind gets currentSequence] in R. unfold bind at 1 in R.
  rewrite (renderRecipe_shaped tracks _ Hs Hp) in R.
  subst r. cbn. repeat split.
Qed.

Lemma getAIResponse_success_witness :
  let st' := snd (getAIResponse (answering kick_pattern)
                    (snd (loadDatabase (Some example_csv) initial))) in
  currentSequence st'
  = VArr [VObj [("name", VStr "Kick");
                ("steps",
                 VArr [VObj [("beat", VNum 0); ("file", VStr "a.wav")];
                       VObj [("beat", VNum 4); ("file", VStr "a.wav")]])]]
  /\ recipeOutput st'
     = RecipeTable
         (map recipe_row
            [VObj [("name", VStr "Kick");
                   ("steps",
                    VArr [VObj [("beat", VNum 0); ("file", VStr "a.wav")];
                          VObj [("beat", VNum 4); ("file", VStr "a.wav")]])]])
  /\ statusText st' = "Samples loaded. Ready to play!"
  /\ downloadButtonDisabled st' = false
  /\ aiButtonDisabled st' = false.
Proof.
  apply (getAIResponse_success (answering kick_pattern)); vm_compute; reflexivity.
Defined.

Lemma load_one_keeps (fetchSample : string -> option AudioBuffer)
  (loaded : gmap string AudioBuffer) (filename : value) (name : string)
  (buffer : AudioBuffer) (st : state) :
  fetchSample (sample_path name) = Some buffer ->
  loadedSamples st !! name = Some buffer ->
  loadedSamples (snd (load_one fetchSample loaded filename st)) !! name = Some buffer.
Proof.
  intros Hf Hl. unfold load_one.
  destruct (Conv.ToString filename) as [ key | ];
    unfold bind at 1; cbn [lift]; [ | exact Hl ].
  destruct (loaded_get loaded key); try exact Hl.
  destruct (negb (Js.truthy filename)); [exact Hl | ].
  cbv zeta. unfold bind, modify.
  destruct (fetchSample ("Organized_Library_Final/" +:+ key))
    as [ decoded | ] eqn:E;
    destruct st as [b ip si db ls cs stx pbt bvt aid ddd ro tm nt ac rq dl co];
    cbn -[lookup insert] in *; [ | exact Hl ].
  destruct (decide (key = name)) as [ Eq | Ne ].
  - rewrite Eq in *. unfold sample_path in Hf.
    rewrite lookup_insert_eq. congruence.
  - now rewrite lookup_insert_ne.
Qed.

Lemma load_one_loads (fetchSample : string -> option AudioBuffer)
  (loaded : gmap string AudioBuffer) (name : string) (buffer : AudioBuffer)
  (st : state) :
  name <> EmptyString ->
  inherited name = false ->
  loaded !! name = None ->
  fetchSample (sample_path name) = Some buffer ->
  loadedSamples (snd (load_one fetchSample loaded (VStr name) st)) !! name
  = Some buffer.
Proof.
  intros Hn Hi Hl Hf. unfold load_one. cbn [Conv.ToString Js.truthy].
  unfold bind at 1. cbn [lift]. unfold loaded_get. rewrite Hl, Hi.
  destruct (String.eqb_spec name EmptyString) as [ E | _ ]; [contradiction | ].
  cbn [negb]. cbv zeta. fold (sample_path name). rewrite Hf.
  unfold bind, modify.
  destruct st as [b ip si db ls cs stx pbt bvt aid ddd ro tm nt ac rq dl co].
  cbn -[lookup insert]. apply lookup_insert_eq.
Qed.

Lemma forEach_snd_cons {A : Type} (f : A -> js unit) (x : A) (l : list A)
  (st : state) :
  fst (f x st) = Done (Normal tt) ->
  snd (forEach (x :: l) f st) = snd (forEach l f (snd (f x st))).
Proof.
  intros H. cbn [forEach]. unfold bind. destruct (f x st) as [r s'].
  cbn [fst snd] in *. now subst r.
Qed.

Lemma forEach_keeps (fetchSample : string -> option AudioBuffer)
  (loaded : gmap string AudioBuffer) (name : string) (buffer : AudioBuffer)
  (l : list value) :
  fetchSample (sample_path name) = Some buffer ->
  forall st,
    loadedSamples st !! name = Some buffer ->
    loadedSamples (snd (forEach l (load_one fetchSample loaded) st)) !! name
    = Some buffer.
Proof.
  intros Hf. induction l as [ | x l IH ]; intros st Hl; [exact Hl | ].
  pose proof (load_one_keeps fetchSample loaded x name buffer st Hf Hl) as K.
  cbn [forEach]. unfold bind.
  destruct (load_one fetchSample loaded x st) as [[[[] | e] | ] s'];
    cbn [snd] in *; [now apply IH | exact K | exact K].
Qed.

Lemma forEach_loads (fetchSample : string -> option AudioBuffer)
  (loaded : gmap string AudioBuffer) (name : string) (buffer : AudioBuffer)
  (l : list value) :
  name <> EmptyString ->
  inherited name = false ->
  loaded !! name = None ->
  fetchSample (sample_path name) = Some buffer ->
  forallb printable l = true ->
  In (VStr name) l ->
  forall st,
    loadedSamples (snd (forEach l (load_one fetchSample loaded) st)) !! name
    = Some buffer.
Proof.
  intros Hn Hi Hl Hf. induction l as [ | x l IH ]; intros Hp Hin st;
    [destruct Hin | ].
  cbn [forallb] in Hp. apply andb_true_iff in Hp as [Hx Hp].
  rewrite forEach_snd_cons by (now apply load_one_normal).
  destruct Hin as [ -> | Hin ].
  - apply forEach_keeps; [exact Hf | ]. now apply load_one_loads.
  - now apply IH.
Qed.

Lemma unique_printable (l : list value) :
  forallb printable l = true -> forallb printable (unique l) = true.
Proof.
  intros H. apply forallb_forall. intros x Hx.
  rewrite forallb_forall in H. now apply H, unique_in.
Qed.

Lemma unique_keeps_string (name : string) (l : list value) :
  In (VStr name) l -> In (VStr name) (unique l).
Proof.
  induction l as [ | x l IH ]; intros H; [destruct H | ].
  cbn [unique]. destruct H as [ -> | H ]; [now left | ].
  destruct (Conv.same_value_zero x (VStr name)) eqn:E.
  - left. destruct x; try discriminate. cbn in E.
    apply String.eqb_eq in E. now subst.
  - right. apply list_elem_of_In, list_elem_of_filter. split.
    + rewrite E. exact I.
    + now apply list_elem_of_In, IH.
Qed.

(** Loading fills the cache: after [loadSamplesForSequence] on an array
    of tracks, each an object with an array [steps] of objects whose
    files can be written as text, a file name of a step, a text that is
    not empty and not a name every object inherits (such as
    constructor), that was cached is still cached with the same buffer,
    and one that was not is cached with the buffer the library serves at
    [Organized_Library_Final/<name>]. *)
Theorem loadSamplesForSequence_loads (fetchSample : string -> option AudioBuffer)
  (tracks : list value) (name : string) (buffer : AudioBuffer) (st : state) :
  forallb shaped_track tracks = true ->
  forallb printable (concat (map track_files tracks)) = true ->
  In (VStr name) (concat (map track_files tracks)) ->
  name <> EmptyString ->
  inherited name = false ->
  fetchSample (sample_path name) = Some buffer ->
  loadedSamples (snd (loadSamplesForSequence fetchSample (VArr tracks) st)) !! name
  = match loadedSamples st !! name with
    | Some old => Some old
    | None => Some buffer
    end.
Proof.
  intros Hs Hp Hin Hn Hi Hf. destruct (loadedSamples st !! name) as [ old | ] eqn:L.
  - exact (loadSamplesForSequence_keeps_cached name old fetchSample (VArr tracks) st L).
  - unfold loadSamplesForSequence.
    unfold bind at 1. cbn [modify].
    unfold bind at 1. rewrite (step_files_shaped tracks _ Hs).
    cbv zeta. unfold bind at 1. cbn [gets].
    match goal with
    | |- context [forEach ?l ?f] =>
        change f with (load_one fetchSample
                         (loadedSamples
                            (set_statusText "Loading required samples..." st)))
    end.
    set (s1 := set_statusText "Loading required samples..." st).
    assert (L1 : loadedSamples s1 !! name = None) by (subst s1; now destruct st).
    pose proof (unique_printable _ Hp) as Hu.
    pose proof (forEach_loads fetchSample (loadedSamples s1) name buffer
                  (unique (concat (map track_files tracks))) Hn Hi L1 Hf Hu
                  (unique_keeps_string _ _ Hin) s1) as F.
    assert (N : fst (forEach (unique (concat (map track_files tracks)))
                       (load_one fetchSample (loadedSamples s1)) s1)
                = Done (Normal tt)).
    { apply forEach_normal. intros x s Hx. apply load_one_normal.
      rewrite forallb_forall in Hu. now apply Hu. }
    unfold bind at 1.
    destruct (forEach _ _ s1) as [r s']. cbn [fst snd] in *. subst r.
    cbn [modify snd]. now destruct s'.
Qed.

Lemma loadSamplesForSequence_loads_witness :
  loadedSamples
    (snd (loadSamplesForSequence example_library
            (VArr [VObj [("name", VStr "Kick");
                         ("steps", VArr [VObj [("beat", VNum 0);
                                               ("file", VStr "a.wav")]])]])
            initial)) !! "a.wav"
  = Some example_buffer.
Proof.
  refine (loadSamplesForSequence_loads example_library
            [VObj [("name", VStr "Kick");
                   ("steps", VArr [VObj [("beat", VNum 0); ("file", VStr "a.wav")]])]]
            "a.wav" example_buffer initial _ _ _ _ _ _).
  - reflexivity.
  - reflexivity.
  - left. reflexivity.
  - discriminate.
  - reflexivity.
  - reflexivity.
Defined.

(** ** The management script [manage_app.sh]

    The script is modelled by what it does to its environment: the
    commands it runs and the lines it echoes, in order, and its exit
    status.  The environment answers the two tests and the one exit
    status the script looks at. *)

(** An argument other than [start], [stop] and [restart], or none,
    gets the usage line and exit status 1; no command is run. *)
Theorem manage_app_usage (argument : string) (h : host) :
  argument <> "start" -> argument <> "stop" -> argument <> "restart" ->
  manage_app argument h
  = ([Echo false "Usage: ./manage_app.sh {start|stop|restart}"], inr 1%nat).
Proof.
  intros H1 H2 H3. unfold manage_app.
  apply String.eqb_neq in H1, H2, H3. now rewrite H1, H2, H3.
Qed.

Lemma manage_app_usage_witness :
  manage_app "status" (mkHost false 0 false)
  = ([Echo false "Usage: ./manage_app.sh {start|stop|restart}"], inr 1%nat).
Proof. apply manage_app_usage; discriminate. Defined.

(** Starting is guarded: for [start] and [restart], the service is
    started only when it is not active, the web server is launched only
    when none is found and the service is active or has just started,
    and the script exits with status 1, without announcing success,
    exactly when the service was inactive and could not be started;
    otherwise it ends with status 0 and the announcement. *)
Theorem manage_app_start_guarded (argument : string) (h : host) :
  argument = "start" \/ argument = "restart" ->
  let r := manage_app argument h in
  (In SudoSystemctlStart (commands r) <-> ollama_active h = false)
  /\ (In NohupWebServer (commands r)
      <-> server_found h = false
          /\ (ollama_active h = true \/ start_status h = 0%nat))
  /\ (exit_status r = 1%nat <-> ollama_active h = false /\ start_status h <> 0%nat)
  /\ (exit_status r = 1%nat \/ exit_status r = 0%nat)
  /\ announces_success r = negb (exit_status r =? 1)%nat.
Proof.
  intros [ -> | -> ]; destruct h as [ [ | ] [ | n ] [ | ] ]; cbn;
    intuition (try discriminate; try congruence).
Qed.

Lemma manage_app_start_guarded_witness :
  let r := manage_app "start" (mkHost false 1 false) in
  (In SudoSystemctlStart (commands r) <-> false = false)
  /\ (In NohupWebServer (commands r)
      <-> false = false /\ (false = true \/ 1%nat = 0%nat))
  /\ (exit_status r = 1%nat <-> false = false /\ 1%nat <> 0%nat)
  /\ (exit_status r = 1%nat \/ exit_status r = 0%nat)
  /\ announces_success r = negb (exit_status r =? 1)%nat.
Proof.
  apply (manage_app_start_guarded "start" (mkHost false 1 false)). now left.
Defined.

(** Stopping asks nothing: [stop] runs the two stopping commands
    whatever the host's state, reports both services stopped and ends
    with status 0; and [restart] runs them before anything of
    [start]. *)
Theorem manage_app_stop_unconditional (h : host) :
  commands (manage_app "stop" h) = [SudoSystemctlStop; Pkill]
  /\ exit_status (manage_app "stop" h) = 0%nat
  /\ commands (manage_app "restart" h)
     = [SudoSystemctlStop; Pkill; Sleep 1] ++ commands (manage_app "start" h)
  /\ exit_status (manage_app "restart" h) = exit_status (manage_app "start" h).
Proof.
  destruct h as [ [ | ] [ | n ] [ | ] ]; repeat split; reflexivity.
Qed.

Lemma loadDatabase_named (database : option string) :
  forallb named (sampleDatabase (snd (loadDatabase database initial))) = true.
Proof.
  destruct database as [ text | ]; [ | reflexivity ].
  unfold loadDatabase. cbn [bind modify snd initial set_sampleDatabase log_request
                                 set_requests set_statusText set_aiButtonDisabled
                                 sampleDatabase].
  apply forallb_forall. intros s Hs.
  apply list_elem_of_In, list_elem_of_filter in Hs as [Hs _].
  now apply Is_true_true in Hs.
Qed.

Lemma handle_keeps_catalog (e : event) (db : list sample) :
  stable (fun st => sampleDatabase st = db) (handle e).
Proof. stable_script untouched. Qed.

(** The catalog is read once: in every state the page can reach, each
    entry has a file name and a category, neither empty, and no listener
    changes the catalog. *)
Theorem catalog_invariant (st : state) (e : event) :
  reachable st ->
  forallb named (sampleDatabase st) = true
  /\ sampleDatabase (step st e) = sampleDatabase st.
Proof.
  intros R. split.
  - revert st R. apply reachable_ind; [apply loadDatabase_named | ].
    intros e' st H. now rewrite (handle_keeps_catalog e' (sampleDatabase st) st eq_refl).
  - exact (handle_keeps_catalog e (sampleDatabase st) st eq_refl).
Qed.

Lemma catalog_invariant_witness :
  forallb named (sampleDatabase kick_loaded) = true
  /\ sampleDatabase (step kick_loaded PlayClick) = sampleDatabase kick_loaded.
Proof.
  apply (catalog_invariant kick_loaded PlayClick).
  exists (Some example_csv), [AiClick (answering kick_pattern)]. reflexivity.
Defined.
